(** * rbxflags/js-api: flag-list preprocessing and merge pipeline

    A shallow embedding of [src/FlagListPreprocessor.ts] (the content cache
    [downloadFile], the manifest loader [fetchFlagLists] and the defaulting
    utility [defaultRecursive]) and of the orchestrating class [RFO]
    ([getFlagFiles], [dumpFlags], [mergeFlagFiles], [applyFlags]), followed by
    the properties of the specification that concern them.

    Modelling conventions.
    - JavaScript data is the JSON data model plus [undefined]; an object is the
      list of its own enumerable properties in enumeration order, and an array
      is such an object tagged [ArrayObject] whose keys are the decimal
      indices.  A property read [o[key]] is modelled for the keys that [o]
      does not inherit ([inherited_name] lists the others); where the code
      looks up a name chosen by the user among the options of a feature, the
      inherited names are modelled too.  A new property goes last in the
      list, as it does in JavaScript unless its key is an array index
      ([index_key]).  The theorems about property reads and about the order
      of keys carry these two conditions as hypotheses.
    - [defaultRecursive], which writes into the object it is given, is
      modelled twice: as a function on values, and on a store of cells with
      references ([Store]); the second refines the first.
    - Numbers are opaque to this code; [Z] stands in for them.
    - Effects (file system, network, console) are threaded through a state and
      error monad [IO]; everything the code does to the outside is recorded in
      a trace.
    - The libraries the code calls (axios, crypto, json5, toml, JSON) are the
      fields of an environment record [Env]. *)

From Stdlib Require Import ZArith List Ascii String Bool Lia.
From stdpp Require Import base option list gmap strings pretty.

Local Open Scope string_scope.
Local Open Scope Z_scope.
Local Open Scope list_scope.

(** ** Strings *)

Module Str.

Definition upper_char (c : ascii) : ascii :=
  let n := nat_of_ascii c in
  if ((97 <=? n) && (n <=? 122))%nat then ascii_of_nat (n - 32) else c.

Definition lower_char (c : ascii) : ascii :=
  let n := nat_of_ascii c in
  if ((65 <=? n) && (n <=? 90))%nat then ascii_of_nat (n + 32) else c.

Fixpoint map_chars (g : ascii -> ascii) (s : string) : string :=
  match s with
  | EmptyString => EmptyString
  | String c r => String (g c) (map_chars g r)
  end.

(** [String.prototype.toUpperCase] and [toLowerCase] on ASCII text. *)
Definition toUpperCase : string -> string := map_chars upper_char.
Definition toLowerCase : string -> string := map_chars lower_char.

(** [String.prototype.endsWith]. *)
Definition endsWith (s suffix : string) : bool :=
  let n := String.length s in
  let m := String.length suffix in
  if (m <=? n)%nat then String.eqb (String.substring (n - m) m s) suffix
  else false.

(** A string is truthy when it is not empty. *)
Definition truthy (s : string) : bool :=
  match s with EmptyString => false | _ => true end.

(** The one-character strings of [s], as [for..in] and spread see them. *)
Fixpoint chars (s : string) : list string :=
  match s with
  | EmptyString => []
  | String c r => String c EmptyString :: chars r
  end.

End Str.

(** ** Errors

    Every [throw] site of the source is a constructor; [kind_of] gives the
    error kind under which the specification files it. *)

Inductive Error : Type :=
| InsecureAlgorithm (algorithm : string)
    (* 'FATAL: INSECURE: MD5 is not supported' / '... SHA1 ...' *)
| DownloadStatus (file route : string) (status : Z)
    (* 'Failed to download file ... : <status> <statusText>' *)
| InvalidHash (file route : string)
    (* 'File ... from ... has an invalid hash' *)
| AxiosRejected (url : string)
    (* the promise of axios.get rejected *)
| DigestUnsupported (algorithm : string)
    (* crypto.createHash threw *)
| RemoteFlagListFailed (name url : string)
    (* 'Failed to parse flag list <name> from <url>' *)
| LocalFlagListFailed (file : string)
    (* 'Failed to parse flag list <file>' *)
| DidNotPreprocess
    (* 'Did not preprocess flags' *)
| NoFlagsFound
    (* 'No flags found' *)
| NoRobloxVersions
    (* 'No Roblox Versions found' *)
| InvalidFlagValue (flag : string)
    (* 'Invalid flag value: ' + flag *)
| FlagFileMissing (path : string)
    (* 'Flag file does not exist: ' + flagFile *)
| RobloxVersionMissing (path : string)
    (* 'Roblox Version does not exist: ' + robloxPath *)
| SyntaxError
    (* a parser threw *)
| FsError (path : string)
    (* an fs call threw *)
| TypeError.
    (* property access on null or undefined, property creation on a primitive *)

Inductive ErrorKind : Type :=
| SecurityPolicyViolation
| IntegrityMismatch
| DownloadFailed
| ManifestParseError
| InvalidSelection
| MissingConfigFragment
| NotPreprocessed
| RuntimeError.

Definition kind_of (e : Error) : ErrorKind :=
  match e with
  | InsecureAlgorithm _ => SecurityPolicyViolation
  | InvalidHash _ _ => IntegrityMismatch
  | DownloadStatus _ _ _ | AxiosRejected _ => DownloadFailed
  | RemoteFlagListFailed _ _ | LocalFlagListFailed _ => ManifestParseError
  | InvalidFlagValue _ => InvalidSelection
  | FlagFileMissing _ => MissingConfigFragment
  | DidNotPreprocess | NoFlagsFound | NoRobloxVersions => NotPreprocessed
  | _ => RuntimeError
  end.

(** ** Results: a value or a thrown error *)

Inductive Res (A : Type) : Type :=
| Ok (a : A)
| Throw (e : Error).

Arguments Ok {A} a.
Arguments Throw {A} e.

Definition res_bind {A B : Type} (r : Res A) (k : A -> Res B) : Res B :=
  match r with
  | Ok a => k a
  | Throw e => Throw e
  end.

Definition throws {A : Type} (r : Res A) : Prop :=
  match r with Ok _ => False | Throw _ => True end.

Declare Scope res_scope.
Delimit Scope res_scope with res.
Notation "'let?' x := c 'in' k" := (res_bind c (fun x => k))
  (at level 10, x name, c at level 100, k at level 200) : res_scope.

(** A loop whose body may throw: [for (const x of xs) acc = body(acc, x)]. *)
Definition res_fold {A B : Type} (body : A -> B -> Res A)
  : A -> list B -> Res A :=
  fix loop (acc : A) (xs : list B) : Res A :=
    match xs with
    | [] => Ok acc
    | x :: rest => res_bind (body acc x) (fun acc' => loop acc' rest)
    end.

(** ** The outside world *)

(** What [axios.get] resolves to. *)
Record Response : Type := mkResponse {
  status : Z;
  statusText : string;
  data : string;
}.

Inductive FsNode : Type :=
| FsFile (content : string)
| FsDir (entries : list string).

(** Everything the code does to the outside, in program order. *)
Inductive Event : Type :=
| HttpGet (url : string)
| FileWrite (path : string) (content : string)
| MakeDir (path : string)
| ConsoleWarn (about : string)
| ConsoleError (about : string).

Record World : Type := mkWorld {
  fs : gmap string FsNode;
  trace : list Event;
}.

Definition IO (A : Type) : Type := World -> Res A * World.

Definition io_ret {A : Type} (a : A) : IO A := fun w => (Ok a, w).

Definition io_throw {A : Type} (e : Error) : IO A := fun w => (Throw e, w).

Definition io_bind {A B : Type} (m : IO A) (k : A -> IO B) : IO B :=
  fun w =>
    match m w with
    | (Ok a, w') => k a w'
    | (Throw e, w') => (Throw e, w')
    end.

Definition io_lift {A : Type} (r : Res A) : IO A := fun w => (r, w).

Definition emit (ev : Event) : IO unit :=
  fun w => (Ok tt, {| fs := fs w; trace := trace w ++ [ev] |}).

Declare Scope io_scope.
Delimit Scope io_scope with io.
Notation "'let!' x := c 'in' k" := (io_bind c (fun x => k))
  (at level 10, x name, c at level 100, k at level 200) : io_scope.

Local Open Scope io_scope.

(** [try { body } catch (error) { handler(error) }]. *)
Definition io_catch {A : Type} (body : IO A) (handler : Error -> IO A) : IO A :=
  fun w =>
    match body w with
    | (Ok a, w') => (Ok a, w')
    | (Throw e, w') => handler e w'
    end.

(** [for (const x of xs) acc = await body(acc, x)]. *)
Fixpoint io_fold {A B : Type} (body : A -> B -> IO A) (acc : A) (xs : list B)
  : IO A :=
  match xs with
  | [] => io_ret acc
  | x :: rest => let! acc' := body acc x in io_fold body acc' rest
  end.

(** [Promise.all]: every operation has been started and runs to its end; the
    joint promise resolves to all the results, or rejects with a rejection of
    one of them (here the first in list order). *)
Fixpoint promise_all {A : Type} (ops : list (IO A)) : IO (list A) :=
  match ops with
  | [] => io_ret []
  | op :: rest =>
      fun w =>
        match op w with
        | (Ok a, w1) =>
            match promise_all rest w1 with
            | (Ok l, w2) => (Ok (a :: l), w2)
            | (Throw e, w2) => (Throw e, w2)
            end
        | (Throw e, w1) => (Throw e, snd (promise_all rest w1))
        end
  end.

(** *** fs *)

Definition existsSync (path : string) : IO bool :=
  fun w => (Ok (bool_decide (is_Some (fs w !! path))), w).

Definition readFileSync (path : string) : IO string :=
  fun w =>
    match fs w !! path with
    | Some (FsFile content) => (Ok content, w)
    | _ => (Throw (FsError path), w)
    end.

Definition readdirSync (path : string) : IO (list string) :=
  fun w =>
    match fs w !! path with
    | Some (FsDir entries) => (Ok entries, w)
    | _ => (Throw (FsError path), w)
    end.

(** The directory a file is written into is taken to exist, as it does
    when [process] has created [_cache] and [applyFlags] the settings
    directory; where it does not, Node throws and nothing is written.  The
    theorems that state a write of [downloadFile] name the directory as a
    hypothesis. *)
Definition writeFileSync (path content : string) : IO unit :=
  fun w =>
    (Ok tt, {| fs := <[path := FsFile content]> (fs w);
               trace := trace w ++ [FileWrite path content] |}).

Definition mkdirSync (path : string) : IO unit :=
  fun w =>
    match fs w !! path with
    | Some _ => (Throw (FsError path), w)
    | None => (Ok tt, {| fs := <[path := FsDir []]> (fs w);
                         trace := trace w ++ [MakeDir path] |})
    end.

(** ** Property lists

    The own enumerable properties of an object, in enumeration order. *)

Definition is_digit (c : ascii) : bool :=
  let n := nat_of_ascii c in ((48 <=? n) && (n <=? 57))%nat.

Fixpoint all_digits (s : string) : bool :=
  match s with
  | EmptyString => true
  | String c r => is_digit c && all_digits r
  end.

(** [key] is written as an array index is: ["0"], or decimal digits that do
    not start with a zero.  JavaScript enumerates such keys of an object
    first, in ascending order, wherever they were added; every other key
    follows in the order of creation. *)
Definition index_key (key : string) : bool :=
  match key with
  | EmptyString => false
  | String c EmptyString => is_digit c
  | String c r => is_digit c && negb (Ascii.eqb c "0") && all_digits r
  end.

Section Props.

Context {V : Type}.

(** The value bound to [key], if any. *)
Fixpoint props_get (key : string) (props : list (string * V)) : option V :=
  match props with
  | [] => None
  | (k, v) :: rest => if String.eqb k key then Some v else props_get key rest
  end.

(** [o[key] = v] on the property list: an existing property keeps its place,
    a new one goes last, which is its place in the enumeration when the key
    is no [index_key]. *)
Fixpoint props_set (key : string) (v : V) (props : list (string * V))
  : list (string * V) :=
  match props with
  | [] => [(key, v)]
  | (k, x) :: rest =>
      if String.eqb k key then (k, v) :: rest
      else (k, x) :: props_set key v rest
  end.

(** Index keys ["0"], ["1"], ... paired with the elements. *)
Definition indexed (xs : list V) : list (string * V) :=
  imap (fun (i : nat) (x : V) => (pretty i, x)) xs.

End Props.

(** ** JavaScript values *)

Inductive ObjKind : Type := PlainObject | ArrayObject.

#[local] Set Warnings "-register-all".
Inductive JValue : Type :=
| JUndefined
| JNull
| JBool (b : bool)
| JNum (n : Z)
| JStr (s : string)
| JObj (kind : ObjKind) (props : list (string * JValue)).
#[local] Set Warnings "register-all".

(** Induction with the hypothesis available for every property value. *)
Fixpoint JValue_nested_ind (P : JValue -> Prop)
    (Hundefined : P JUndefined) (Hnull : P JNull)
    (Hbool : forall b, P (JBool b)) (Hnum : forall n, P (JNum n))
    (Hstr : forall s, P (JStr s))
    (Hobj : forall kind props,
        Forall (fun kv => P (snd kv)) props -> P (JObj kind props))
    (v : JValue) {struct v} : P v :=
  match v with
  | JUndefined => Hundefined
  | JNull => Hnull
  | JBool b => Hbool b
  | JNum n => Hnum n
  | JStr s => Hstr s
  | JObj kind props =>
      Hobj kind props
        ((fix all (l : list (string * JValue))
            : Forall (fun kv => P (snd kv)) l :=
            match l with
            | [] => List.Forall_nil _
            | kv :: rest =>
                @List.Forall_cons _ (fun kv => P (snd kv)) kv rest
                  (JValue_nested_ind P Hundefined Hnull Hbool Hnum Hstr Hobj
                     (snd kv))
                  (all rest)
            end) props)
  end.

(** [typeof v === 'object']: true of objects, of arrays and of [null]. *)
Definition typeof_object (v : JValue) : bool :=
  match v with
  | JNull | JObj _ _ => true
  | _ => false
  end.

(** [a ?? b]. *)
Definition nullish (a b : JValue) : JValue :=
  match a with
  | JUndefined | JNull => b
  | _ => a
  end.

(** The array literal [[x0, x1, ...]]. *)
Definition JArr (xs : list JValue) : JValue := JObj ArrayObject (indexed xs).

(** Own enumerable string-keyed properties, as [for..in] and object spread
    enumerate them. *)
Definition own_entries (v : JValue) : list (string * JValue) :=
  match v with
  | JObj _ props => props
  | JStr s => indexed (JStr <$> Str.chars s)
  | _ => []
  end.

(** The names under which an object finds a property that it does not own:
    the properties of [Object.prototype], which every object inherits. *)
Definition Object_prototype_names : list string :=
  ["constructor"; "__defineGetter__"; "__defineSetter__"; "hasOwnProperty";
   "__lookupGetter__"; "__lookupSetter__"; "isPrototypeOf";
   "propertyIsEnumerable"; "toString"; "valueOf"; "__proto__";
   "toLocaleString"].

(** What an array has besides its elements: [length] and the properties of
    [Array.prototype]. *)
Definition Array_prototype_names : list string :=
  ["length"; "at"; "concat"; "copyWithin"; "entries"; "every"; "fill";
   "filter"; "find"; "findIndex"; "findLast"; "findLastIndex"; "flat";
   "flatMap"; "forEach"; "includes"; "indexOf"; "join"; "keys";
   "lastIndexOf"; "map"; "pop"; "push"; "reduce"; "reduceRight"; "reverse";
   "shift"; "slice"; "some"; "sort"; "splice"; "toReversed"; "toSorted";
   "toSpliced"; "unshift"; "values"; "with"].

(** [key] names a property of [Object.prototype]: [o[key]] is then a
    function, or for [__proto__] the prototype itself, on every plain object
    that has no own property of that name. *)
Definition inherited (key : string) : bool :=
  bool_decide (key ∈ Object_prototype_names).

(** [key] names a property that an object or an array has without owning it
    as an element or entry. *)
Definition inherited_name (key : string) : bool :=
  bool_decide (key ∈ (Object_prototype_names ++ Array_prototype_names)%list).

(** [v[key]], for a key that is an own property of [v] or that [v] does not
    have at all.  A key that [v] inherits ([inherited_name]) is read by the
    code as a function or a prototype object, which are no values of this
    model: the theorems about [defaultRecursive] exclude such keys from the
    defaults. *)
Definition get_prop (v : JValue) (key : string) : Res JValue :=
  match v with
  | JUndefined | JNull => Throw TypeError
  | _ => Ok (default JUndefined (props_get key (own_entries v)))
  end.

(** [v[key] = x] in strict mode; yields the updated object. *)
Definition set_prop (v : JValue) (key : string) (x : JValue) : Res JValue :=
  match v with
  | JObj kind props => Ok (JObj kind (props_set key x props))
  | _ => Throw TypeError
  end.

(** ** Library environment *)

Record Env : Type := mkEnv {
  (** [axios.get(url)]; [None] when the promise rejects (a network error
      or, with the defaults of axios, a status outside 2xx) *)
  axios_get : string -> option Response;
  (** [crypto.createHash(algorithm).update(buffer).digest('hex')];
      [None] when [createHash] throws *)
  hash_hex : string -> string -> option string;
  (** the three parsers; [None] when they throw *)
  json5_parse : string -> option JValue;
  JSON_parse : string -> option JValue;
  toml_parse : string -> option JValue;
  (** [JSON.stringify(v, null, 2)] *)
  JSON_stringify : JValue -> string;
}.

(** ** MiscTypes *)

Inductive Digest : Type :=
| DigestString (hex : string)
| DigestNull
| DigestUndefined.

Record FileHash : Type := mkFileHash {
  algorithm : string;
  digest : Digest;
}.

Record File : Type := mkFile {
  f : string;
  h : FileHash;
}.

(** A manifest as parsed: the cast [as FlagList] checks nothing. *)
Definition FlagList : Type := JValue.

(** A value read as [FlagList | null]: [None] is [null]. *)
Definition nullable (v : JValue) : option FlagList :=
  match v with
  | JNull => None
  | _ => Some v
  end.

Record FlagListUrl : Type := mkFlagListUrl {
  name : string;
  url : string;
}.

Record Config : Type := mkConfig {
  defaultFlagList : FlagListUrl;
  flagLists : list FlagListUrl;
}.

(** [`${digest}`]. *)
Definition digest_text (d : Digest) : string :=
  match d with
  | DigestString hex => hex
  | DigestNull => "null"
  | DigestUndefined => "undefined"
  end.

(** [fileHash !== digest]. *)
Definition digest_differs (fileHash : string) (d : Digest) : bool :=
  match d with
  | DigestString hex => negb (String.eqb fileHash hex)
  | _ => true
  end.

(** ** FlagListPreprocessor *)

Section Preprocessor.

Variable E : Env.

Definition axios_get_io (target : string) : IO Response :=
  fun w =>
    let w' := {| fs := fs w; trace := trace w ++ [HttpGet target] |} in
    match axios_get E target with
    | Some response => (Ok response, w')
    | None => (Throw (AxiosRejected target), w')
    end.

Definition createHash_io (alg : string) (buffer : string) : IO string :=
  match hash_hex E alg buffer with
  | Some hex => io_ret hex
  | None => io_throw (DigestUnsupported alg)
  end.

Definition downloadFile (file : File) (baseUrl : string) : IO string :=
  let file := {| f := baseUrl +:+ f file; h := h file |} in
  if String.eqb (Str.toUpperCase (algorithm (h file))) "MD5" then
    io_throw (InsecureAlgorithm "MD5")
  else if String.eqb (Str.toUpperCase (algorithm (h file))) "SHA1" then
    io_throw (InsecureAlgorithm "SHA1")
  else if negb (String.eqb (algorithm (h file)) "none") then
    let fileRoute := "_cache/" +:+ digest_text (digest (h file)) in
    let! cached := existsSync fileRoute in
    if (cached : bool) then io_ret fileRoute
    else
      let! fileResponse := axios_get_io fileRoute in
      if negb (status fileResponse =? 200) then
        io_throw (DownloadStatus (f file) fileRoute (status fileResponse))
      else
        let fileBuffer := data fileResponse in
        let! fileHash := createHash_io (algorithm (h file)) fileBuffer in
        if digest_differs fileHash (digest (h file)) then
          io_throw (InvalidHash (f file) fileRoute)
        else
          let! _ := writeFileSync fileRoute fileBuffer in
          io_ret fileRoute
  else
    let! fileResponse := axios_get_io (f file) in
    if negb (status fileResponse =? 200) then
      io_throw (DownloadStatus (f file) (f file) (status fileResponse))
    else
      let fileBuffer := data fileResponse in
      let! fileHash := createHash_io "SHA512" fileBuffer in
      let! _ := writeFileSync ("_cache/" +:+ fileHash) fileBuffer in
      io_ret ("_cache/" +:+ fileHash).

(** The literal of [loadConfig] supplies the URLs; the instance keeps the
    configuration and the directory of local flag lists. *)
Variable config : Config.
Variable flagListDir : string.

Definition fetchFlagList (flagListUrl : FlagListUrl) : IO (option FlagList) :=
  io_catch
    (let! flagResponse := axios_get_io (url flagListUrl) in
     if negb (status flagResponse =? 200) then
       let! _ := emit (ConsoleWarn (name flagListUrl)) in
       io_ret None
     else
       let flagListText := data flagResponse in
       match json5_parse E flagListText with
       | Some flagListJson => io_ret (nullable flagListJson)
       | None => io_throw SyntaxError
       end)
    (fun error =>
       let! _ := emit (ConsoleError (name flagListUrl)) in
       io_throw (RemoteFlagListFailed (name flagListUrl) (url flagListUrl))).

(** [xs.map(callback)] with a callback that may throw. *)
Fixpoint io_map {A B : Type} (callback : A -> IO B) (xs : list A) : IO (list B) :=
  match xs with
  | [] => io_ret []
  | x :: rest =>
      let! y := callback x in
      let! ys := io_map callback rest in
      io_ret (y :: ys)
  end.

Definition parser_for (flagList : string) : string -> option JValue :=
  if Str.endsWith (Str.toLowerCase flagList) "json" then JSON_parse E
  else if Str.endsWith flagList "toml" then toml_parse E
  else json5_parse E.

Definition readLocalFlagLists : IO (list FlagList) :=
  let! present := existsSync flagListDir in
  let! flagListFiles :=
    if (present : bool) then readdirSync flagListDir else io_ret [] in
  io_map
    (fun flagList =>
       let! flagListText := readFileSync (flagListDir +:+ "/" +:+ flagList) in
       io_catch
         (match parser_for flagList flagListText with
          | Some flagListJson => io_ret flagListJson
          | None => io_throw SyntaxError
          end)
         (fun error =>
            let! _ := emit (ConsoleError flagList) in
            io_throw (LocalFlagListFailed flagList)))
    flagListFiles.

(** The value is what [this.flagLists] holds when the method returns;
    [omap id] is [filter((flagList) => flagList !== null)]. *)
Definition fetchFlagLists : IO (list FlagList) :=
  let! flagListsData :=
    promise_all
      (fetchFlagList (defaultFlagList config)
         :: map fetchFlagList (flagLists config)) in
  let remote : list FlagList := omap id flagListsData in
  let! local := readLocalFlagLists in
  io_ret (remote ++ local)%list.

End Preprocessor.

(** *** defaultRecursive

    [objJoint] is [obj] itself: every assignment [objJoint[key] = ...] is
    a write into the object the caller passed, and the value returned is that
    object.  On values the function is the transformer below, from the
    content of [obj] at the call to its content at the return; the store-level
    account, with references and aliasing, is [Store.defaultRecursive]. *)

(** One turn of the loop.  The loop visits each own property of the defaults
    once: [key] is the property, [dv] is [defaultObj[key]]. *)
Definition defaultStep (recurse : JValue -> Res JValue)
    (objJoint : JValue) (key : string) (dv : JValue) : Res JValue :=
  (let? o := get_prop objJoint key in
   if typeof_object o && typeof_object dv then
     let? merged := recurse o in
     set_prop objJoint key merged
   else
     set_prop objJoint key (nullish o dv))%res.

Fixpoint defaultRecursive (obj defaultObj : JValue) {struct defaultObj}
  : Res JValue :=
  match defaultObj with
  | JObj _ props =>
      res_fold
        (fun objJoint '(key, dv) =>
           defaultStep (fun o => defaultRecursive o dv) objJoint key dv)
        obj props
  | JStr s =>
      (* the properties of a string are its characters: none is an object *)
      res_fold
        (fun objJoint '(key, dv) =>
           let? o := get_prop objJoint key in
           set_prop objJoint key (nullish o dv))
        obj (own_entries (JStr s))
  | _ => Ok obj
  end%res.

(** ** Processed flag lists *)

Inductive ProcessedFeature : Type :=
| MultipleChoice (name : string) (options : gmap string (list string))
    (default value : list string) (min max : Z)
| SingleChoice (name : string) (options : gmap string (list string))
    (default value : string).

Record ProcessedFlagListItem : Type := mkItem {
  item_name : string;
  baseurl : string;
  item_default : bool;
  enabled : bool;
  base : list string;
  features : list ProcessedFeature;
}.

(** [Record<string, ProcessedFlagListItem>], in enumeration order. *)
Definition ProcessedFlagList : Type := list (string * ProcessedFlagListItem).

Definition Object_values {A : Type} (o : list (string * A)) : list A :=
  map snd o.

(** [{...a, ...b}]: a fresh plain object receiving the own properties of
    each source in turn. *)
Definition object_spread (sources : list JValue) : JValue :=
  JObj PlainObject
    (fold_left (fun props '(key, v) => props_set key v props)
       (concat (map own_entries sources)) []).

(** ** RFO *)

Record RFO : Type := mkRFO {
  processedFlagList : list ProcessedFlagList;
  robloxPaths : list string;
}.

Section RFO_methods.

Variable E : Env.

Definition hasProcessedFlags (this : RFO) : bool :=
  (0 <? length (processedFlagList this))%nat.

(** [flagFiles.push(...feature.options[flag])] where the look-up found
    something: the files of an own option, or, under a name that the object
    of the options inherits, a function or [Object.prototype], which cannot
    be spread. *)
Definition pushOption (flagFiles : list string)
    (options : gmap string (list string)) (flag : string)
  : option (Res (list string)) :=
  match options !! flag with
  | Some optionFiles => Some (Ok (flagFiles ++ optionFiles)%list)
  | None => if inherited flag then Some (Throw TypeError) else None
  end.

(** The body of [list.features.forEach(feature => ...)]. *)
Definition pushFeature (flagFiles : list string) (feature : ProcessedFeature)
  : Res (list string) :=
  match feature with
  | MultipleChoice _ options _ value _ _ =>
      res_fold
        (fun flagFiles flag =>
           match pushOption flagFiles options flag with
           | None => Throw (InvalidFlagValue flag)
           | Some pushed => pushed
           end)
        flagFiles value
  | SingleChoice _ options _ value =>
      if Str.truthy value then
        match pushOption flagFiles options value with
        | Some pushed => pushed
        | None => Ok flagFiles
        end
      else Ok flagFiles
  end.

Definition getFlagFiles (this : RFO) : Res (list string) :=
  if negb (hasProcessedFlags this) then Throw DidNotPreprocess
  else if (length (processedFlagList this) =? 0)%nat then Throw NoFlagsFound
  else
    res_fold
      (fun flagFiles flagLists =>
         res_fold
           (fun flagFiles list =>
              if enabled list then
                res_fold pushFeature (flagFiles ++ base list)%list
                  (features list)
              else Ok flagFiles)
           flagFiles (Object_values flagLists))
      [] (processedFlagList this).

Definition json5_parse_io (text : string) : IO JValue :=
  match json5_parse E text with
  | Some v => io_ret v
  | None => io_throw SyntaxError
  end.

(** A parameter with the default [this.getFlagFiles()]: [None] is the call
    without argument. *)
Definition flagFiles_or_default (this : RFO) (flagFiles : option (list string))
  : IO (list string) :=
  match flagFiles with
  | Some given => io_ret given
  | None => io_lift (getFlagFiles this)
  end.

Definition dumpFlags (this : RFO) (flagFiles : option (list string))
  : IO JValue :=
  let! flagFiles := flagFiles_or_default this flagFiles in
  io_fold
    (fun merged flagFile =>
       let! present := existsSync flagFile in
       if negb present then io_throw (FlagFileMissing flagFile)
       else
         let! text := readFileSync flagFile in
         let! parsed := json5_parse_io text in
         io_lift (set_prop merged flagFile parsed))
    (JObj PlainObject []) flagFiles.

Definition mergeFlagFiles (this : RFO) (flagFiles : option (list string))
  : IO JValue :=
  let! flagFiles := flagFiles_or_default this flagFiles in
  io_fold
    (fun merged flagFile =>
       let! present := existsSync flagFile in
       if negb present then io_throw (FlagFileMissing flagFile)
       else
         let! text := readFileSync flagFile in
         let! parsed := json5_parse_io text in
         io_ret (object_spread [merged; parsed]))
    (JObj PlainObject []) flagFiles.

Definition applyFlags (this : RFO) : IO unit :=
  if (length (robloxPaths this) =? 0)%nat then io_throw NoRobloxVersions
  else if (length (processedFlagList this) =? 0)%nat then io_throw NoFlagsFound
  else
    let! flagFiles := io_lift (getFlagFiles this) in
    let! merged := mergeFlagFiles this (Some flagFiles) in
    io_fold
      (fun (_ : unit) robloxPath =>
         let! present := existsSync robloxPath in
         if negb present then io_throw (RobloxVersionMissing robloxPath)
         else
           let! settings := existsSync (robloxPath +:+ "/ClientSettings") in
           let! _ :=
             if negb settings
             then mkdirSync (robloxPath +:+ "/ClientSettings")
             else io_ret tt in
           writeFileSync
             (robloxPath +:+ "/ClientSettings/ClientAppSettings.json")
             (JSON_stringify E merged))
      tt (robloxPaths this).

End RFO_methods.

(** ** Vocabulary of the properties *)

(** The algorithm is a named digest algorithm: neither of the two refused
    ones, nor ["none"]. *)
Definition named_algorithm (alg : string) : Prop :=
  Str.toUpperCase alg <> "MD5" /\ Str.toUpperCase alg <> "SHA1"
  /\ alg <> "none".

(** The cache path of a file. *)
Definition cache_route (file : File) : string :=
  "_cache/" +:+ digest_text (digest (h file)).


(** The remote sources in declaration order: the default one first. *)
Definition remote_sources (config : Config) : list FlagListUrl :=
  defaultFlagList config :: flagLists config.

(** The request of a source was answered, with a status other than 200. *)
Definition source_refused (E : Env) (src : FlagListUrl) : Prop :=
  exists response,
    axios_get E (url src) = Some response /\ status response <> 200.

(** The request of a source was rejected, or answered by a text that
    [json5.parse] does not accept. *)
Definition source_failed (E : Env) (src : FlagListUrl) : Prop :=
  axios_get E (url src) = None
  \/ exists response,
       axios_get E (url src) = Some response /\ status response = 200
       /\ json5_parse E (data response) = None.

(** The request of a source was answered, whatever the status. *)
Definition source_answered (E : Env) (src : FlagListUrl) : Prop :=
  is_Some (axios_get E (url src)).

(** The request of a source was answered with status 200 and a text that
    [json5.parse] does not accept. *)
Definition source_unparsable (E : Env) (src : FlagListUrl) : Prop :=
  exists response,
    axios_get E (url src) = Some response /\ status response = 200
    /\ json5_parse E (data response) = None.

(** The manifest a source contributes: the text answered with status 200, as
    parsed, unless it is [null]. *)
Definition loaded_manifest (E : Env) (src : FlagListUrl) : option FlagList :=
  match axios_get E (url src) with
  | Some response =>
      if status response =? 200
      then json5_parse E (data response) ≫= nullable
      else None
  | None => None
  end.

(** What [fetchFlagList] settles to, and what it leaves in the trace. *)
Definition fetch_outcome (E : Env) (src : FlagListUrl)
  : Res (option FlagList) :=
  match axios_get E (url src) with
  | None => Throw (RemoteFlagListFailed (name src) (url src))
  | Some response =>
      if negb (status response =? 200) then Ok None
      else
        match json5_parse E (data response) with
        | Some manifest => Ok (nullable manifest)
        | None => Throw (RemoteFlagListFailed (name src) (url src))
        end
  end.

Definition fetch_events (E : Env) (src : FlagListUrl) : list Event :=
  HttpGet (url src)
  :: match axios_get E (url src) with
     | None => [ConsoleError (name src)]
     | Some response =>
         if negb (status response =? 200) then [ConsoleWarn (name src)]
         else
           match json5_parse E (data response) with
           | Some _ => []
           | None => [ConsoleError (name src)]
           end
     end.

(** All the results, or the first error in list order. *)
Fixpoint res_all {A : Type} (rs : list (Res A)) : Res (list A) :=
  match rs with
  | [] => Ok []
  | r :: rest =>
      match r, res_all rest with
      | Ok a, Ok l => Ok (a :: l)
      | Ok _, Throw e => Throw e
      | Throw e, _ => Throw e
      end
  end.

(** An operation that only reads the file system: its result is a function
    of the files, which it leaves as they are, and it only adds to the
    trace. *)
Definition fs_reader {A : Type} (m : IO A) : Prop :=
  forall w : World,
    fs (snd (m w)) = fs w
    /\ (exists evs, trace (snd (m w)) = (trace w ++ evs)%list)
    /\ forall w' : World, fs w' = fs w -> fst (m w') = fst (m w).

(** *** resolveFiles, in the words of the specification *)

Definition res_map {A B : Type} (g : A -> B) (r : Res A) : Res B :=
  match r with
  | Ok a => Ok (g a)
  | Throw e => Throw e
  end.

(** The files of every element in order, failing with the first failure. *)
Definition res_collect {A : Type} (files_of : A -> Res (list string))
    (xs : list A) : Res (list string) :=
  res_map (@concat string) (res_all (map files_of xs)).

(** Multi-choice: the files of every currently selected option value,
    failing with [InvalidSelection] if a selected value has no matching
    option.  Single-choice: the files of the current value if it resolves to
    option files; nothing if the value is falsy or matches no option. *)
Definition spec_feature_files (feature : ProcessedFeature)
  : Res (list string) :=
  match feature with
  | MultipleChoice _ options _ value _ _ =>
      res_collect
        (fun flag =>
           match options !! flag with
           | Some optionFiles => Ok optionFiles
           | None => Throw (InvalidFlagValue flag)
           end)
        value
  | SingleChoice _ options _ value =>
      Ok (if Str.truthy value then default [] (options !! value) else [])
  end.

(** An enabled item: all base files in listed order, then the files of each
    feature in listed order.  A disabled item: nothing. *)
Definition spec_item_files (item : ProcessedFlagListItem)
  : Res (list string) :=
  if enabled item then
    res_map (app (base item)) (res_collect spec_feature_files (features item))
  else Ok [].

(** Manifests in load order, items within a manifest in the order of the
    mapping. *)
Definition spec_resolveFiles (manifests : list ProcessedFlagList)
  : Res (list string) :=
  res_collect spec_item_files (concat (map Object_values manifests)).

(** *** getFlagFiles, as its loops push

    What a feature pushes, what an item pushes, and what all the items of
    all the manifests push: the loops of [getFlagFiles], read as a
    concatenation. *)

(** What one selected value of a multi-choice feature contributes. *)
Definition option_pushed (options : gmap string (list string)) (flag : string)
  : Res (list string) :=
  match options !! flag with
  | Some optionFiles => Ok optionFiles
  | None =>
      if inherited flag then Throw TypeError else Throw (InvalidFlagValue flag)
  end.

Definition pushed_files (feature : ProcessedFeature) : Res (list string) :=
  pushFeature [] feature.

Definition pushed_item_files (item : ProcessedFlagListItem)
  : Res (list string) :=
  if enabled item then
    res_map (app (base item)) (res_collect pushed_files (features item))
  else Ok [].

Definition pushed_all (manifests : list ProcessedFlagList)
  : Res (list string) :=
  res_collect pushed_item_files (concat (map Object_values manifests)).

(** The values that a feature has selected: all of them for a multi-choice
    feature, the one value, if it is truthy, for a single-choice feature. *)
Definition selected (feature : ProcessedFeature) : list string :=
  match feature with
  | MultipleChoice _ _ _ value _ _ => value
  | SingleChoice _ _ _ value => if Str.truthy value then [value] else []
  end.

Definition options_of (feature : ProcessedFeature)
  : gmap string (list string) :=
  match feature with
  | MultipleChoice _ options _ _ _ _ => options
  | SingleChoice _ options _ _ => options
  end.

(** [flag] is selected, is no option of the feature, and is a name that the
    object of the options inherits. *)
Definition inherited_selection (feature : ProcessedFeature) (flag : string)
  : Prop :=
  flag ∈ selected feature /\ options_of feature !! flag = None
  /\ inherited flag = true.

(** Every selected value is an option of the feature or a name that finds
    nothing. *)
Definition own_selection (feature : ProcessedFeature) : bool :=
  forallb
    (fun flag =>
       bool_decide (is_Some (options_of feature !! flag))
       || negb (inherited flag))
    (selected feature).

(** The same of every feature of every enabled item. *)
Definition own_selections (manifests : list ProcessedFlagList) : bool :=
  forallb
    (fun item => negb (enabled item) || forallb own_selection (features item))
    (concat (map Object_values manifests)).

(** *** mergeConfigurations *)

(** The file at [path] exists and [json5.parse] reads it as [doc]. *)
Definition readable (E : Env) (w : World) (path : string) (doc : JValue)
  : Prop :=
  exists text,
    fs w !! path = Some (FsFile text) /\ json5_parse E text = Some doc.

(** The value of the last of the documents that has the key at its top
    level. *)
Definition last_wins (key : string) (docs : list JValue) : option JValue :=
  props_get key (rev (concat (map own_entries docs))).

(** The documents merged one after the other, as the loop does. *)
Definition merge_docs (docs : list JValue) : JValue :=
  fold_left (fun merged doc => object_spread [merged; doc]) docs
    (JObj PlainObject []).

(** *** applyDefaults *)

(** No key of the value, at any depth, is a name that objects and arrays
    inherit: a look-up of such a key finds the own property or nothing. *)
Fixpoint plain_keys (v : JValue) : bool :=
  match v with
  | JObj _ props =>
      forallb (fun kv => negb (inherited_name (fst kv)) && plain_keys (snd kv))
        props
  | _ => true
  end.

(** Every object of the value has pairwise different keys, as every
    JavaScript object has. *)
Fixpoint unique_keys (v : JValue) : bool :=
  match v with
  | JObj _ props =>
      bool_decide (NoDup (map fst props))
      && forallb (fun kv => unique_keys (snd kv)) props
  | _ => true
  end.

(** The loop of [defaultRecursive] over the properties of the defaults. *)
Definition defaultLoop (recurse : JValue -> JValue -> Res JValue)
  : JValue -> list (string * JValue) -> Res JValue :=
  res_fold
    (fun objJoint '(key, dv) =>
       defaultStep (fun o => recurse o dv) objJoint key dv).

(** What one turn of the loop stores under its key, [o] being the entry of
    the value and [dv] the entry of the defaults. *)
Definition step_value (recurse : JValue -> JValue -> Res JValue)
    (o dv val : JValue) : Prop :=
  if typeof_object o && typeof_object dv then recurse o dv = Ok val
  else val = nullish o dv.

(** A value that a second turn would store again. *)
Definition settled (v dv : JValue) : Prop := step_value defaultRecursive v dv v.

(** [obj[key]], [undefined] when the key is absent. *)
Definition entry (props : list (string * JValue)) (key : string) : JValue :=
  default JUndefined (props_get key props).

(** No entry of the value that is [null] meets an entry of the defaults that
    has properties, at any depth; and a value that is not an object is only
    given defaults without properties. *)
Fixpoint clash_free (obj defaultObj : JValue) {struct defaultObj} : bool :=
  match defaultObj with
  | JObj _ dprops =>
      match obj with
      | JObj _ oprops =>
          forallb
            (fun '(key, dv) =>
               if typeof_object (entry oprops key) && typeof_object dv
               then clash_free (entry oprops key) dv
               else true)
            dprops
      | _ => match dprops with [] => true | _ => false end
      end
  | JStr s =>
      match obj, s with
      | JObj _ _, _ => true
      | _, EmptyString => true
      | _, _ => false
      end
  | _ => true
  end.

(** ** defaultRecursive on the store

    The same method with objects as the engine has them: cells of a store
    addressed by references, so that [objJoint[key] = ...] is a write into
    the cell of the object the caller passed, and an entry copied from the
    defaults is the same reference as in the defaults.  Recursion follows
    references and is bounded by a fuel; running out of it is [None]. *)

Module Store.

Definition loc : Type := nat.

Inductive Val : Type :=
| VUndefined
| VNull
| VBool (b : bool)
| VNum (n : Z)
| VStr (s : string)
| VRef (l : loc).

Record Cell : Type := mkCell {
  cell_kind : ObjKind;
  cell_props : list (string * Val);
}.

Definition typeof_object (v : Val) : bool :=
  match v with
  | VNull | VRef _ => true
  | _ => false
  end.

Definition nullish (a b : Val) : Val :=
  match a with
  | VUndefined | VNull => b
  | _ => a
  end.

Definition own_entries (σ : gmap loc Cell) (v : Val) : list (string * Val) :=
  match v with
  | VRef l =>
      match σ !! l with
      | Some cell => cell_props cell
      | None => []
      end
  | VStr s => indexed (VStr <$> Str.chars s)
  | _ => []
  end.

Definition get_prop (σ : gmap loc Cell) (v : Val) (key : string) : Res Val :=
  match v with
  | VUndefined | VNull => Throw TypeError
  | _ => Ok (default VUndefined (props_get key (own_entries σ v)))
  end.

(** A reference without cell does not occur; writing through one is made
    an error. *)
Definition set_prop (σ : gmap loc Cell) (v : Val) (key : string) (x : Val)
  : Res (gmap loc Cell) :=
  match v with
  | VRef l =>
      match σ !! l with
      | Some cell =>
          Ok (<[l := mkCell (cell_kind cell)
                       (props_set key x (cell_props cell))]> σ)
      | None => Throw TypeError
      end
  | _ => Throw TypeError
  end.

(** Computations on the store that may throw or run out of fuel. *)
Definition Run (A : Type) : Type :=
  gmap loc Cell -> option (Res A * gmap loc Cell).

Definition run_ret {A : Type} (a : A) : Run A := fun σ => Some (Ok a, σ).

Definition run_bind {A B : Type} (m : Run A) (k : A -> Run B) : Run B :=
  fun σ =>
    match m σ with
    | Some (Ok a, σ') => k a σ'
    | Some (Throw e, σ') => Some (Throw e, σ')
    | None => None
    end.

Definition out_of_fuel {A : Type} : Run A := fun _ => None.

Definition read (v : Val) (key : string) : Run Val :=
  fun σ => Some (get_prop σ v key, σ).

Definition write (v : Val) (key : string) (x : Val) : Run unit :=
  fun σ =>
    match set_prop σ v key x with
    | Ok σ' => Some (Ok tt, σ')
    | Throw e => Some (Throw e, σ)
    end.

(** The keys that [for (const key in v)] visits. *)
Definition for_in_keys (v : Val) : Run (list string) :=
  fun σ => Some (Ok (map fst (own_entries σ v)), σ).

Fixpoint for_each {A : Type} (body : A -> Run unit) (xs : list A) : Run unit :=
  match xs with
  | [] => run_ret tt
  | x :: rest => run_bind (body x) (fun _ => for_each body rest)
  end.

Declare Scope run_scope.
Delimit Scope run_scope with run.
Notation "'let*' x := c 'in' k" := (run_bind c (fun x => k))
  (at level 10, x name, c at level 100, k at level 200) : run_scope.

(** The body of the loop, for one key. *)
Definition defaultStep (recurse : Val -> Val -> Run Val)
    (objJoint defaultObj : Val) (key : string) : Run unit :=
  (let* o := read objJoint key in
   let* dv := read defaultObj key in
   if typeof_object o && typeof_object dv then
     let* merged := recurse o dv in
     write objJoint key merged
   else
     write objJoint key (nullish o dv))%run.

Fixpoint defaultRecursive (fuel : nat) (obj defaultObj : Val) : Run Val :=
  match fuel with
  | O => out_of_fuel
  | S fuel' =>
      (let objJoint := obj in
       let* keys := for_in_keys defaultObj in
       let* _ :=
         for_each (defaultStep (defaultRecursive fuel') objJoint defaultObj)
           keys in
       run_ret objJoint)%run
  end.

(** *** Values in the store

    [repr σ G v t]: in the store [σ] the value [v] reads as the tree [t],
    through cells of [G] only; cells may be shared. *)
Fixpoint repr (σ : gmap loc Cell) (G : gset loc) (v : Val) (t : JValue)
  {struct t} : Prop :=
  match t with
  | JUndefined => v = VUndefined
  | JNull => v = VNull
  | JBool b => v = VBool b
  | JNum n => v = VNum n
  | JStr s => v = VStr s
  | JObj kind tprops =>
      exists l props,
        v = VRef l /\ l ∈ G /\ σ !! l = Some (mkCell kind props)
        /\ (fix all (props : list (string * Val))
              (tprops : list (string * JValue)) {struct tprops} : Prop :=
              match props, tprops with
              | [], [] => True
              | (k, x) :: props', (k', t') :: tprops' =>
                  k = k' /\ repr σ G x t' /\ all props' tprops'
              | _, _ => False
              end) props tprops
  end.

(** [owns σ F v t]: moreover the cells are inside [F] and form a tree: the
    object has pairwise different keys, the entry under key [k] lives in its
    own region [region k], and the regions are disjoint from each other and
    from the cell of the object. *)
Fixpoint owns (σ : gmap loc Cell) (F : gset loc) (v : Val) (t : JValue)
  {struct t} : Prop :=
  match t with
  | JUndefined => v = VUndefined
  | JNull => v = VNull
  | JBool b => v = VBool b
  | JNum n => v = VNum n
  | JStr s => v = VStr s
  | JObj kind tprops =>
      exists l props (region : string -> gset loc),
        v = VRef l /\ l ∈ F /\ σ !! l = Some (mkCell kind props)
        /\ NoDup (map fst props)
        /\ (forall k, region k ⊆ F /\ l ∉ region k)
        /\ (forall k k', k <> k' -> region k ## region k')
        /\ (fix all (props : list (string * Val))
              (tprops : list (string * JValue)) {struct tprops} : Prop :=
              match props, tprops with
              | [], [] => True
              | (k, x) :: props', (k', t') :: tprops' =>
                  k = k' /\ owns σ (region k) x t' /\ all props' tprops'
              | _, _ => False
              end) props tprops
  end.

(** The entries of two property lists correspond: same keys in the same
    order, values related by [R] (which may depend on the key). *)
Definition props_rel (R : string -> Val -> JValue -> Prop)
    (props : list (string * Val)) (tprops : list (string * JValue)) : Prop :=
  Forall2 (fun kx kt => fst kx = fst kt /\ R (fst kx) (snd kx) (snd kt))
    props tprops.

(** A fresh layout of a tree: cells are numbered from [next] upward, an
    object before its entries.  The result is the value, the next free
    number and the store. *)
Fixpoint alloc (t : JValue) (next : nat) (σ : gmap loc Cell) {struct t}
  : Val * (nat * gmap loc Cell) :=
  match t with
  | JUndefined => (VUndefined, (next, σ))
  | JNull => (VNull, (next, σ))
  | JBool b => (VBool b, (next, σ))
  | JNum n => (VNum n, (next, σ))
  | JStr s => (VStr s, (next, σ))
  | JObj kind tprops =>
      let '(props, (next', σ')) :=
        (fix all (tprops : list (string * JValue)) (next : nat)
           (σ : gmap loc Cell) {struct tprops}
           : list (string * Val) * (nat * gmap loc Cell) :=
           match tprops with
           | [] => ([], (next, σ))
           | (k, t') :: rest =>
               let '(x, (n1, σ1)) := alloc t' next σ in
               let '(props, (n2, σ2)) := all rest n1 σ1 in
               ((k, x) :: props, (n2, σ2))
           end) tprops (S next) σ in
      (VRef next, (next', <[next := mkCell kind props]> σ'))
  end.

Fixpoint alloc_props (tprops : list (string * JValue)) (next : nat)
    (σ : gmap loc Cell) : list (string * Val) * (nat * gmap loc Cell) :=
  match tprops with
  | [] => ([], (next, σ))
  | (k, t') :: rest =>
      let '(x, (n1, σ1)) := alloc t' next σ in
      let '(props, (n2, σ2)) := alloc_props rest n1 σ1 in
      ((k, x) :: props, (n2, σ2))
  end.

(** The cells numbered from [a] up to, not including, [b]. *)
Definition cells (a b : nat) : gset loc := set_seq a (b - a).

End Store.

(** The depth of nesting of a value: the fuel that suffices. *)
Fixpoint height (t : JValue) : nat :=
  match t with
  | JObj _ props => S (foldr (fun kv n => Nat.max (height (snd kv)) n) O props)
  | _ => O
  end.

(** The run on the store refines the function on values: started on a value
    that owns its cells [F] and on defaults living in cells [G] apart from
    them, it ends; it touches no cell outside [F]; it throws when the
    function on values throws, and otherwise returns the reference it was
    given, which then reads as the merged value. *)
Definition refines (fuel : nat) (defaultTree : JValue) : Prop :=
  forall (σ : gmap Store.loc Store.Cell) (F G : gset Store.loc)
         (obj defaultObj : Store.Val) (t : JValue),
    Store.owns σ F obj t ->
    Store.repr σ G defaultObj defaultTree ->
    F ## G ->
    exists out σ',
      Store.defaultRecursive fuel obj defaultObj σ = Some (out, σ')
      /\ (forall l, l ∉ F -> σ' !! l = σ !! l)
      /\ match defaultRecursive t defaultTree with
         | Ok merged => out = Ok obj /\ Store.repr σ' (F ∪ G) obj merged
         | Throw _ => out = Throw TypeError
         end.

(** The entry under [k] during the loop: still owned, in its region, while
    its key is to be visited; represented, in its region and the cells of the
    defaults, afterwards. *)
Definition entry_state (G : gset Store.loc) (region : string -> gset Store.loc)
    (σ : gmap Store.loc Store.Cell) (rest : list (string * JValue))
    (k : string) (x : Store.Val) (t' : JValue) : Prop :=
  if bool_decide (k ∈ map fst rest) then Store.owns σ (region k) x t'
  else Store.repr σ (region k ∪ G) x t'.


(** ** Example data *)

Module Scenario.

(** A stand-in for the digest in the examples: the length of the data. *)
Definition length_digest (alg : string) (buffer : string) : option string :=
  Some (pretty (String.length buffer)).

Definition no_parser (text : string) : option JValue := None.

Definition flags_base : string := "https://rfo.sh/flags/".

(** The origin serves the file under its URL and nothing else. *)
Definition origin_server (target : string) : option Response :=
  if String.eqb target "https://rfo.sh/flags/flags.json"
  then Some (mkResponse 200 "OK" "{}")
  else None.

(** A server that answers every request with the same bytes. *)
Definition constant_server (bytes : string) (target : string)
  : option Response :=
  Some (mkResponse 200 "OK" bytes).

Definition origin_env : Env :=
  mkEnv origin_server length_digest no_parser no_parser no_parser
    (fun _ => "").

Definition tampered_env : Env :=
  mkEnv (constant_server "tampered") length_digest no_parser no_parser
    no_parser (fun _ => "").

(** [flags.json], declared with the digest of the bytes the origin serves. *)
Definition flags_file : File :=
  mkFile "flags.json" (mkFileHash "SHA512" (DigestString "2")).

Definition md5_file : File :=
  mkFile "flags.json" (mkFileHash "md5" (DigestString "2")).

Definition empty_world : World := mkWorld ∅ [].

End Scenario.

(** Two remote sources: the default one is fine, the second one answers
    200 with a text that is no JSON5. *)
Module Loader.

Definition good_source : FlagListUrl :=
  mkFlagListUrl "Default Flags" "https://good.example/flaglists.json5".

Definition bad_source : FlagListUrl :=
  mkFlagListUrl "Extra" "https://bad.example/flaglists.json5".

Definition gone_source : FlagListUrl :=
  mkFlagListUrl "Gone" "https://gone.example/flaglists.json5".

Definition server (target : string) : option Response :=
  if String.eqb target "https://good.example/flaglists.json5"
  then Some (mkResponse 200 "OK" "{}")
  else if String.eqb target "https://bad.example/flaglists.json5"
  then Some (mkResponse 200 "OK" "{,")
  else if String.eqb target "https://gone.example/flaglists.json5"
  then Some (mkResponse 204 "No Content" "")
  else None.

Definition parse (text : string) : option JValue :=
  if String.eqb text "{}" then Some (JObj PlainObject []) else None.

Definition env : Env :=
  mkEnv server Scenario.length_digest parse parse parse (fun _ => "").

Definition config_bad : Config := mkConfig good_source [bad_source].

Definition config_soft : Config := mkConfig good_source [gone_source].

End Loader.

(** The item of the end-to-end scenario of the specification, and an item
    with one multi-choice feature left at its default. *)
Module Flags.

Definition graphics_options : gmap string (list string) :=
  <["DX11" := ["_cache/fileA"]]> (<["Vulkan" := ["_cache/fileB"]]> ∅).

Definition graphics (value : string) : ProcessedFeature :=
  SingleChoice "Graphics" graphics_options "DX11" value.

Definition fastFlags (value : string) : ProcessedFlagListItem :=
  mkItem "FastFlags" "https://rfo.sh/flags/" true true ["_cache/base"]
    [graphics value].

Definition extras_options : gmap string (list string) :=
  <["fps" := ["_cache/fps1"; "_cache/fps2"]]>
    (<["sound" := ["_cache/sound"]]> ∅).

Definition extras : ProcessedFeature :=
  MultipleChoice "Extras" extras_options ["sound"; "fps"] ["sound"; "fps"] 0 2.

Definition tweaks : ProcessedFlagListItem :=
  mkItem "Tweaks" "https://rfo.sh/flags/" true true
    ["_cache/base1"; "_cache/base2"] [extras].

(** The same item after the user has selected ["toString"], which is no
    option. *)
Definition untidy_tweaks : ProcessedFlagListItem :=
  mkItem "Tweaks" "https://rfo.sh/flags/" true true
    ["_cache/base1"; "_cache/base2"]
    [MultipleChoice "Extras" extras_options ["sound"; "fps"]
       ["sound"; "toString"] 0 2].

Definition rfo_with (item : ProcessedFlagListItem) : RFO :=
  mkRFO [[(item_name item, item)]] ["C:/Roblox/versions/version-1"].

End Flags.

(** The two configuration fragments of the specification. *)
Module Merge.

Definition doc1 : JValue := JObj PlainObject [("A", JNum 1); ("B", JNum 2)].
Definition doc2 : JValue := JObj PlainObject [("B", JNum 3); ("C", JNum 4)].

Definition parse (text : string) : option JValue :=
  if String.eqb text "{A:1,B:2}" then Some doc1
  else if String.eqb text "{B:3,C:4}" then Some doc2
  else None.

Definition env : Env :=
  mkEnv (fun _ => None) Scenario.length_digest parse parse parse
    (fun _ => "").

Definition world : World :=
  mkWorld (<["_cache/f1" := FsFile "{A:1,B:2}"]>
             (<["_cache/f2" := FsFile "{B:3,C:4}"]> ∅)) [].

Definition nothing_processed : RFO := mkRFO [] ["C:/Roblox/versions/version-1"].

End Merge.

(** Values for the defaulting utility: the example of its documentation,
    the default configuration of [loadConfig], and arrays. *)
Module Defaults.

Definition doc_obj : JValue :=
  JObj PlainObject
    [("a", JNum 1); ("b", JObj PlainObject [("c", JNum 2)])].

Definition doc_defaultObj : JValue :=
  JObj PlainObject
    [("a", JNum 2);
     ("b", JObj PlainObject [("c", JNum 3); ("d", JNum 4)])].

Definition doc_merged : JValue :=
  JObj PlainObject
    [("a", JNum 1);
     ("b", JObj PlainObject [("c", JNum 2); ("d", JNum 4)])].

Definition defaultConfig_props : list (string * JValue) :=
  [("dev", JBool false);
   ("hashChecks",
    JObj PlainObject [("update", JBool false); ("flags", JBool false)]);
   ("urls",
    JObj PlainObject
      [("flagLists", JArr []);
       ("defaultFlagList",
        JObj PlainObject
          [("name", JStr "Default Flags");
           ("url",
            JStr "https://raw.githubusercontent.com/rbxflags/Flags/main/flaglists.json5")]);
       ("updater", JStr "https://rfo.sh/updater/updater.json5")])].

Definition defaultConfig : JValue := JObj PlainObject defaultConfig_props.




Definition null_entry : JValue := JObj PlainObject [("a", JNull)].

Definition object_entry : JValue :=
  JObj PlainObject [("a", JObj PlainObject [("b", JNum 1)])].

End Defaults.

(** Stores for the defaulting utility. *)
Module Cells.

Definition object (props : list (string * Store.Val)) : Store.Cell :=
  Store.mkCell PlainObject props.

(** [{}] at 0; the defaults [{a: 1}] at 1. *)
Definition empty_value : gmap Store.loc Store.Cell :=
  <[0%nat := object []]> (<[1%nat := object [("a", Store.VNum 1)]]> ∅).

(** [{a: null}] at 0; the defaults [{a: {b: 1}}] at 1 and 2. *)
Definition null_value : gmap Store.loc Store.Cell :=
  <[0%nat := object [("a", Store.VNull)]]>
    (<[1%nat := object [("a", Store.VRef 2%nat)]]>
       (<[2%nat := object [("b", Store.VNum 1)]]> ∅)).

(** The value [{a: 1, b: {c: 2}}] at 0 and 1; the defaults
    [{a: 2, b: {c: 3, d: 4}}] at 2 and 3. *)
Definition doc_value : gmap Store.loc Store.Cell :=
  <[0%nat := object [("a", Store.VNum 1); ("b", Store.VRef 1%nat)]]>
    (<[1%nat := object [("c", Store.VNum 2)]]> ∅).

Definition doc_store : gmap Store.loc Store.Cell :=
  <[2%nat := object [("a", Store.VNum 2); ("b", Store.VRef 3%nat)]]>
    (<[3%nat := object [("c", Store.VNum 3); ("d", Store.VNum 4)]]> doc_value).

Definition doc_value_cells : gset Store.loc := {[0%nat; 1%nat]}.
Definition doc_default_cells : gset Store.loc := {[2%nat; 3%nat]}.

(** The region of each entry of the value at 0. *)
Definition doc_region (key : string) : gset Store.loc :=
  if String.eqb key "b" then {[1%nat]} else ∅.

End Cells.
(** ** Further vocabulary *)

Definition is_HttpGet (ev : Event) : bool :=
  match ev with HttpGet _ => true | _ => false end.

Definition is_FileWrite (ev : Event) : bool :=
  match ev with FileWrite _ _ => true | _ => false end.

(** The URL that [downloadFile] hands to [axios.get]. *)
Definition request_target (file : File) (baseUrl : string) : string :=
  if String.eqb (algorithm (h file)) "none" then baseUrl +:+ f file
  else cache_route file.

(** The algorithm is one of the two that [downloadFile] refuses. *)
Definition legacy_algorithm (alg : string) : Prop :=
  Str.toUpperCase alg = "MD5" \/ Str.toUpperCase alg = "SHA1".

(** An assignment [o[key] = v] of a key that [o] lacks creates a property
    at the end of the enumeration: the key is not written as an array index
    is, and is not [__proto__], whose assignment sets the prototype. *)
Definition ordinary_key (key : string) : bool :=
  negb (index_key key) && negb (String.eqb key "__proto__").

(** The items of a manifest that are switched on. *)
Definition enabled_items (flagLists : ProcessedFlagList) : ProcessedFlagList :=
  List.filter (fun kv => enabled (snd kv)) flagLists.

(** All the items of all the manifests, in the order of the double loop of
    [getFlagFiles]. *)
Definition all_items (manifests : list ProcessedFlagList)
  : list ProcessedFlagListItem :=
  concat (map Object_values manifests).

(** [flag] is selected in a multi-choice feature that has no such option. *)
Definition unknown_selection (feature : ProcessedFeature) (flag : string)
  : Prop :=
  match feature with
  | MultipleChoice _ options _ value _ _ =>
      flag ∈ value /\ options !! flag = None
  | SingleChoice _ _ _ _ => False
  end.

(** The bodies of the loops of [dumpFlags] and [mergeFlagFiles]. *)
Definition dump_step (E : Env) (merged : JValue) (flagFile : string)
  : IO JValue :=
  (let! present := existsSync flagFile in
   if negb present then io_throw (FlagFileMissing flagFile)
   else
     let! text := readFileSync flagFile in
     let! parsed := json5_parse_io E text in
     io_lift (set_prop merged flagFile parsed))%io.

Definition merge_step (E : Env) (merged : JValue) (flagFile : string)
  : IO JValue :=
  (let! present := existsSync flagFile in
   if negb present then io_throw (FlagFileMissing flagFile)
   else
     let! text := readFileSync flagFile in
     let! parsed := json5_parse_io E text in
     io_ret (object_spread [merged; parsed]))%io.

(** The body of the loop of [applyFlags]. *)
Definition apply_step (E : Env) (merged : JValue) (_ : unit)
    (robloxPath : string) : IO unit :=
  (let! present := existsSync robloxPath in
   if negb present then io_throw (RobloxVersionMissing robloxPath)
   else
     let! settings := existsSync (robloxPath +:+ "/ClientSettings") in
     let! _ :=
       if negb settings
       then mkdirSync (robloxPath +:+ "/ClientSettings")
       else io_ret tt in
     writeFileSync
       (robloxPath +:+ "/ClientSettings/ClientAppSettings.json")
       (JSON_stringify E merged))%io.

(** Where [applyFlags] puts the settings of a Roblox directory. *)
Definition settings_dir (robloxPath : string) : string :=
  robloxPath +:+ "/ClientSettings".

Definition settings_file (robloxPath : string) : string :=
  robloxPath +:+ "/ClientSettings/ClientAppSettings.json".

(** What [applyFlags] does to one Roblox directory that exists: the
    settings directory is made unless something is there, and the settings
    file is written. *)
Definition install_one (content : string) (w : World) (robloxPath : string)
  : World :=
  let w1 :=
    match fs w !! settings_dir robloxPath with
    | Some _ => w
    | None =>
        mkWorld (<[settings_dir robloxPath := FsDir []]> (fs w))
          (trace w ++ [MakeDir (settings_dir robloxPath)])
    end in
  mkWorld (<[settings_file robloxPath := FsFile content]> (fs w1))
    (trace w1 ++ [FileWrite (settings_file robloxPath) content]).

Definition install (content : string) (robloxPaths : list string) (w : World)
  : World :=
  fold_left (install_one content) robloxPaths w.

(** The local file [name] of the directory [dir] exists and the parser
    chosen by its name reads it as [doc]. *)
Definition local_manifest (E : Env) (w : World) (dir name : string)
    (doc : JValue) : Prop :=
  exists text,
    fs w !! (dir +:+ "/" +:+ name) = Some (FsFile text)
    /\ parser_for E name text = Some doc.

(** An operation that sends no request. *)
Definition no_request {A : Type} (m : IO A) : Prop :=
  forall w : World,
    exists evs,
      trace (snd (m w)) = (trace w ++ evs)%list
      /\ List.filter is_HttpGet evs = [].

(** The keys of the defaults that the value lacks, in the order of the
    defaults. *)
Definition missing_keys (props defaults : list (string * JValue))
  : list string :=
  List.filter (fun key => negb (bool_decide (key ∈ map fst props)))
    (map fst defaults).

(** *** loadConfig *)

Section LoadConfig.

Variable E : Env.

Definition loadConfig (configFile : string) : IO JValue :=
  let defaultConfig :=
    JObj PlainObject
      [("dev", JBool false);
       ("hashChecks",
        JObj PlainObject [("update", JBool false); ("flags", JBool false)]);
       ("urls",
        JObj PlainObject
          [("flagLists", JArr []);
           ("defaultFlagList",
            JObj PlainObject
              [("name", JStr "Default Flags");
               ("url",
                JStr "https://raw.githubusercontent.com/rbxflags/Flags/main/flaglists.json5")]);
           ("updater", JStr "https://rfo.sh/updater/updater.json5")])] in
  (let! present := existsSync configFile in
   let! configData :=
     if (present : bool) then
       let! text := readFileSync configFile in json5_parse_io E text
     else io_ret (JObj PlainObject []) in
   io_lift (defaultRecursive configData defaultConfig))%io.

End LoadConfig.

(** ** More of [String.prototype] *)

Module Text.

(** [s.startsWith(prefix)]. *)
Definition startsWith (s prefix : string) : bool := String.prefix prefix s.

(** [s.includes(part)]. *)
Definition includes (s part : string) : bool :=
  match String.index 0 part s with Some _ => true | None => false end.

(** [s.replace(pattern, replacement)] with a string pattern: the first
    occurrence only. *)
Definition replace (s pattern replacement : string) : string :=
  match String.index 0 pattern s with
  | Some i =>
      String.substring 0 i s +:+ replacement
      +:+ String.substring (i + String.length pattern)
            (String.length s - (i + String.length pattern)) s
  | None => s
  end.

End Text.

(** The cache is ready for the file [name]: the directory [_cache] exists
    and [name] names a file directly in it, so that [writeFileSync] of
    ["_cache/" + name] finds the directory it writes into. *)
Definition cache_ready (w : World) (name : string) : Prop :=
  (exists entries, fs w !! "_cache" = Some (FsDir entries))
  /\ Text.includes name "/" = false.

(** ** Failures of the methods of [RFO]

    Besides the errors above, the methods below can fail with the two
    errors that [processFlagList] and [searchVersions] throw. *)

Inductive Failure : Type :=
| Thrown (e : Error)
| FeatureNameRequired
    (* 'Feature name is required' *)
| UnsupportedPlatform (platform : string).
    (* `Unsupported platform: ${platform}` *)

Inductive Outcome (A : Type) : Type :=
| Done (a : A)
| Failed (x : Failure).

Arguments Done {A} a.
Arguments Failed {A} x.

(** ** RobloxVersionSearcher

    The functions of Node's [path] module depend on the platform and are
    parameters, as is the environment of the process ([None]: the variable
    is not set).  Directory listings are those of the file system of the
    world; the searcher writes nothing and logs nothing. *)

Section RobloxVersionSearcher.

Variable process_env : string -> option string.
Variable path_join : string -> string -> string.
Variable path_dirname : string -> string.
Variable path_basename : string -> string.

(** [`${v}`] for a variable of the environment. *)
Definition env_text (v : option string) : string := default "undefined" v.

(** [[...].filter(v => v)]: the strings that are set and not empty. *)
Definition truthy_strings (vs : list (option string)) : list string :=
  omap (fun v =>
          match v with
          | Some s => if Str.truthy s then Some s else None
          | None => None
          end) vs.

Definition platformDirs : list (string * list string) :=
  [("windows",
    truthy_strings
      [process_env "ROBLOXVERSION";
       process_env "ROBLOX";
       Some "C:/Program Files/Roblox/versions/version-%s";
       Some "C:/Program Files (x86)/Roblox/versions/version-%s";
       Some (env_text (process_env "localappdata")
             +:+ "/Roblox/versions/version-%s");
       Some (env_text (process_env "appdata")
             +:+ "/Roblox/versions/version-%s")]);
   ("macos",
    truthy_strings
      [process_env "ROBLOXVERSION";
       process_env "ROBLOX";
       Some "/Applications/Roblox.app/Contents/MacOS";
       Some "/Applications/Roblox.app/Contents/"]);
   ("linux",
    truthy_strings
      [process_env "ROBLOXVERSION";
       Some (env_text (process_env "ROBLOX") +:+ "/versions/version-%s")])].

(** [await fs.readdir(directory)]; [None] when it rejects. *)
Definition readdir (w : World) (directory : string) : option (list string) :=
  match fs w !! directory with
  | Some (FsDir entries) => Some entries
  | _ => None
  end.

(** [None] is [undefined]; a rejection of [readdir] is swallowed. *)
Definition searchVersionDirectory (w : World) (directory : string)
  : option string :=
  match readdir w directory with
  | Some files =>
      match List.find (fun file => Text.startsWith file "version-") files with
      | Some file => Some (path_join directory file)
      | None => None
      end
  | None => None
  end.

Definition resolvePath (w : World) (directory : string) : option string :=
  if negb (Text.includes directory "%s") then Some directory
  else
    let baseDir := path_dirname directory in
    let pattern := path_basename (Text.replace directory "%s" "") in
    match readdir w baseDir with
    | Some files =>
        match List.find (fun file => Text.includes file pattern) files with
        | Some file => Some (path_join baseDir file)
        | None => None
        end
    | None => None
    end.

(** The body of the loop of [searchVersions]. *)
Definition searchStep (w : World) (versionDirectories : list string)
    (searchPath : string) : list string :=
  match resolvePath w searchPath with
  | Some resolvedPath =>
      if Str.truthy resolvedPath then
        match searchVersionDirectory w resolvedPath with
        | Some versionDirectory =>
            if Str.truthy versionDirectory
            then (versionDirectories ++ [versionDirectory])%list
            else (versionDirectories ++ [resolvedPath])%list
        | None => (versionDirectories ++ [resolvedPath])%list
        end
      else versionDirectories
  | None => versionDirectories
  end.

(** What one search path adds to the directories found. *)
Definition found (w : World) (searchPath : string) : list string :=
  searchStep w [] searchPath.

(** [this.platformDirs[key]] finds one of the three lists, or, for the two
    lower-case names that every object inherits, a value that is truthy and
    cannot be iterated, or [undefined]. *)
Definition searchVersions (platform : string) (w : World)
  : Outcome (list string) :=
  let key :=
    if String.eqb (Str.toLowerCase platform) "darwin" then "macos"
    else Str.toLowerCase platform in
  match props_get key platformDirs with
  | Some searchPaths => Done (fold_left (searchStep w) searchPaths [])
  | None =>
      if String.eqb key "constructor" || String.eqb key "__proto__"
      then Failed (Thrown TypeError)
      else Failed (UnsupportedPlatform platform)
  end.

End RobloxVersionSearcher.

(** *** RFO.findRoblox

    A method of [RFO] that assigns to the instance yields the instance as it
    leaves it, also when it throws.  [platform] is [process.platform]. *)

Section FindRoblox.

Variable process_env : string -> option string.
Variable path_join : string -> string -> string.
Variable path_dirname : string -> string.
Variable path_basename : string -> string.

Definition findRoblox (platform : string) (this : RFO) (w : World)
  : Outcome unit * RFO * World :=
  match searchVersions process_env path_join path_dirname path_basename
          platform w with
  | Failed x => (Failed x, this, w)
  | Done versions =>
      let this := mkRFO (processedFlagList this) versions in
      if (length (robloxPaths this) =? 0)%nat then
        (Done tt, this,
         mkWorld (fs w) (trace w ++ [ConsoleWarn "No Roblox Versions found"]))
      else (Done tt, this, w)
  end.

End FindRoblox.

(** ** Manifests as their type reads them

    [processFlagList] reads a parsed manifest through the type [FlagList] of
    [MiscTypes]; the cast checks nothing, and what the code does with a value
    that does not fit the type is outside this part of the model. *)

Module Manifest.

Inductive Feature : Type :=
| Multiple (name question : string) (options : list (string * list File))
    (default : list string) (min max : Z)
| Single (name : string) (options : list (string * list File))
    (default : string).

Definition feature_name (feature : Feature) : string :=
  match feature with
  | Multiple name _ _ _ _ _ => name
  | Single name _ _ => name
  end.

Definition feature_options (feature : Feature)
  : list (string * list File) :=
  match feature with
  | Multiple _ _ options _ _ _ => options
  | Single _ options _ => options
  end.

Record FlagItem : Type := mkFlagItem {
  baseurl : string;
  default : bool;
  name : string;
  base : list File;
  features : list Feature;
}.

End Manifest.

(** [FlagList], in enumeration order. *)
Definition TypedFlagList : Type := list (string * Manifest.FlagItem).

(** *** downloadFile in two parts

    An [async] function runs up to its first [await] when it is called:
    the checks of [downloadFile], its look into the cache and the sending of
    the request happen at the call, and a call that throws or finds the file
    in the cache is settled there and then.  What follows the [await], from
    the status check to the write, happens when the answer is there. *)

Inductive Started : Type :=
| Settled (r : Res string)
| InFlight (file : File) (shown target : string).

Definition downloadFile_start (file : File) (baseUrl : string) (w : World)
  : Started * World :=
  let shown := baseUrl +:+ f file in
  if String.eqb (Str.toUpperCase (algorithm (h file))) "MD5" then
    (Settled (Throw (InsecureAlgorithm "MD5")), w)
  else if String.eqb (Str.toUpperCase (algorithm (h file))) "SHA1" then
    (Settled (Throw (InsecureAlgorithm "SHA1")), w)
  else if negb (String.eqb (algorithm (h file)) "none") then
    let fileRoute := "_cache/" +:+ digest_text (digest (h file)) in
    if bool_decide (is_Some (fs w !! fileRoute)) then
      (Settled (Ok fileRoute), w)
    else
      (InFlight file shown fileRoute,
       mkWorld (fs w) (trace w ++ [HttpGet fileRoute]))
  else
    (InFlight file shown shown, mkWorld (fs w) (trace w ++ [HttpGet shown])).

Definition downloadFile_finish (E : Env) (started : Started) : IO string :=
  match started with
  | Settled r => io_lift r
  | InFlight file shown target =>
      match axios_get E target with
      | None => io_throw (AxiosRejected target)
      | Some fileResponse =>
          if negb (status fileResponse =? 200) then
            io_throw (DownloadStatus shown target (status fileResponse))
          else
            let fileBuffer := data fileResponse in
            if negb (String.eqb (algorithm (h file)) "none") then
              (let! fileHash :=
                 createHash_io E (algorithm (h file)) fileBuffer in
               if digest_differs fileHash (digest (h file)) then
                 io_throw (InvalidHash shown target)
               else
                 let! _ := writeFileSync target fileBuffer in
                 io_ret target)%io
            else
              (let! fileHash := createHash_io E "SHA512" fileBuffer in
               let! _ := writeFileSync ("_cache/" +:+ fileHash) fileBuffer in
               io_ret ("_cache/" +:+ fileHash))%io
      end
  end.

(** *** processFlagList

    [Promise.all(xs.map(callback))] first calls the callback on every
    element in order, and every call runs up to its first [await]; the rest
    of each runs later.  The answers are taken to arrive in the order of the
    requests.  The joint promise rejects with the rejection that comes
    first in time: one of a call that threw before its first [await], if
    there is one, before one that depends on an answer; and it resolves when
    all have. *)

Section ProcessFlagList.

Variable E : Env.

(** [files.map((file) => FlagListPreprocessor.downloadFile(file, baseurl))]:
    the calls. *)
Fixpoint call_downloads (baseUrl : string) (files : list File) (w : World)
  : list Started * World :=
  match files with
  | [] => ([], w)
  | file :: rest =>
      let '(s, w1) := downloadFile_start file baseUrl w in
      let '(ss, w2) := call_downloads baseUrl rest w1 in
      (s :: ss, w2)
  end.

(** The rest of each download, when the answers are there. *)
Fixpoint settle_downloads (started : list Started) (w : World)
  : list (Res string) * World :=
  match started with
  | [] => ([], w)
  | s :: rest =>
      let '(r, w1) := downloadFile_finish E s w in
      let '(rs, w2) := settle_downloads rest w1 in
      (r :: rs, w2)
  end.

(** The first of the downloads that threw at the call. *)
Fixpoint rejected_at_call (started : list Started) : option Error :=
  match started with
  | [] => None
  | Settled (Throw e) :: _ => Some e
  | _ :: rest => rejected_at_call rest
  end.

(** What [await Promise.all(...)] of the downloads yields. *)
Definition downloads_outcome (started : list Started)
    (results : list (Res string)) : Res (list string) :=
  match rejected_at_call started with
  | Some e => Throw e
  | None => res_all results
  end.

(** [Object.entries(feature.options).map(async ([optionName, files]) =>
    ...)]: the calls, which start the downloads of every option. *)
Fixpoint call_options (baseUrl : string)
    (options : list (string * list File)) (w : World)
  : list (string * list Started) * World :=
  match options with
  | [] => ([], w)
  | (optionName, files) :: rest =>
      let '(ss, w1) := call_downloads baseUrl files w in
      let '(os, w2) := call_options baseUrl rest w1 in
      ((optionName, ss) :: os, w2)
  end.

Fixpoint settle_options (started : list (string * list Started)) (w : World)
  : list (string * list (Res string)) * World :=
  match started with
  | [] => ([], w)
  | (optionName, ss) :: rest =>
      let '(rs, w1) := settle_downloads ss w in
      let '(os, w2) := settle_options rest w1 in
      ((optionName, rs) :: os, w2)
  end.

(** [features.map(async (feature) => ...)]: the calls.  A feature without
    a name throws at once and starts nothing ([None]); the others start the
    downloads of all their options. *)
Fixpoint call_features (baseUrl : string) (features : list Manifest.Feature)
    (w : World) : list (option (list (string * list Started))) * World :=
  match features with
  | [] => ([], w)
  | feature :: rest =>
      if negb (Str.truthy (Manifest.feature_name feature)) then
        let '(fs, w1) := call_features baseUrl rest w in
        (None :: fs, w1)
      else
        let '(os, w1) :=
          call_options baseUrl (Manifest.feature_options feature) w in
        let '(fs, w2) := call_features baseUrl rest w1 in
        (Some os :: fs, w2)
  end.

Fixpoint settle_features
    (started : list (option (list (string * list Started)))) (w : World)
  : list (list (string * list (Res string))) * World :=
  match started with
  | [] => ([], w)
  | None :: rest =>
      let '(fs, w1) := settle_features rest w in ([] :: fs, w1)
  | Some os :: rest =>
      let '(rs, w1) := settle_options os w in
      let '(fs, w2) := settle_features rest w1 in
      (rs :: fs, w2)
  end.

(** All the downloads of the features, in the order of their calls. *)
Definition feature_downloads
    (started : list (option (list (string * list Started))))
  : list Started :=
  concat (map (fun o => concat (map snd (default [] o))) started).

Definition feature_results
    (finished : list (list (string * list (Res string))))
  : list (Res string) :=
  concat (map (fun os => concat (map snd os)) finished).

(** The paths among the results. *)
Definition paths_of (results : list (Res string)) : list string :=
  omap (fun r => match r with Ok path => Some path | Throw _ => None end)
    results.

(** [Object.fromEntries(entries)]. *)
Definition Object_fromEntries (entries : list (string * list string))
  : gmap string (list string) :=
  fold_left (fun o '(key, v) => <[key := v]> o) entries ∅.

Definition processedFeature (feature : Manifest.Feature)
    (processedOptions : list (string * list (Res string)))
  : ProcessedFeature :=
  let options :=
    Object_fromEntries
      (map (fun '(optionName, results) => (optionName, paths_of results))
         processedOptions) in
  match feature with
  | Manifest.Multiple name _ _ default min max =>
      MultipleChoice name options default default min max
  | Manifest.Single name _ default =>
      SingleChoice name options default default
  end.

(** What [await Promise.all(features.map(...))] yields: a feature without a
    name has rejected before any download could. *)
Definition features_outcome (features : list Manifest.Feature)
    (started : list (option (list (string * list Started))))
    (finished : list (list (string * list (Res string))))
  : Outcome (list ProcessedFeature) :=
  if existsb (fun feature => negb (Str.truthy (Manifest.feature_name feature)))
       features
  then Failed FeatureNameRequired
  else
    match rejected_at_call (feature_downloads started) with
    | Some e => Failed (Thrown e)
    | None =>
        match res_all (feature_results finished) with
        | Throw e => Failed (Thrown e)
        | Ok _ => Done (zip_with processedFeature features finished)
        end
    end.

(** The body of the loop of [processFlagList]: [name] is the key of the
    entry. *)
Definition processFlagListItem (name : string)
    (flagListItem : Manifest.FlagItem) (w : World)
  : Outcome ProcessedFlagListItem * World :=
  let baseurl := Manifest.baseurl flagListItem in
  let '(started, w1) :=
    call_downloads baseurl (Manifest.base flagListItem) w in
  let '(results, w2) := settle_downloads started w1 in
  match downloads_outcome started results with
  | Throw e => (Failed (Thrown e), w2)
  | Ok baseFiles =>
      let '(fstarted, w3) :=
        call_features baseurl (Manifest.features flagListItem) w2 in
      let '(ffinished, w4) := settle_features fstarted w3 in
      match features_outcome (Manifest.features flagListItem)
              fstarted ffinished with
      | Failed x => (Failed x, w4)
      | Done processedFeatures =>
          (Done (mkItem name baseurl (Manifest.default flagListItem)
                   (Manifest.default flagListItem) baseFiles
                   processedFeatures), w4)
      end
  end.

Fixpoint processFlagList_from (processedFlagList : ProcessedFlagList)
    (entries : TypedFlagList) (w : World)
  : Outcome ProcessedFlagList * World :=
  match entries with
  | [] => (Done processedFlagList, w)
  | (name, flagListItem) :: rest =>
      match processFlagListItem name flagListItem w with
      | (Done processedFlagListItem, w1) =>
          processFlagList_from
            (props_set name processedFlagListItem processedFlagList) rest w1
      | (Failed x, w1) => (Failed x, w1)
      end
  end.

Definition processFlagList (flagList : TypedFlagList) (w : World)
  : Outcome ProcessedFlagList * World :=
  processFlagList_from [] flagList w.

(** [processFlagLists], on the flag lists that the instance holds. *)
Fixpoint processFlagLists_from (processedFlagLists : list ProcessedFlagList)
    (flagLists : list TypedFlagList) (w : World)
  : Outcome (list ProcessedFlagList) * World :=
  match flagLists with
  | [] => (Done processedFlagLists, w)
  | flagList :: rest =>
      match processFlagList flagList w with
      | (Done processedFlagList, w1) =>
          processFlagLists_from
            (processedFlagLists ++ [processedFlagList])%list rest w1
      | (Failed x, w1) => (Failed x, w1)
      end
  end.

Definition processFlagLists (flagLists : list TypedFlagList) (w : World)
  : Outcome (list ProcessedFlagList) * World :=
  processFlagLists_from [] flagLists w.

End ProcessFlagList.

(** ** process and preprocessFlags, on the instances

    The preprocessor keeps its configuration and its flag lists between the
    calls; a method yields the instance as it leaves it, also when it
    throws.  The configuration and the parsed manifests are read through
    their types: [as_Config] and [as_FlagList] are the views that the type
    annotation and the cast [as FlagList] assert. *)

Module Instance.

Record FlagListPreprocessor : Type := mkFlagListPreprocessor {
  config : JValue;
  flagLists : list TypedFlagList;
}.

Section Methods.

Variable E : Env.
Variable flagListDir : string.
Variable as_Config : JValue -> Config.
Variable as_FlagList : JValue -> TypedFlagList.

Definition fetchFlagLists (this : FlagListPreprocessor) (w : World)
  : Outcome unit * FlagListPreprocessor * World :=
  let urls := as_Config (config this) in
  match promise_all (map (fetchFlagList E) (remote_sources urls)) w with
  | (Throw e, w1) => (Failed (Thrown e), this, w1)
  | (Ok flagListsData, w1) =>
      let this :=
        mkFlagListPreprocessor (config this)
          (map as_FlagList (omap id flagListsData)) in
      match readLocalFlagLists E flagListDir w1 with
      | (Throw e, w2) => (Failed (Thrown e), this, w2)
      | (Ok local, w2) =>
          (Done tt,
           mkFlagListPreprocessor (config this)
             (flagLists this ++ map as_FlagList local)%list,
           w2)
      end
  end.

(** [flagLists] is [None] for [null]. *)
Definition process (flagLists : option (list TypedFlagList))
    (pushFlagListsFromDisk : bool) (this : FlagListPreprocessor) (w : World)
  : Outcome (list ProcessedFlagList) * FlagListPreprocessor * World :=
  let w :=
    match fs w !! "_cache" with
    | Some _ => w
    | None =>
        mkWorld (<["_cache" := FsDir []]> (fs w))
          (trace w ++ [MakeDir "_cache"])
    end in
  match loadConfig E "./config.json5" w with
  | (Throw e, w) => (Failed (Thrown e), this, w)
  | (Ok loaded, w) =>
      let this := mkFlagListPreprocessor loaded (Instance.flagLists this) in
      let this :=
        match flagLists with
        | Some given =>
            mkFlagListPreprocessor (config this)
              (Instance.flagLists this ++ given)%list
        | None => this
        end in
      let '(fetched, this, w) :=
        if pushFlagListsFromDisk then fetchFlagLists this w
        else (Done tt, this, w) in
      match fetched with
      | Failed x => (Failed x, this, w)
      | Done _ =>
          let '(processed, w) :=
            processFlagLists E (Instance.flagLists this) w in
          (processed, this, w)
      end
  end.

(** [RFO.preprocessFlags], on the instance of [RFO] and its preprocessor. *)
Definition preprocessFlags (clearFlagList : bool)
    (flagList : list TypedFlagList) (includeFlagsFromDisk : bool)
    (this : RFO) (preprocessor : FlagListPreprocessor) (w : World)
  : Outcome unit * RFO * FlagListPreprocessor * World :=
  let this :=
    if clearFlagList then mkRFO [] (robloxPaths this) else this in
  match process (Some flagList) includeFlagsFromDisk preprocessor w with
  | (Failed x, preprocessor, w) => (Failed x, this, preprocessor, w)
  | (Done processed, preprocessor, w) =>
      let this :=
        mkRFO (processedFlagList this ++ processed)%list (robloxPaths this) in
      if (length (processedFlagList this) =? 0)%nat
      then (Failed (Thrown NoFlagsFound), this, preprocessor, w)
      else (Done tt, this, preprocessor, w)
  end.

End Methods.

End Instance.

(** *** Vocabulary for the properties of processFlagList *)

(** The file has a named algorithm and its cache path exists. *)
Definition cached (w : World) (file : File) : Prop :=
  named_algorithm (algorithm (h file))
  /\ is_Some (fs w !! cache_route file).

(** The files of the options of a feature, and all the files of an item. *)
Definition feature_files (feature : Manifest.Feature) : list File :=
  concat (map snd (Manifest.feature_options feature)).

Definition item_files (item : Manifest.FlagItem) : list File :=
  (Manifest.base item
   ++ concat (map feature_files (Manifest.features item)))%list.

Definition named_feature (feature : Manifest.Feature) : bool :=
  Str.truthy (Manifest.feature_name feature).

(** What an item becomes when every file is taken from the cache. *)
Definition cached_feature (feature : Manifest.Feature) : ProcessedFeature :=
  let options :=
    Object_fromEntries
      (map (fun '(optionName, files) => (optionName, map cache_route files))
         (Manifest.feature_options feature)) in
  match feature with
  | Manifest.Multiple name _ _ default min max =>
      MultipleChoice name options default default min max
  | Manifest.Single name _ default =>
      SingleChoice name options default default
  end.

Definition cached_item (name : string) (item : Manifest.FlagItem)
  : ProcessedFlagListItem :=
  mkItem name (Manifest.baseurl item) (Manifest.default item)
    (Manifest.default item) (map cache_route (Manifest.base item))
    (map cached_feature (Manifest.features item)).

(** The files of the option [flag] of a feature: of the last option of
    that name. *)
Definition option_files (feature : Manifest.Feature) (flag : string)
  : option (list File) :=
  props_get flag (rev (Manifest.feature_options feature)).

(** The cache paths that the default of a feature selects.  A default that
    names no option is an invalid selection in a multi-choice feature and
    selects nothing in a single-choice feature, unless it is a name that
    every object inherits: the look-up among the processed options then
    finds the inherited property, and [getFlagFiles] throws a
    [TypeError]. *)
Definition default_files (feature : Manifest.Feature) : Res (list string) :=
  match feature with
  | Manifest.Multiple _ _ _ flags _ _ =>
      res_collect
        (fun flag =>
           match option_files feature flag with
           | Some files => Ok (map cache_route files)
           | None =>
               if inherited flag then Throw TypeError
               else Throw (InvalidFlagValue flag)
           end)
        flags
  | Manifest.Single _ _ flag =>
      if Str.truthy flag then
        match option_files feature flag with
        | Some files => Ok (map cache_route files)
        | None => if inherited flag then Throw TypeError else Ok []
        end
      else Ok []
  end.

(** The cache paths of a manifest as its defaults select them: of every item
    that is on by default, the base files and then the files of the default
    of every feature. *)
Definition default_selection (flagList : TypedFlagList) : Res (list string) :=
  res_collect
    (fun '(_, item) =>
       if Manifest.default item then
         res_map (app (map cache_route (Manifest.base item)))
           (res_collect default_files (Manifest.features item))
       else Ok [])
    flagList.

(** A call of [downloadFile] in the world [w] sends a request: the
    algorithm is not refused, and the file is declared without digest or is
    not in the cache. *)
Definition requested (w : World) (file : File) : bool :=
  negb (String.eqb (Str.toUpperCase (algorithm (h file))) "MD5")
  && negb (String.eqb (Str.toUpperCase (algorithm (h file))) "SHA1")
  && (String.eqb (algorithm (h file)) "none"
      || negb (bool_decide (is_Some (fs w !! cache_route file)))).

(** The second world continues the trace of the first. *)
Definition grows (w w' : World) : Prop :=
  exists evs, trace w' = (trace w ++ evs)%list.

(** The second world has the requests of the first, and then [requests]. *)
Definition requests_between (w w' : World) (requests : list Event) : Prop :=
  List.filter is_HttpGet (trace w')
  = (List.filter is_HttpGet (trace w) ++ requests)%list.

(** The platforms that [searchVersions] knows, in lower case. *)
Definition known_platforms : list string :=
  ["windows"; "macos"; "linux"; "darwin"].

(** A search path without the placeholder. *)
Definition plain_path (searchPath : string) : bool :=
  negb (Text.includes searchPath "%s").

Definition version_entry (file : string) : bool :=
  Text.startsWith file "version-".

(** [file] is the first entry of the listing whose name starts with
    [version-]. *)
Definition first_version (files : list string) (file : string) : Prop :=
  exists before after,
    files = (before ++ file :: after)%list
    /\ version_entry file = true
    /\ Forall (fun other => version_entry other = false) before.

(** ** Further example data *)

Module Cache.

Definition served_file : File :=
  mkFile "flags.json" (mkFileHash "SHA512" (DigestString "8")).

(** Another path and another algorithm, the same digest. *)
Definition mirrored_file : File :=
  mkFile "mirror/other.json" (mkFileHash "SHA256" (DigestString "8")).

(** A world with an empty cache directory. *)
Definition fresh : World := mkWorld (<["_cache" := FsDir []]> ∅) [].

Definition unhashed_file : File :=
  mkFile "flags.json" (mkFileHash "none" DigestNull).

(** Answers with status 204 and no content. *)
Definition empty_server (target : string) : option Response :=
  Some (mkResponse 204 "No Content" "").

Definition empty_env : Env :=
  mkEnv empty_server Scenario.length_digest Scenario.no_parser
    Scenario.no_parser Scenario.no_parser (fun _ => "").

End Cache.

(** Two fragments in the cache, selected by one item, and a Roblox
    directory. *)
Module Install.

(** A stand-in for [JSON.stringify]: the keys of the object. *)
Definition stringify (v : JValue) : string :=
  String.concat "," (map fst (own_entries v)).

Definition env : Env :=
  mkEnv (fun _ => None) Scenario.length_digest Merge.parse Merge.parse
    Merge.parse stringify.

Definition item : ProcessedFlagListItem :=
  mkItem "Flags" "https://rfo.sh/flags/" true true
    ["_cache/f1"; "_cache/f2"] [].

Definition roblox : string := "C:/Roblox/versions/version-1".

Definition rfo (robloxPaths : list string) : RFO :=
  mkRFO [[("Flags", item)]] robloxPaths.

Definition world : World :=
  mkWorld (<[roblox := FsDir []]> (fs Merge.world)) [].

End Install.

(** A directory of local flag lists: one JSON file, one TOML file, and a
    file that no parser accepts. *)
Module Local.

Definition json (text : string) : option JValue :=
  if String.eqb text "{}" then Some (JObj PlainObject []) else None.

Definition toml (text : string) : option JValue :=
  if String.eqb text "a = 1" then Some (JObj PlainObject [("a", JNum 1)])
  else None.

Definition env : Env :=
  mkEnv Loader.server Scenario.length_digest Scenario.no_parser json toml
    (fun _ => "").

Definition world (names : list string) : World :=
  mkWorld
    (<["./flagLists/" := FsDir names]>
       (<["./flagLists//A.JSON" := FsFile "{}"]>
          (<["./flagLists//b.toml" := FsFile "a = 1"]>
             (<["./flagLists//c.json5" := FsFile "{}"]> ∅)))) [].

End Local.

(** An item whose multi-choice selection names an option that is not
    offered. *)
Module Selection.

Definition extras : ProcessedFeature :=
  MultipleChoice "Extras" Flags.extras_options ["sound"] ["sound"; "turbo"]
    0 2.

Definition tweaks : ProcessedFlagListItem :=
  mkItem "Tweaks" "https://rfo.sh/flags/" true true ["_cache/base1"] [extras].

End Selection.

(** A configuration file that replaces the URL of the default flag list,
    and one that sets [urls] to [null]. *)
Module Configs.

Definition mirror : JValue :=
  JObj PlainObject
    [("urls",
      JObj PlainObject
        [("defaultFlagList",
          JObj PlainObject [("url", JStr "https://mirror.example/list")])])].

Definition no_urls : JValue := JObj PlainObject [("urls", JNull)].

Definition parse (text : string) : option JValue :=
  if String.eqb text "{urls:{defaultFlagList:{url:'https://mirror.example/list'}}}"
  then Some mirror
  else if String.eqb text "{urls:null}" then Some no_urls
  else None.

Definition env : Env :=
  mkEnv (fun _ => None) Scenario.length_digest parse parse parse
    (fun _ => "").

Definition world (text : string) : World :=
  mkWorld (<["./config.json5" := FsFile text]> ∅) [].

End Configs.

(** A POSIX rendering of the functions of [path], enough for the examples,
    and a machine on which Roblox is not installed. *)
Module Paths.

Definition join (a b : string) : string := a +:+ "/" +:+ b.

Definition no_env (variable : string) : option string := None.

Definition dirname (p : string) : string := p.

Definition basename (p : string) : string := p.

(** A Mac on which the application directory holds two versions. *)
Definition mac : World :=
  mkWorld
    (<["/Applications/Roblox.app/Contents/MacOS" :=
         FsDir ["RobloxPlayer"; "version-1"; "version-2"]]> ∅) [].

End Paths.

(** A manifest with one item, a world whose cache holds its files, and an
    item with a feature that has no name. *)
Module Manifests.

Definition base_file : File :=
  mkFile "base.json" (mkFileHash "SHA512" (DigestString "b1")).

Definition dx11_file : File :=
  mkFile "dx11.json" (mkFileHash "SHA256" (DigestString "d1")).

Definition graphics : Manifest.Feature :=
  Manifest.Single "Graphics" [("DX11", [dx11_file])] "DX11".

Definition fastFlags : Manifest.FlagItem :=
  Manifest.mkFlagItem "https://rfo.sh/flags/" true "Fast Flags" [base_file]
    [graphics].

Definition flagList : TypedFlagList := [("FastFlags", fastFlags)].

Definition warm : World :=
  mkWorld (<["_cache/b1" := FsFile "{}"]> (<["_cache/d1" := FsFile "{}"]> ∅))
    [].

Definition unnamed : Manifest.Feature :=
  Manifest.Single "" [("DX11", [dx11_file])] "DX11".

Definition broken : Manifest.FlagItem :=
  Manifest.mkFlagItem "https://rfo.sh/flags/" true "Broken" [base_file]
    [graphics; unnamed].

(** The same file twice among the base files. *)
Definition doubled : Manifest.FlagItem :=
  Manifest.mkFlagItem "https://rfo.sh/flags/" true "Doubled"
    [Cache.served_file; Cache.served_file] [].

End Manifests.
(** * Properties *)

(** ** Results and loops *)

Lemma res_bind_Ok {A B : Type} (r : Res A) (k : A -> Res B) (b : B) :
  res_bind r k = Ok b -> exists a, r = Ok a /\ k a = Ok b.
Proof. destruct r as [a|e]; simpl; [eauto | discriminate]. Qed.

Lemma res_fold_app {A B : Type} (body : A -> B -> Res A) acc (xs ys : list B) :
  res_fold body acc (xs ++ ys)
  = res_bind (res_fold body acc xs) (fun acc' => res_fold body acc' ys).
Proof.
  revert acc. induction xs as [|x xs IH]; intros acc; simpl; [done|].
  destruct (body acc x); simpl; [apply IH | done].
Qed.


(** ** The content cache *)

(** [existsSync] on a path known to be absent, or known to hold a file. *)
Ltac exists_absent H :=
  unfold existsSync at 1;
  rewrite bool_decide_eq_false_2 by (rewrite H; by intros [? ?]).

Ltac exists_present H :=
  unfold existsSync at 1;
  rewrite bool_decide_eq_true_2 by (rewrite H; by eexists).

Lemma downloadFile_named E file baseUrl :
  named_algorithm (algorithm (h file)) ->
  downloadFile E file baseUrl
  = (let! cached := existsSync (cache_route file) in
     if (cached : bool) then io_ret (cache_route file)
     else
       let! fileResponse := axios_get_io E (cache_route file) in
       if negb (status fileResponse =? 200) then
         io_throw (DownloadStatus (baseUrl +:+ f file) (cache_route file)
                     (status fileResponse))
       else
         let! fileHash :=
           createHash_io E (algorithm (h file)) (data fileResponse) in
         if digest_differs fileHash (digest (h file)) then
           io_throw (InvalidHash (baseUrl +:+ f file) (cache_route file))
         else
           let! _ := writeFileSync (cache_route file) (data fileResponse) in
           io_ret (cache_route file))%io.
Proof.
  intros (Hmd5 & Hsha1 & Hnone). unfold downloadFile, cache_route. simpl.
  apply String.eqb_neq in Hmd5, Hsha1, Hnone.
  by rewrite Hmd5, Hsha1, Hnone.
Qed.

(** C3.  A file whose algorithm is MD5 or SHA1, in any letter case, is
    refused with a [SecurityPolicyViolation] error, and the world is left as
    it was: no request is sent and nothing is written. *)
Theorem downloadFile_refuses_legacy E file baseUrl (w : World) :
  Str.toUpperCase (algorithm (h file)) = "MD5"
  \/ Str.toUpperCase (algorithm (h file)) = "SHA1" ->
  exists e, downloadFile E file baseUrl w = (Throw e, w)
            /\ kind_of e = SecurityPolicyViolation.
Proof.
  intros [Hmd5 | Hsha1]; unfold downloadFile; simpl.
  - rewrite Hmd5. simpl. by exists (InsecureAlgorithm "MD5").
  - rewrite Hsha1. simpl. by exists (InsecureAlgorithm "SHA1").
Qed.

(** C4.  With a named algorithm and no cache entry, when the bytes that the
    request returned hash to something else than the declared digest, the
    call fails with an [IntegrityMismatch] error; the file system is the one
    before the call and the trace gained the request and nothing else. *)
Theorem downloadFile_mismatch_writes_nothing
    E file baseUrl (w : World) response fileHash :
  named_algorithm (algorithm (h file)) ->
  fs w !! cache_route file = None ->
  axios_get E (cache_route file) = Some response ->
  status response = 200 ->
  hash_hex E (algorithm (h file)) (data response) = Some fileHash ->
  digest (h file) <> DigestString fileHash ->
  exists e w',
    downloadFile E file baseUrl w = (Throw e, w')
    /\ kind_of e = IntegrityMismatch
    /\ fs w' = fs w
    /\ fs w' !! cache_route file = None
    /\ trace w' = (trace w ++ [HttpGet (cache_route file)])%list.
Proof.
  intros Hnamed Hmiss Hget Hstatus Hhash Hdiff.
  rewrite (downloadFile_named _ _ _ Hnamed).
  unfold io_bind, axios_get_io, createHash_io. exists_absent Hmiss.
  rewrite Hget, Hstatus. simpl. rewrite Hhash. simpl.
  assert (digest_differs fileHash (digest (h file)) = true) as ->.
  { destruct (digest (h file)) as [hex| |]; simpl; try done.
    apply negb_true_iff, String.eqb_neq. congruence. }
  eexists _, _. split; [reflexivity|]. simpl. by repeat split.
Qed.

Lemma downloadFile_refuses_legacy_witness :
  exists e,
    downloadFile Scenario.origin_env Scenario.md5_file Scenario.flags_base
      Scenario.empty_world
    = (Throw e, Scenario.empty_world)
    /\ kind_of e = SecurityPolicyViolation.
Proof.
  apply (downloadFile_refuses_legacy Scenario.origin_env Scenario.md5_file).
  left. reflexivity.
Defined.

Lemma downloadFile_mismatch_witness :
  exists e w',
    downloadFile Scenario.tampered_env Scenario.flags_file Scenario.flags_base
      Scenario.empty_world = (Throw e, w')
    /\ kind_of e = IntegrityMismatch
    /\ fs w' = fs Scenario.empty_world
    /\ fs w' !! cache_route Scenario.flags_file = None
    /\ trace w' = [HttpGet "_cache/2"].
Proof.
  apply (downloadFile_mismatch_writes_nothing Scenario.tampered_env
           Scenario.flags_file Scenario.flags_base Scenario.empty_world
           (mkResponse 200 "OK" "tampered") "8").
  - repeat split; vm_compute; discriminate.
  - reflexivity.
  - reflexivity.
  - reflexivity.
  - vm_compute. reflexivity.
  - discriminate.
Defined.

(** C1.  The failing run: the origin serves [flags.json] with exactly the
    declared digest and the cache is empty, yet the request goes to the cache
    path ["_cache/2"] instead of [baseUrl + file.f]; it is the only request,
    nothing is written and the call fails. *)
Theorem downloadFile_requests_cache_route :
  axios_get Scenario.origin_env
    (Scenario.flags_base +:+ f Scenario.flags_file)
  = Some (mkResponse 200 "OK" "{}")
  /\ hash_hex Scenario.origin_env "SHA512" "{}" = Some "2"
  /\ downloadFile Scenario.origin_env Scenario.flags_file Scenario.flags_base
       Scenario.empty_world
     = (Throw (AxiosRejected "_cache/2"), mkWorld ∅ [HttpGet "_cache/2"]).
Proof. repeat split; vm_compute; reflexivity. Qed.

(** The request of the checksummed branch never depends on [baseUrl] or on
    the path of the file. *)
Lemma downloadFile_named_request E file baseUrl (w : World) :
  named_algorithm (algorithm (h file)) ->
  fs w !! cache_route file = None ->
  exists rest,
    trace (snd (downloadFile E file baseUrl w))
    = (trace w ++ HttpGet (cache_route file) :: rest)%list.
Proof.
  intros Hnamed Hmiss. rewrite (downloadFile_named _ _ _ Hnamed).
  unfold io_bind, axios_get_io, createHash_io. exists_absent Hmiss.
  destruct (axios_get E (cache_route file)) as [response|]; simpl.
  - destruct (negb (status response =? 200)); simpl.
    { exists []. done. }
    destruct (hash_hex E (algorithm (h file)) (data response)); simpl.
    + destruct (digest_differs _ _); simpl.
      * by exists [].
      * eexists [_]. by rewrite <- app_assoc.
    + by exists [].
  - by exists [].
Qed.

(** ** The manifest loader *)

Lemma fetchFlagList_run E (src : FlagListUrl) (w : World) :
  fetchFlagList E src w
  = (fetch_outcome E src,
     mkWorld (fs w) (trace w ++ fetch_events E src)).
Proof.
  unfold fetchFlagList, io_catch, io_bind, axios_get_io, emit, fetch_outcome,
    fetch_events.
  destruct (axios_get E (url src)) as [response|]; simpl.
  - destruct (negb (status response =? 200)); simpl.
    + by rewrite <- app_assoc.
    + destruct (json5_parse E (data response)); simpl; [done|].
      by rewrite <- app_assoc.
  - by rewrite <- app_assoc.
Qed.

Lemma promise_all_fetch E (srcs : list FlagListUrl) (w : World) :
  promise_all (map (fetchFlagList E) srcs) w
  = (res_all (map (fetch_outcome E) srcs),
     mkWorld (fs w) (trace w ++ concat (map (fetch_events E) srcs))).
Proof.
  revert w. induction srcs as [|src srcs IH]; intros w.
  - simpl. rewrite app_nil_r. by destruct w.
  - cbn [map promise_all res_all concat]. rewrite fetchFlagList_run.
    rewrite IH. cbn [fs trace snd]. rewrite <- app_assoc.
    destruct (fetch_outcome E src); [|done].
    by destruct (res_all _).
Qed.

Lemma res_all_loaded E (srcs : list FlagListUrl) :
  Forall (fun src => ~ source_failed E src) srcs ->
  res_all (map (fetch_outcome E) srcs) = Ok (map (loaded_manifest E) srcs).
Proof.
  induction 1 as [|src srcs Hsrc _ IH]; [done|].
  cbn [map res_all]. rewrite IH.
  unfold fetch_outcome, loaded_manifest, source_failed in *.
  destruct (axios_get E (url src)) as [response|]; [|tauto].
  destruct (status response =? 200) eqn:Hst; simpl; [|done].
  destruct (json5_parse E (data response)) eqn:Hp; [done|].
  exfalso. apply Hsrc. right. exists response.
  repeat split; [by apply Z.eqb_eq|done].
Qed.

Lemma res_all_failed E (srcs : list FlagListUrl) :
  Exists (source_failed E) srcs ->
  exists src, src ∈ srcs /\ source_failed E src
    /\ res_all (map (fetch_outcome E) srcs)
       = Throw (RemoteFlagListFailed (name src) (url src)).
Proof.
  induction srcs as [|src srcs IH]; intros Hex; [by inversion Hex|].
  cbn [map res_all].
  destruct (fetch_outcome E src) as [o|e] eqn:Hout.
  - assert (Exists (source_failed E) srcs) as Hrest.
    { inversion Hex as [? ? Hbad|]; [|done]. exfalso.
      unfold fetch_outcome, source_failed in *.
      destruct Hbad as [Hnone | (response & Hget & Hst & Hp)].
      - by rewrite Hnone in Hout.
      - rewrite Hget in Hout. apply Z.eqb_eq in Hst.
        by rewrite Hst, Hp in Hout. }
    destruct (IH Hrest) as (bad & Hin & Hbad & ->).
    exists bad. split; [by right | done].
  - exists src. split; [by left|].
    unfold fetch_outcome, source_failed in *.
    destruct (axios_get E (url src)) as [response|] eqn:Hget.
    + destruct (status response =? 200) eqn:Hst; simpl in Hout; [|done].
      destruct (json5_parse E (data response)) eqn:Hp; [done|].
      injection Hout as <-. split; [|done]. right. exists response.
      repeat split; [by apply Z.eqb_eq|done].
    + injection Hout as <-. split; [by left | done].
Qed.

Lemma fs_reader_ret {A : Type} (a : A) : fs_reader (io_ret a).
Proof.
  intros w. split; [done|]. split; [|by intros w' _].
  exists []. by rewrite app_nil_r.
Qed.

Lemma fs_reader_throw {A : Type} (e : Error) : fs_reader (@io_throw A e).
Proof.
  intros w. split; [done|]. split; [|by intros w' _].
  exists []. by rewrite app_nil_r.
Qed.

Lemma fs_reader_bind {A B : Type} (m : IO A) (k : A -> IO B) :
  fs_reader m -> (forall a, fs_reader (k a)) -> fs_reader (io_bind m k).
Proof.
  intros Hm Hk w. unfold io_bind.
  destruct (Hm w) as (Hfs & [evs Htr] & Hres).
  split; [|split].
  - destruct (m w) as [[a|e] w1]; simpl in *; [|done].
    destruct (Hk a w1) as (Hfs1 & _). congruence.
  - destruct (m w) as [[a|e] w1]; simpl in *; [|by exists evs].
    destruct (Hk a w1) as (_ & [evs1 Htr1] & _). exists (evs ++ evs1)%list.
    rewrite Htr1, Htr. by rewrite <- app_assoc.
  - intros w' Hw'. specialize (Hres w' Hw').
    destruct (Hm w') as (Hfs' & _).
    destruct (m w) as [[a|e] w1], (m w') as [[a'|e'] w1'];
      simpl in *; try congruence.
    assert (a' = a) as -> by congruence.
    destruct (Hk a w1) as (_ & _ & Hk1). apply Hk1. congruence.
Qed.

Lemma fs_reader_catch {A : Type} (body : IO A) (handler : Error -> IO A) :
  fs_reader body -> (forall e, fs_reader (handler e)) ->
  fs_reader (io_catch body handler).
Proof.
  intros Hm Hk w. unfold io_catch.
  destruct (Hm w) as (Hfs & [evs Htr] & Hres).
  split; [|split].
  - destruct (body w) as [[a|e] w1]; simpl in *; [done|].
    destruct (Hk e w1) as (Hfs1 & _). congruence.
  - destruct (body w) as [[a|e] w1]; simpl in *; [by exists evs|].
    destruct (Hk e w1) as (_ & [evs1 Htr1] & _). exists (evs ++ evs1)%list.
    rewrite Htr1, Htr. by rewrite <- app_assoc.
  - intros w' Hw'. specialize (Hres w' Hw').
    destruct (Hm w') as (Hfs' & _).
    destruct (body w) as [[a|e] w1], (body w') as [[a'|e'] w1'];
      simpl in *; try congruence.
    assert (e' = e) as -> by congruence.
    destruct (Hk e w1) as (_ & _ & Hk1). apply Hk1. congruence.
Qed.

Lemma fs_reader_map {A B : Type} (callback : A -> IO B) (xs : list A) :
  (forall x, fs_reader (callback x)) -> fs_reader (io_map callback xs).
Proof.
  intros Hc. induction xs as [|x xs IH]; simpl.
  - apply fs_reader_ret.
  - apply fs_reader_bind; [apply Hc|]. intros y.
    apply fs_reader_bind; [apply IH|]. intros ys. apply fs_reader_ret.
Qed.

Lemma fs_reader_emit (ev : Event) : fs_reader (emit ev).
Proof.
  intros w. split; [done|]. split; [by exists [ev] | by intros w' _].
Qed.

Lemma fs_reader_existsSync (path : string) : fs_reader (existsSync path).
Proof.
  intros w. split; [done|]. split; [exists []; by rewrite app_nil_r|].
  intros w' Hw'. unfold existsSync. simpl. by rewrite Hw'.
Qed.

Lemma fs_reader_readFileSync (path : string) : fs_reader (readFileSync path).
Proof.
  intros w. unfold readFileSync. split; [|split].
  - by destruct (fs w !! path) as [[?|?]|].
  - exists []. rewrite app_nil_r. by destruct (fs w !! path) as [[?|?]|].
  - intros w' ->. by destruct (fs w !! path) as [[?|?]|].
Qed.

Lemma fs_reader_readdirSync (path : string) : fs_reader (readdirSync path).
Proof.
  intros w. unfold readdirSync. split; [|split].
  - by destruct (fs w !! path) as [[?|?]|].
  - exists []. rewrite app_nil_r. by destruct (fs w !! path) as [[?|?]|].
  - intros w' ->. by destruct (fs w !! path) as [[?|?]|].
Qed.

Create HintDb fs_reader.

#[local] Hint Resolve fs_reader_ret fs_reader_throw fs_reader_emit
  fs_reader_existsSync fs_reader_readFileSync fs_reader_readdirSync
  : fs_reader.

Lemma fs_reader_readLocalFlagLists E (flagListDir : string) :
  fs_reader (readLocalFlagLists E flagListDir).
Proof.
  unfold readLocalFlagLists.
  apply fs_reader_bind; [auto with fs_reader|]. intros present.
  apply fs_reader_bind; [destruct present; auto with fs_reader|].
  intros files. apply fs_reader_map. intros flagList.
  apply fs_reader_bind; [auto with fs_reader|]. intros text.
  apply fs_reader_catch.
  - destruct (parser_for E flagList text); auto with fs_reader.
  - intros e. apply fs_reader_bind; auto with fs_reader.
Qed.

Lemma omap_id_map {A B : Type} (g : A -> option B) (l : list A) :
  omap id (map g l) = omap g l.
Proof.
  induction l as [|a l IH]; [done|].
  change (omap id (g a :: map g l) = omap g (a :: l)).
  change (match id (g a) with
          | Some y => y :: omap id (map g l)
          | None => omap id (map g l)
          end
          = match g a with
            | Some y => y :: omap g l
            | None => omap g l
            end).
  by rewrite IH.
Qed.

Lemma fetchFlagLists_run E config flagListDir (w : World) :
  let w1 := mkWorld (fs w)
              (trace w ++ concat (map (fetch_events E) (remote_sources config)))
  in
  fetchFlagLists E config flagListDir w
  = match res_all (map (fetch_outcome E) (remote_sources config)) with
    | Ok flagListsData =>
        match readLocalFlagLists E flagListDir w1 with
        | (Ok local, w2) => (Ok (omap id flagListsData ++ local)%list, w2)
        | (Throw e, w2) => (Throw e, w2)
        end
    | Throw e => (Throw e, w1)
    end.
Proof.
  intros w1. unfold fetchFlagLists, io_bind.
  change (fetchFlagList E (defaultFlagList config)
            :: map (fetchFlagList E) (flagLists config))
    with (map (fetchFlagList E) (remote_sources config)).
  rewrite promise_all_fetch. fold w1.
  destruct (res_all _); [|done].
  by destruct (readLocalFlagLists E flagListDir w1) as [[local|e] w2].
Qed.

Lemma answered_failed E (src : FlagListUrl) :
  source_answered E src -> source_failed E src -> source_unparsable E src.
Proof.
  intros [response Hget] [Hnone | Hbad]; [congruence | exact Hbad].
Qed.

Lemma unparsable_failed E (src : FlagListUrl) :
  source_unparsable E src -> source_failed E src.
Proof. intros Hbad. by right. Qed.

(** C2, as the code has it, where every request is answered.  A remote
    source answered with a status other than 200 is warned about and dropped.
    When no text answered with 200 is unparsable, the load returns the
    manifests of the remote sources that answered 200, in declaration order
    and without those that are [null], followed by the local manifests.
    When the text of some remote source is unparsable, the error is logged
    and the whole load fails with the [ManifestParseError] of such a
    source. *)
Theorem fetchFlagLists_remote_failures E config flagListDir (w : World) :
  Forall (source_answered E) (remote_sources config) ->
  (forall local,
      Forall (fun src => ~ source_unparsable E src) (remote_sources config) ->
      fst (readLocalFlagLists E flagListDir w) = Ok local ->
      fst (fetchFlagLists E config flagListDir w)
      = Ok (omap (loaded_manifest E) (remote_sources config) ++ local)%list
      /\ forall src, src ∈ remote_sources config -> source_refused E src ->
           loaded_manifest E src = None
           /\ ConsoleWarn (name src)
                ∈ trace (snd (fetchFlagLists E config flagListDir w)))
  /\ (Exists (source_unparsable E) (remote_sources config) ->
      exists src w',
        src ∈ remote_sources config /\ source_unparsable E src
        /\ fetchFlagLists E config flagListDir w
           = (Throw (RemoteFlagListFailed (name src) (url src)), w')
        /\ kind_of (RemoteFlagListFailed (name src) (url src))
           = ManifestParseError
        /\ ConsoleError (name src) ∈ trace w').
Proof.
  intros Hanswered.
  pose proof (fetchFlagLists_run E config flagListDir w) as Hrun.
  cbv zeta in Hrun.
  set (w1 := mkWorld (fs w) _) in Hrun.
  assert (forall src, src ∈ remote_sources config ->
            forall ev, ev ∈ fetch_events E src -> ev ∈ trace w1) as Hlogged.
  { intros src Hin ev Hev. subst w1. cbn [trace].
    apply elem_of_app. right. apply list_elem_of_In, in_concat.
    exists (fetch_events E src). split; [|by apply list_elem_of_In].
    apply in_map. by apply list_elem_of_In. }
  split.
  - intros local Hok Hlocal.
    assert (Forall (fun src => ~ source_failed E src) (remote_sources config))
      as Hfine.
    { rewrite Forall_forall in Hanswered, Hok. apply Forall_forall.
      intros src Hin Hfailed. apply (Hok src Hin).
      by apply answered_failed; [apply Hanswered|]. }
    rewrite (res_all_loaded _ _ Hfine) in Hrun.
    destruct (fs_reader_readLocalFlagLists E flagListDir w) as (_ & _ & Hsame).
    specialize (Hsame w1 eq_refl). rewrite Hlocal in Hsame.
    destruct (fs_reader_readLocalFlagLists E flagListDir w1)
      as (_ & [evs Hevs] & _).
    destruct (readLocalFlagLists E flagListDir w1) as [r w2] eqn:Hloc.
    simpl in Hsame. subst r. rewrite Hrun. cbn [fst snd].
    split.
    + by rewrite omap_id_map.
    + intros src Hin (response & Hget & Hst). split.
      * unfold loaded_manifest. rewrite Hget.
        apply Z.eqb_neq in Hst. by rewrite Hst.
      * assert (ConsoleWarn (name src) ∈ trace w1) as Hw1.
        { apply (Hlogged src Hin). unfold fetch_events. rewrite Hget.
          apply Z.eqb_neq in Hst. rewrite Hst. simpl.
          apply elem_of_cons. right. apply list_elem_of_here. }
        cbn [snd] in Hevs. rewrite Hevs.
        apply elem_of_app. by left.
  - intros Hex.
    assert (Exists (source_failed E) (remote_sources config)) as Hfailed.
    { apply Exists_exists in Hex as (src & Hin & Hbad).
      apply Exists_exists. exists src. split; [done|].
      by apply unparsable_failed. }
    destruct (res_all_failed _ _ Hfailed) as (src & Hin & Hbad & Hres).
    rewrite Forall_forall in Hanswered.
    apply (answered_failed _ _ (Hanswered src Hin)) in Hbad.
    rewrite Hres in Hrun. exists src, w1. repeat split; try done.
    apply (Hlogged src Hin). unfold fetch_events.
    destruct Hbad as (response & Hget & Hst & Hp).
    rewrite Hget. apply Z.eqb_eq in Hst. rewrite Hst, Hp. simpl.
    apply elem_of_cons. right. apply list_elem_of_here.
Qed.

Lemma fetchFlagLists_remote_failures_witness :
  (fst (fetchFlagLists Loader.env Loader.config_soft "./flagLists/"
          Scenario.empty_world)
   = Ok [JObj PlainObject []]
   /\ forall src,
        src ∈ remote_sources Loader.config_soft ->
        source_refused Loader.env src ->
        loaded_manifest Loader.env src = None
        /\ ConsoleWarn (name src)
             ∈ trace (snd (fetchFlagLists Loader.env Loader.config_soft
                             "./flagLists/" Scenario.empty_world)))
  /\ exists src w',
       src ∈ remote_sources Loader.config_bad
       /\ source_unparsable Loader.env src
       /\ fetchFlagLists Loader.env Loader.config_bad "./flagLists/"
            Scenario.empty_world
          = (Throw (RemoteFlagListFailed (name src) (url src)), w')
       /\ kind_of (RemoteFlagListFailed (name src) (url src))
          = ManifestParseError
       /\ ConsoleError (name src) ∈ trace w'.
Proof.
  split.
  - apply (proj1 (fetchFlagLists_remote_failures Loader.env Loader.config_soft
                    "./flagLists/" Scenario.empty_world
                    ltac:(repeat constructor; by eexists)) []).
    + repeat constructor.
      * intros (response & Hget & Hst & Hp).
        vm_compute in Hget. injection Hget as <-. vm_compute in Hp.
        discriminate.
      * intros (response & Hget & Hst & Hp).
        vm_compute in Hget. injection Hget as <-. discriminate.
    + vm_compute. reflexivity.
  - apply (proj2 (fetchFlagLists_remote_failures Loader.env Loader.config_bad
                    "./flagLists/" Scenario.empty_world
                    ltac:(repeat constructor; by eexists))).
    apply Exists_cons. right. apply Exists_cons. left.
    exists (mkResponse 200 "OK" "{,"). repeat split; vm_compute; reflexivity.
Defined.

(** C2, the run that refutes the claim: the second remote source answers 200
    with a text that [json5.parse] rejects; the load does not drop it and go
    on with the first source, it fails as a whole. *)
Lemma fetchFlagLists_parse_failure_is_fatal :
  loaded_manifest Loader.env Loader.good_source = Some (JObj PlainObject [])
  /\ source_unparsable Loader.env Loader.bad_source
  /\ fetchFlagLists Loader.env Loader.config_bad "./flagLists/"
       Scenario.empty_world
     = (Throw (RemoteFlagListFailed "Extra"
                 "https://bad.example/flaglists.json5"),
        mkWorld ∅
          [HttpGet "https://good.example/flaglists.json5";
           HttpGet "https://bad.example/flaglists.json5";
           ConsoleError "Extra"])
  /\ ~ exists manifests w',
         fetchFlagLists Loader.env Loader.config_bad "./flagLists/"
           Scenario.empty_world = (Ok manifests, w').
Proof.
  split; [vm_compute; reflexivity|]. split.
  { exists (mkResponse 200 "OK" "{,"). repeat split. }
  split; [vm_compute; reflexivity|].
  intros (manifests & w' & Hrun). vm_compute in Hrun. discriminate.
Qed.

(** ** resolveFiles *)

Lemma res_collect_nil {A : Type} (files_of : A -> Res (list string)) :
  res_collect files_of [] = Ok [].
Proof. reflexivity. Qed.

Lemma res_collect_cons {A : Type} (files_of : A -> Res (list string)) x xs :
  res_collect files_of (x :: xs)
  = res_bind (files_of x)
      (fun fx => res_map (app fx) (res_collect files_of xs)).
Proof.
  unfold res_collect. cbn [map res_all].
  destruct (files_of x) as [fx|e]; [|done].
  by destruct (res_all (map files_of xs)).
Qed.

Lemma res_map_app_assoc (acc fx : list string) (r : Res (list string)) :
  res_map (app (acc ++ fx)) r = res_map (app acc) (res_map (app fx) r).
Proof. destruct r; simpl; [|done]. by rewrite <- app_assoc. Qed.

(** A loop that pushes the files of each element is the concatenation of
    those files after what was there. *)
Lemma res_fold_collect {A : Type}
    (body : list string -> A -> Res (list string))
    (files_of : A -> Res (list string)) :
  (forall acc x, body acc x = res_map (app acc) (files_of x)) ->
  forall acc xs,
    res_fold body acc xs = res_map (app acc) (res_collect files_of xs).
Proof.
  intros Hbody acc xs. revert acc.
  induction xs as [|x xs IH]; intros acc.
  - simpl. by rewrite app_nil_r.
  - rewrite res_collect_cons. cbn [res_fold]. rewrite Hbody.
    destruct (files_of x) as [fx|e]; simpl; [|done].
    change (res_fold body (acc ++ fx) xs
            = res_map (app acc) (res_map (app fx) (res_collect files_of xs))).
    rewrite IH. apply res_map_app_assoc.
Qed.

Lemma res_collect_app {A : Type} (files_of : A -> Res (list string)) xs ys :
  res_collect files_of (xs ++ ys)
  = res_bind (res_collect files_of xs)
      (fun fx => res_map (app fx) (res_collect files_of ys)).
Proof.
  induction xs as [|x xs IH].
  - simpl. by destruct (res_collect files_of ys).
  - change ((x :: xs) ++ ys) with (x :: (xs ++ ys)).
    rewrite !res_collect_cons, IH.
    destruct (files_of x) as [fx|e]; simpl; [|done].
    destruct (res_collect files_of xs) as [fxs|e]; simpl; [|done].
    by rewrite res_map_app_assoc.
Qed.

Lemma res_collect_concat {A : Type} (files_of : A -> Res (list string))
    (xss : list (list A)) :
  res_collect files_of (concat xss)
  = res_collect (res_collect files_of) xss.
Proof.
  induction xss as [|xs xss IH]; [done|].
  cbn [concat]. by rewrite res_collect_app, res_collect_cons, IH.
Qed.

Lemma res_map_app_nil (r : Res (list string)) : res_map (app []) r = r.
Proof. by destruct r. Qed.

Lemma pushFeature_multiple n options d value lo hi (flagFiles : list string) :
  pushFeature flagFiles (MultipleChoice n options d value lo hi)
  = res_map (app flagFiles) (res_collect (option_pushed options) value).
Proof.
  cbn [pushFeature]. apply res_fold_collect. intros acc flag.
  unfold pushOption, option_pushed.
  destruct (options !! flag); [done|]. by destruct (inherited flag).
Qed.

Lemma pushFeature_pushed (flagFiles : list string) (feature : ProcessedFeature) :
  pushFeature flagFiles feature
  = res_map (app flagFiles) (pushed_files feature).
Proof.
  unfold pushed_files.
  destruct feature as [n options d value lo hi | n options d value].
  - by rewrite !pushFeature_multiple, res_map_app_nil.
  - cbn [pushFeature]. destruct (Str.truthy value); cbn; [|by rewrite app_nil_r].
    unfold pushOption. destruct (options !! value); cbn; [done|].
    destruct (inherited value); cbn; [done | by rewrite app_nil_r].
Qed.

Lemma getFlagFiles_loop (manifests : list ProcessedFlagList) :
  res_fold
    (fun flagFiles flagLists =>
       res_fold
         (fun flagFiles list =>
            if enabled list then
              res_fold pushFeature (flagFiles ++ base list)%list
                (features list)
            else Ok flagFiles)
         flagFiles (Object_values flagLists))
    [] manifests
  = pushed_all manifests.
Proof.
  unfold pushed_all. rewrite res_collect_concat.
  rewrite (res_fold_collect _
             (fun m => res_collect pushed_item_files (Object_values m))).
  - assert (res_collect
              (fun m => res_collect pushed_item_files (Object_values m))
              manifests
            = res_collect (res_collect pushed_item_files)
                (map Object_values manifests)) as ->.
    { unfold res_collect at 1 3. by rewrite map_map. }
    by destruct (res_collect _ _).
  - intros acc m. apply res_fold_collect. intros acc' item.
    unfold pushed_item_files. destruct (enabled item).
    + rewrite (res_fold_collect _ _ pushFeature_pushed).
      apply res_map_app_assoc.
    + simpl. by rewrite app_nil_r.
Qed.

(** With at least one manifest, [getFlagFiles] is the concatenation of what
    the items push. *)
Lemma getFlagFiles_pushed (this : RFO) :
  processedFlagList this <> [] ->
  getFlagFiles this = pushed_all (processedFlagList this).
Proof.
  intros Hne. unfold getFlagFiles, hasProcessedFlags.
  destruct (processedFlagList this) as [|m ms] eqn:Hms; [done|].
  cbn [length Nat.ltb Nat.leb negb Nat.eqb]. apply getFlagFiles_loop.
Qed.

Lemma res_collect_ext_in {A : Type} (g1 g2 : A -> Res (list string)) xs :
  Forall (fun x => g1 x = g2 x) xs -> res_collect g1 xs = res_collect g2 xs.
Proof.
  induction 1 as [|x xs Hx _ IH]; [done|].
  by rewrite !res_collect_cons, Hx, IH.
Qed.

(** Where every selected value is an option or finds nothing, a feature
    pushes what the specification says. *)
Lemma pushed_files_spec (feature : ProcessedFeature) :
  own_selection feature = true ->
  pushed_files feature = spec_feature_files feature.
Proof.
  unfold own_selection, pushed_files. intros Hown.
  rewrite forallb_forall in Hown.
  destruct feature as [n options d value lo hi | n options d value].
  - rewrite pushFeature_multiple, res_map_app_nil. cbn [spec_feature_files].
    apply res_collect_ext_in, Forall_forall. intros flag Hflag.
    apply list_elem_of_In in Hflag.
    specialize (Hown flag Hflag). cbn [options_of] in Hown.
    unfold option_pushed. destruct (options !! flag) as [files|] eqn:Hopt;
      [done|].
    rewrite bool_decide_eq_false_2 in Hown by (by intros [? ?]).
    cbn in Hown. by destruct (inherited flag).
  - cbn [pushFeature spec_feature_files selected options_of] in *.
    destruct (Str.truthy value); [|done]. unfold pushOption.
    specialize (Hown value (or_introl eq_refl)).
    destruct (options !! value) as [files|] eqn:Hopt; [by cbn|].
    rewrite bool_decide_eq_false_2 in Hown by (by intros [? ?]).
    cbn in Hown. by destruct (inherited value).
Qed.

Lemma pushed_all_spec (manifests : list ProcessedFlagList) :
  own_selections manifests = true ->
  pushed_all manifests = spec_resolveFiles manifests.
Proof.
  unfold own_selections, pushed_all, spec_resolveFiles. intros Hown.
  rewrite forallb_forall in Hown.
  apply res_collect_ext_in, Forall_forall. intros item Hitem.
  apply list_elem_of_In in Hitem. specialize (Hown item Hitem).
  unfold pushed_item_files, spec_item_files.
  destruct (enabled item); [|done]. cbn in Hown.
  rewrite forallb_forall in Hown. f_equal.
  apply res_collect_ext_in, Forall_forall. intros feature Hfeature.
  apply pushed_files_spec, Hown. by apply list_elem_of_In.
Qed.

Lemma res_collect_lookups (options : gmap string (list string))
    (flags : list string) (fileLists : list (list string)) :
  mapM (fun flag => options !! flag) flags = Some fileLists ->
  res_collect (option_pushed options) flags = Ok (concat fileLists).
Proof.
  rewrite mapM_Some. induction 1 as [|flag files flags fileLists Hflag _ IH].
  - reflexivity.
  - rewrite res_collect_cons. unfold option_pushed at 1.
    rewrite Hflag, IH. reflexivity.
Qed.

(** C5.  The failing runs.  An item whose single-choice feature has the
    value ["constructor"], a name that is no option of the feature: the
    specification skips the feature and returns the base file, the code
    throws a [TypeError], because the look-up [feature.options[value]]
    finds the property that every object inherits and [push(...)] cannot
    spread it.  Likewise a multi-choice feature that has selected
    ["toString"]: the specification fails with [InvalidSelection], the code
    with a [TypeError]. *)
Theorem getFlagFiles_inherited_option :
  (Flags.graphics_options !! "constructor" = None
   /\ spec_resolveFiles [[("FastFlags", Flags.fastFlags "constructor")]]
      = Ok ["_cache/base"]
   /\ getFlagFiles (Flags.rfo_with (Flags.fastFlags "constructor"))
      = Throw TypeError)
  /\ (Flags.extras_options !! "toString" = None
      /\ spec_resolveFiles [[("Tweaks", Flags.untidy_tweaks)]]
         = Throw (InvalidFlagValue "toString")
      /\ kind_of (InvalidFlagValue "toString") = InvalidSelection
      /\ getFlagFiles (Flags.rfo_with Flags.untidy_tweaks) = Throw TypeError
      /\ kind_of TypeError <> InvalidSelection).
Proof.
  split; [by vm_compute|]. repeat split; try (by vm_compute).
Qed.

(** The end-to-end scenario of the specification. *)
Example getFlagFiles_graphics :
  getFlagFiles (Flags.rfo_with (Flags.fastFlags "DX11"))
  = Ok ["_cache/base"; "_cache/fileA"]
  /\ getFlagFiles (Flags.rfo_with (Flags.fastFlags "Vulkan"))
     = Ok ["_cache/base"; "_cache/fileB"]
  /\ getFlagFiles (Flags.rfo_with (Flags.fastFlags ""))
     = Ok ["_cache/base"]
  /\ getFlagFiles (Flags.rfo_with (Flags.fastFlags "OpenGL"))
     = Ok ["_cache/base"].
Proof. repeat split; vm_compute; reflexivity. Qed.

(** ** mergeConfigurations *)

Lemma props_get_set {V : Type} (key k : string) (v : V) props :
  props_get k (props_set key v props)
  = if String.eqb key k then Some v else props_get k props.
Proof.
  induction props as [|[k0 x] rest IH]; simpl.
  - done.
  - destruct (String.eqb k0 key) eqn:Hk0; simpl.
    + apply String.eqb_eq in Hk0. subst k0.
      by destruct (String.eqb key k).
    + rewrite IH. destruct (String.eqb k0 k) eqn:Hk; [|done].
      apply String.eqb_eq in Hk. subst k0. by rewrite String.eqb_sym, Hk0.
Qed.

Lemma props_get_app {V : Type} (k : string) (l1 l2 : list (string * V)) :
  props_get k (l1 ++ l2)
  = match props_get k l1 with
    | Some v => Some v
    | None => props_get k l2
    end.
Proof.
  induction l1 as [|[k0 x] rest IH]; simpl; [done|].
  by destruct (String.eqb k0 k).
Qed.

(** After a run of assignments the value of a key is the one assigned last,
    or the one it had. *)
Lemma props_get_fold_set {V : Type} (k : string)
    (entries init : list (string * V)) :
  props_get k
    (fold_left (fun props '(key, v) => props_set key v props) entries init)
  = match props_get k (rev entries) with
    | Some v => Some v
    | None => props_get k init
    end.
Proof.
  revert init. induction entries as [|[key v] rest IH]; intros init; simpl.
  - done.
  - rewrite IH, props_get_app, props_get_set. simpl.
    destruct (props_get k (rev rest)); [done|].
    by destruct (String.eqb key k).
Qed.

Lemma props_get_is_Some {V : Type} (k : string) (props : list (string * V)) :
  is_Some (props_get k props) <-> k ∈ map fst props.
Proof.
  induction props as [|[k0 x] rest IH]; simpl.
  - split; [by intros [? ?] | by intros ?%elem_of_nil].
  - destruct (String.eqb k0 k) eqn:Hk.
    + apply String.eqb_eq in Hk. subst k0.
      split; [intros _; apply list_elem_of_here | by eexists].
    + rewrite IH. apply String.eqb_neq in Hk. rewrite elem_of_cons.
      split; [by right | by intros [? | ?]].
Qed.

Lemma props_get_None {V : Type} (k : string) (props : list (string * V)) :
  k ∉ map fst props -> props_get k props = None.
Proof.
  intros Hnotin. destruct (props_get k props) eqn:Hget; [|done].
  exfalso. apply Hnotin, props_get_is_Some. by rewrite Hget.
Qed.

(** An assignment keeps the keys, or adds its key at the end. *)
Lemma props_set_fst {V : Type} (key : string) (v : V) props :
  map fst (props_set key v props)
  = match props_get key props with
    | Some _ => map fst props
    | None => map fst props ++ [key]
    end.
Proof.
  induction props as [|[k0 x] rest IH]; simpl; [done|].
  destruct (String.eqb k0 key) eqn:Hk; simpl; [done|].
  rewrite IH. by destruct (props_get key rest).
Qed.

Lemma props_set_keys {V : Type} (key : string) (v : V) props :
  NoDup (map fst props) -> NoDup (map fst (props_set key v props)).
Proof.
  intros Hnd. rewrite props_set_fst.
  destruct (props_get key props) eqn:Hget; [done|].
  apply NoDup_app. split; [done|]. split; [|apply NoDup_singleton].
  intros k Hk ->%list_elem_of_singleton.
  apply props_get_is_Some in Hk. rewrite Hget in Hk. by destruct Hk.
Qed.

Lemma fold_set_keys {V : Type} (entries init : list (string * V)) :
  NoDup (map fst init) ->
  NoDup (map fst
           (fold_left (fun props '(key, v) => props_set key v props)
              entries init)).
Proof.
  revert init. induction entries as [|[key v] rest IH]; intros init Hnd;
    simpl; [done|].
  apply IH. by apply props_set_keys.
Qed.

(** With unique keys the last binding of a key is its only binding. *)
Lemma props_get_rev {V : Type} (k : string) (props : list (string * V)) :
  NoDup (map fst props) -> props_get k (rev props) = props_get k props.
Proof.
  induction props as [|[k0 x] rest IH]; simpl; intros Hnd; [done|].
  apply NoDup_cons in Hnd as [Hnotin Hnd].
  rewrite props_get_app, IH by done. simpl.
  destruct (String.eqb k0 k) eqn:Hk; [|by destruct (props_get k rest)].
  apply String.eqb_eq in Hk as ->. by rewrite props_get_None.
Qed.

Lemma last_wins_cons (k : string) (doc : JValue) (docs : list JValue) :
  last_wins k (doc :: docs)
  = match last_wins k docs with
    | Some v => Some v
    | None => props_get k (rev (own_entries doc))
    end.
Proof.
  unfold last_wins. cbn [map concat]. by rewrite rev_app_distr, props_get_app.
Qed.

Lemma merge_docs_from (docs : list JValue) (props0 : list (string * JValue)) :
  NoDup (map fst props0) ->
  exists props,
    fold_left (fun merged doc => object_spread [merged; doc]) docs
      (JObj PlainObject props0)
    = JObj PlainObject props
    /\ NoDup (map fst props)
    /\ forall k,
         props_get k props
         = match last_wins k docs with
           | Some v => Some v
           | None => props_get k props0
           end.
Proof.
  revert props0. induction docs as [|doc docs IH]; intros props0 Hnd.
  - exists props0. by repeat split.
  - cbn [fold_left]. unfold object_spread at 2. cbn [map concat own_entries].
    rewrite app_nil_r.
    destruct (IH (fold_left (fun props '(key, v) => props_set key v props)
                    (props0 ++ own_entries doc) []))
      as (props & Heq & Hnd' & Hget).
    { apply fold_set_keys. apply NoDup_nil_2. }
    exists props. split; [exact Heq|]. split; [exact Hnd'|].
    intros k. rewrite Hget, last_wins_cons, props_get_fold_set.
    rewrite rev_app_distr, props_get_app, (props_get_rev _ _ Hnd). simpl.
    destruct (last_wins k docs); [done|].
    destruct (props_get k (rev (own_entries doc))); [done|].
    by destruct (props_get k props0).
Qed.

Lemma mergeFlagFiles_given E (this : RFO) (flagFiles : list string) :
  mergeFlagFiles E this (Some flagFiles)
  = io_fold
      (fun merged flagFile =>
         let! present := existsSync flagFile in
         if negb present then io_throw (FlagFileMissing flagFile)
         else
           let! text := readFileSync flagFile in
           let! parsed := json5_parse_io E text in
           io_ret (object_spread [merged; parsed]))%io
      (JObj PlainObject []) flagFiles.
Proof. reflexivity. Qed.

Lemma merge_loop_readable E (w : World) (files : list string)
    (docs : list JValue) (merged : JValue) :
  Forall2 (readable E w) files docs ->
  forall rest,
    io_fold
      (fun merged flagFile =>
         let! present := existsSync flagFile in
         if negb present then io_throw (FlagFileMissing flagFile)
         else
           let! text := readFileSync flagFile in
           let! parsed := json5_parse_io E text in
           io_ret (object_spread [merged; parsed]))%io
      merged (files ++ rest) w
    = io_fold
        (fun merged flagFile =>
           let! present := existsSync flagFile in
           if negb present then io_throw (FlagFileMissing flagFile)
           else
             let! text := readFileSync flagFile in
             let! parsed := json5_parse_io E text in
             io_ret (object_spread [merged; parsed]))%io
        (fold_left (fun merged doc => object_spread [merged; doc]) docs merged)
        rest w.
Proof.
  intros Hall rest. revert merged.
  induction Hall as [|path doc files docs (text & Hfile & Hparse) _ IH];
    intros merged; [done|].
  cbn [app io_fold fold_left]. rewrite <- IH.
  unfold io_bind at 1. unfold io_bind at 1. exists_present Hfile.
  cbn [negb]. unfold io_bind at 1. unfold readFileSync at 1. rewrite Hfile.
  unfold io_bind at 1. unfold json5_parse_io at 1. rewrite Hparse.
  reflexivity.
Qed.

(** C6.  When every file exists and parses, the merge returns a plain object
    in which each top-level key has the value of the last file that has it,
    taken whole; the two fragments of the specification give
    [{"A":1,"B":3,"C":4}]; and a path that does not exist when its turn comes
    fails the merge with the [MissingConfigFragment] error that names it. *)
Theorem mergeFlagFiles_last_file_wins E (this : RFO) (w : World) :
  (forall files docs,
      Forall2 (readable E w) files docs ->
      exists props,
        mergeFlagFiles E this (Some files) w = (Ok (JObj PlainObject props), w)
        /\ forall key, props_get key props = last_wins key docs)
  /\ (forall f1 f2,
        readable E w f1
          (JObj PlainObject [("A", JNum 1); ("B", JNum 2)]) ->
        readable E w f2
          (JObj PlainObject [("B", JNum 3); ("C", JNum 4)]) ->
        mergeFlagFiles E this (Some [f1; f2]) w
        = (Ok (JObj PlainObject [("A", JNum 1); ("B", JNum 3); ("C", JNum 4)]),
           w))
  /\ (forall files docs path rest,
        Forall2 (readable E w) files docs ->
        fs w !! path = None ->
        mergeFlagFiles E this (Some (files ++ path :: rest)) w
        = (Throw (FlagFileMissing path), w)
        /\ kind_of (FlagFileMissing path) = MissingConfigFragment).
Proof.
  split; [|split].
  - intros files docs Hall. rewrite mergeFlagFiles_given.
    rewrite <- (app_nil_r files).
    rewrite (merge_loop_readable E w files docs _ Hall []).
    destruct (merge_docs_from docs [] (NoDup_nil_2))
      as (props & Heq & _ & Hget).
    exists props. rewrite Heq. split; [done|].
    intros key. rewrite Hget. by destruct (last_wins key docs).
  - intros f1 f2 H1 H2. rewrite mergeFlagFiles_given.
    change [f1; f2] with ([f1; f2] ++ []).
    rewrite (merge_loop_readable E w [f1; f2] _ _
               (List.Forall2_cons _ _ H1
                  (List.Forall2_cons _ _ H2 (List.Forall2_nil _))) []).
    vm_compute. reflexivity.
  - intros files docs path rest Hall Hmiss. split; [|done].
    rewrite mergeFlagFiles_given.
    rewrite (merge_loop_readable E w files docs _ Hall (path :: rest)).
    cbn [io_fold]. unfold io_bind at 1. unfold io_bind at 1.
    exists_absent Hmiss.
    reflexivity.
Qed.

Lemma mergeFlagFiles_last_file_wins_witness :
  (exists props,
      mergeFlagFiles Merge.env Merge.nothing_processed
        (Some ["_cache/f1"; "_cache/f2"]) Merge.world
      = (Ok (JObj PlainObject props), Merge.world)
      /\ forall key,
           props_get key props = last_wins key [Merge.doc1; Merge.doc2])
  /\ mergeFlagFiles Merge.env Merge.nothing_processed
       (Some ["_cache/f1"; "_cache/f2"]) Merge.world
     = (Ok (JObj PlainObject [("A", JNum 1); ("B", JNum 3); ("C", JNum 4)]),
        Merge.world)
  /\ mergeFlagFiles Merge.env Merge.nothing_processed
       (Some (["_cache/f1"] ++ "_cache/f3" :: ["_cache/f2"])) Merge.world
     = (Throw (FlagFileMissing "_cache/f3"), Merge.world)
  /\ kind_of (FlagFileMissing "_cache/f3") = MissingConfigFragment.
Proof.
  assert (readable Merge.env Merge.world "_cache/f1" Merge.doc1) as H1.
  { exists "{A:1,B:2}". split; vm_compute; reflexivity. }
  assert (readable Merge.env Merge.world "_cache/f2" Merge.doc2) as H2.
  { exists "{B:3,C:4}". split; vm_compute; reflexivity. }
  pose proof (mergeFlagFiles_last_file_wins Merge.env Merge.nothing_processed
                Merge.world) as (Hgeneral & Hexample & Hmissing).
  split; [|split].
  - apply Hgeneral. by repeat constructor.
  - by apply Hexample.
  - apply (Hmissing ["_cache/f1"] [Merge.doc1]).
    + by repeat constructor.
    + vm_compute. reflexivity.
Defined.

(** The merge is shallow: a nested object of a later file replaces the one
    of an earlier file, it is not merged into it. *)
Example merge_docs_is_shallow :
  merge_docs
    [JObj PlainObject [("A", JObj PlainObject [("x", JNum 1)])];
     JObj PlainObject [("A", JObj PlainObject [("y", JNum 2)])]]
  = JObj PlainObject [("A", JObj PlainObject [("y", JNum 2)])].
Proof. reflexivity. Qed.

(** ** Nothing preprocessed *)

(** C10.  With an empty list of processed flag lists, [getFlagFiles] throws,
    [mergeFlagFiles] and [dumpFlags] called without argument throw when their
    default argument is evaluated, and [applyFlags] throws before it resolves
    or writes anything; in each case the world is left untouched. *)
Theorem nothing_preprocessed_throws E (this : RFO) (w : World) :
  processedFlagList this = [] ->
  getFlagFiles this = Throw DidNotPreprocess
  /\ mergeFlagFiles E this None w = (Throw DidNotPreprocess, w)
  /\ dumpFlags E this None w = (Throw DidNotPreprocess, w)
  /\ applyFlags E this w
     = (Throw (if (length (robloxPaths this) =? 0)%nat
               then NoRobloxVersions else NoFlagsFound), w).
Proof.
  intros Hempty.
  assert (getFlagFiles this = Throw DidNotPreprocess) as Hget.
  { unfold getFlagFiles, hasProcessedFlags. by rewrite Hempty. }
  split; [exact Hget|].
  unfold mergeFlagFiles, dumpFlags, applyFlags, flagFiles_or_default, io_bind,
    io_lift.
  rewrite Hget, Hempty. simpl.
  by destruct (length (robloxPaths this) =? 0)%nat.
Qed.

Lemma nothing_preprocessed_throws_witness :
  getFlagFiles Merge.nothing_processed = Throw DidNotPreprocess
  /\ mergeFlagFiles Merge.env Merge.nothing_processed None Merge.world
     = (Throw DidNotPreprocess, Merge.world)
  /\ dumpFlags Merge.env Merge.nothing_processed None Merge.world
     = (Throw DidNotPreprocess, Merge.world)
  /\ applyFlags Merge.env Merge.nothing_processed Merge.world
     = (Throw NoFlagsFound, Merge.world).
Proof.
  apply (nothing_preprocessed_throws Merge.env Merge.nothing_processed
           Merge.world).
  reflexivity.
Defined.

(** ** applyDefaults on values *)

Lemma res_fold_ext {A B : Type} (body1 body2 : A -> B -> Res A) (xs : list B) :
  (forall acc x, x ∈ xs -> body1 acc x = body2 acc x) ->
  forall acc, res_fold body1 acc xs = res_fold body2 acc xs.
Proof.
  induction xs as [|x xs IH]; intros Hext acc; [done|].
  cbn [res_fold]. rewrite Hext by apply list_elem_of_here.
  destruct (body2 acc x) as [acc'|e]; simpl; [|done].
  apply IH. intros acc0 y Hy. apply Hext. by apply list_elem_of_further.
Qed.

Lemma indexed_values {V : Type} (xs : list V) (key : string) (x : V) :
  (key, x) ∈ indexed xs -> x ∈ xs.
Proof.
  unfold indexed. intros Hin. apply list_elem_of_lookup in Hin as [i Hi].
  rewrite list_lookup_imap in Hi.
  destruct (xs !! i) as [y|] eqn:Hy; simpl in Hi; [|done].
  injection Hi as _ <-. by apply list_elem_of_lookup_2 in Hy.
Qed.

Lemma indexed_keys {V : Type} (xs : list V) : NoDup (map fst (indexed xs)).
Proof.
  unfold indexed. apply NoDup_alt. intros i j key Hi Hj.
  rewrite list_lookup_fmap, list_lookup_imap in Hi, Hj.
  destruct (xs !! i); simpl in Hi; [|done].
  destruct (xs !! j); simpl in Hj; [|done].
  injection Hi as <-. injection Hj as Hij. by apply (inj pretty) in Hij.
Qed.

(** The function is its loop over the own properties of the defaults. *)
Lemma defaultRecursive_loop (obj defaultObj : JValue) :
  defaultRecursive obj defaultObj
  = defaultLoop defaultRecursive obj (own_entries defaultObj).
Proof.
  destruct defaultObj as [| | | |s|kind props]; try reflexivity.
  unfold defaultLoop. cbn [defaultRecursive].
  apply res_fold_ext. intros acc [key dv] Hin. unfold defaultStep.
  apply indexed_values, list_elem_of_fmap in Hin as (c & -> & _).
  destruct (get_prop acc key) as [o|e]; simpl; [|done].
  by rewrite andb_false_r.
Qed.

Lemma defaultLoop_cons recurse objJoint key dv rest :
  defaultLoop recurse objJoint ((key, dv) :: rest)
  = res_bind (defaultStep (fun o => recurse o dv) objJoint key dv)
      (fun objJoint' => defaultLoop recurse objJoint' rest).
Proof. reflexivity. Qed.

(** A turn of the loop on an object stores a value under its key; on
    anything else it throws. *)
Lemma defaultStep_object recurse kind props key dv :
  defaultStep (fun o => recurse o dv) (JObj kind props) key dv
  = if typeof_object (entry props key) && typeof_object dv
    then res_bind (recurse (entry props key) dv)
           (fun merged => Ok (JObj kind (props_set key merged props)))
    else Ok (JObj kind (props_set key (nullish (entry props key) dv) props)).
Proof. reflexivity. Qed.

Lemma defaultStep_other recurse objJoint key dv :
  (forall kind props, objJoint <> JObj kind props) ->
  exists e, defaultStep (fun o => recurse o dv) objJoint key dv = Throw e.
Proof.
  intros Hno. unfold defaultStep.
  destruct objJoint as [| | | | |kind props]; simpl; try by eexists.
  - destruct (props_get key (indexed (JStr <$> Str.chars s))) as [o|]; simpl.
    + destruct (typeof_object o && typeof_object dv); [|by eexists].
      unfold res_bind. destruct (recurse _ _); by eexists.
    + by eexists.
  - by destruct (Hno kind props).
Qed.

Lemma defaultLoop_other recurse objJoint entries r :
  (forall kind props, objJoint <> JObj kind props) ->
  defaultLoop recurse objJoint entries = Ok r ->
  entries = [] /\ r = objJoint.
Proof.
  intros Hno. destruct entries as [|[key dv] rest].
  - intros [= <-]. done.
  - rewrite defaultLoop_cons.
    destruct (defaultStep_other recurse objJoint key dv Hno) as [e ->].
    discriminate.
Qed.

Lemma step_value_intro recurse kind props key dv objJoint' :
  defaultStep (fun o => recurse o dv) (JObj kind props) key dv = Ok objJoint' ->
  exists val,
    step_value recurse (entry props key) dv val
    /\ objJoint' = JObj kind (props_set key val props).
Proof.
  rewrite defaultStep_object. unfold step_value.
  destruct (typeof_object (entry props key) && typeof_object dv).
  - destruct (recurse (entry props key) dv) as [merged|e]; simpl; [|done].
    intros [= <-]. by exists merged.
  - intros [= <-]. by eexists.
Qed.

Lemma entry_set_ne (props : list (string * JValue)) key k v :
  key <> k -> entry (props_set key v props) k = entry props k.
Proof.
  intros Hne. unfold entry. rewrite props_get_set.
  by apply String.eqb_neq in Hne as ->.
Qed.

(** What the loop leaves in an object: the keys it does not visit keep
    their entries, and each key it visits holds the value of its turn,
    computed from the entry the object had at the start. *)
Lemma defaultLoop_object recurse entries kind props r :
  NoDup (map fst entries) ->
  defaultLoop recurse (JObj kind props) entries = Ok r ->
  exists rprops,
    r = JObj kind rprops
    /\ (forall key, key ∉ map fst entries ->
          props_get key rprops = props_get key props)
    /\ (forall key dv, (key, dv) ∈ entries ->
          exists val,
            step_value recurse (entry props key) dv val
            /\ props_get key rprops = Some val).
Proof.
  revert props. induction entries as [|[key0 dv0] rest IH]; intros props Hnd.
  - intros [= <-]. exists props. split; [done|]. split; [done|].
    intros key dv Hin. by apply elem_of_nil in Hin.
  - rewrite defaultLoop_cons. intros Hrun.
    apply res_bind_Ok in Hrun as (oj1 & Hstep & Hrest).
    apply step_value_intro in Hstep as (val0 & Hval0 & ->).
    cbn [map fst] in Hnd. apply NoDup_cons in Hnd as [Hfresh Hnd].
    destruct (IH _ Hnd Hrest) as (rprops & -> & Hframe & Hvals).
    exists rprops. split; [done|]. split.
    + intros key Hkey. cbn [map fst] in Hkey.
      apply not_elem_of_cons in Hkey as [Hne Hkey].
      rewrite (Hframe key Hkey), props_get_set.
      destruct (String.eqb key0 key) eqn:Heq; [|done].
      apply String.eqb_eq in Heq. congruence.
    + intros key dv Hin. apply elem_of_cons in Hin as [[= -> ->]|Hin].
      * exists val0. split; [done|].
        rewrite (Hframe key0 Hfresh), props_get_set.
        by rewrite String.eqb_refl.
      * destruct (Hvals key dv Hin) as (val & Hval & Hget).
        exists val. split; [|done].
        assert (key0 <> key) as Hne.
        { intros ->. apply Hfresh, list_elem_of_fmap. by exists (key, dv). }
        by rewrite entry_set_ne in Hval.
Qed.

Lemma defaultLoop_shape recurse entries kind props r :
  defaultLoop recurse (JObj kind props) entries = Ok r ->
  exists rprops, r = JObj kind rprops.
Proof.
  revert props. induction entries as [|[key dv] rest IH]; intros props.
  - intros [= <-]. by eexists.
  - rewrite defaultLoop_cons. intros Hrun.
    apply res_bind_Ok in Hrun as (oj1 & Hstep & Hrest).
    apply step_value_intro in Hstep as (val & _ & ->). by eapply IH.
Qed.

(** The value returned is the object that was passed: an object stays an
    object of its kind, anything else comes back as it is. *)
Lemma defaultRecursive_typeof obj defaultObj r :
  defaultRecursive obj defaultObj = Ok r ->
  typeof_object r = typeof_object obj.
Proof.
  rewrite defaultRecursive_loop. intros Hrun.
  destruct obj as [| | | | |kind props];
    try (apply defaultLoop_other in Hrun as [_ ->]; done).
  by apply defaultLoop_shape in Hrun as [rprops ->].
Qed.

Lemma unique_keys_object kind props :
  unique_keys (JObj kind props) = true ->
  NoDup (map fst props)
  /\ forall key v, (key, v) ∈ props -> unique_keys v = true.
Proof.
  cbn [unique_keys]. intros [Hnd Hall]%andb_true_iff. split.
  - by apply bool_decide_eq_true in Hnd.
  - intros key v Hin. rewrite forallb_forall in Hall.
    by apply (Hall (key, v)), list_elem_of_In.
Qed.

Lemma unique_keys_entries (v : JValue) :
  unique_keys v = true ->
  NoDup (map fst (own_entries v))
  /\ forall key x, (key, x) ∈ own_entries v -> unique_keys x = true.
Proof.
  destruct v as [| | | |s|kind props]; cbn [own_entries];
    try (intros _; split; [apply NoDup_nil_2 | by intros ? ? ?%elem_of_nil]).
  - intros _. split; [apply indexed_keys|].
    intros key x Hin.
    by apply indexed_values, list_elem_of_fmap in Hin as (c & -> & _).
  - apply unique_keys_object.
Qed.

Lemma props_get_elem {V : Type} (props : list (string * V)) key (v : V) :
  NoDup (map fst props) -> (key, v) ∈ props -> props_get key props = Some v.
Proof.
  induction props as [|[k0 x] rest IH]; intros Hnd Hin.
  - by apply elem_of_nil in Hin.
  - cbn [map fst] in Hnd. apply NoDup_cons in Hnd as [Hfresh Hnd].
    apply elem_of_cons in Hin as [[= -> ->]|Hin]; simpl.
    + by rewrite String.eqb_refl.
    + destruct (String.eqb k0 key) eqn:Hk; [|by apply IH].
      apply String.eqb_eq in Hk. subst k0. exfalso.
      apply Hfresh, list_elem_of_fmap. by exists (key, v).
Qed.

Lemma props_get_Some_elem {V : Type} (props : list (string * V)) key (v : V) :
  props_get key props = Some v -> (key, v) ∈ props.
Proof.
  induction props as [|[k0 x] rest IH]; simpl; [done|].
  destruct (String.eqb k0 key) eqn:Hk.
  - apply String.eqb_eq in Hk. subst k0. intros [= ->]. apply list_elem_of_here.
  - intros Hget. by apply list_elem_of_further, IH.
Qed.

Lemma props_set_same {V : Type} (props : list (string * V)) key (v : V) :
  props_get key props = Some v -> props_set key v props = props.
Proof.
  induction props as [|[k0 x] rest IH]; simpl; [done|].
  destruct (String.eqb k0 key) eqn:Hk.
  - by intros [= ->].
  - intros Hget. by rewrite IH.
Qed.

(** A loop over entries whose values are all settled changes nothing. *)
Lemma defaultLoop_settled entries kind props :
  (forall key dv, (key, dv) ∈ entries ->
     exists v, props_get key props = Some v /\ settled v dv) ->
  defaultLoop defaultRecursive (JObj kind props) entries
  = Ok (JObj kind props).
Proof.
  induction entries as [|[key dv] rest IH]; intros Hall; [done|].
  rewrite defaultLoop_cons, defaultStep_object.
  destruct (Hall key dv) as (v & Hget & Hv); [apply list_elem_of_here|].
  assert (entry props key = v) as -> by (unfold entry; by rewrite Hget).
  unfold settled, step_value in Hv.
  destruct (typeof_object v && typeof_object dv).
  - rewrite Hv. cbn [res_bind]. rewrite (props_set_same _ _ _ Hget).
    apply IH. intros key' dv' Hin. apply Hall. by apply list_elem_of_further.
  - rewrite <- Hv, (props_set_same _ _ _ Hget). cbn [res_bind].
    apply IH. intros key' dv' Hin. apply Hall. by apply list_elem_of_further.
Qed.

Lemma nullish_self (v : JValue) : nullish v v = v.
Proof. by destruct v. Qed.

(** Defaulting an object or [null] against itself changes nothing. *)
Lemma defaultRecursive_self (x : JValue) :
  typeof_object x = true -> unique_keys x = true ->
  defaultRecursive x x = Ok x.
Proof.
  induction x as [| | | | |kind props IH] using JValue_nested_ind;
    try done.
  intros _ Huniq. apply unique_keys_object in Huniq as [Hnd Hchildren].
  rewrite defaultRecursive_loop. cbn [own_entries].
  apply defaultLoop_settled. intros key dv Hin.
  exists dv. split; [by apply props_get_elem|].
  unfold settled, step_value. rewrite andb_diag.
  destruct (typeof_object dv) eqn:Htype; [|by rewrite nullish_self].
  rewrite Forall_forall in IH. apply (IH (key, dv)); [done..|].
  by apply (Hchildren key).
Qed.

(** What a turn stores is settled, provided a second application changes
    nothing for the entry of the defaults it was computed from. *)
Lemma step_value_settled (o dv val : JValue) :
  unique_keys dv = true ->
  (typeof_object dv = true ->
   forall p r, defaultRecursive p dv = Ok r -> defaultRecursive r dv = Ok r) ->
  step_value defaultRecursive o dv val ->
  settled val dv.
Proof.
  intros Huniq IH. unfold settled, step_value.
  destruct (typeof_object o && typeof_object dv) eqn:Hboth.
  - apply andb_true_iff in Hboth as [Ho Hdv]. intros Hrun.
    rewrite (defaultRecursive_typeof _ _ _ Hrun), Ho, Hdv. cbn [andb].
    by apply (IH Hdv o).
  - intros ->. destruct (typeof_object dv) eqn:Hdv.
    + rewrite andb_true_r in Hboth.
      destruct o; try discriminate; cbn [nullish typeof_object andb]; try done.
      rewrite Hdv. cbn [andb]. by apply defaultRecursive_self.
    + rewrite andb_false_r. destruct o; cbn [nullish]; try done;
        by rewrite nullish_self.
Qed.

Lemma defaultRecursive_again (full : JValue) :
  unique_keys full = true ->
  forall partial r,
    defaultRecursive partial full = Ok r -> defaultRecursive r full = Ok r.
Proof.
  induction full as [| | | | |kind props IH] using JValue_nested_ind;
    intros Huniq partial r; rewrite !defaultRecursive_loop.
  1-4: by intros [= <-].
  - (* a string as defaults: its characters are not objects *)
    destruct (unique_keys_entries _ Huniq) as [Hnd _]. intros Hrun.
    destruct partial as [| | | | |pkind pprops];
      try (apply defaultLoop_other in Hrun as [-> ->]; done).
    destruct (defaultLoop_object _ _ _ _ _ Hnd Hrun)
      as (rprops & -> & _ & Hvals).
    apply defaultLoop_settled. intros key dv Hin.
    destruct (Hvals key dv Hin) as (val & Hval & Hget).
    exists val. split; [done|].
    apply indexed_values, list_elem_of_fmap in Hin as (c & -> & _).
    by apply (step_value_settled (entry pprops key)).
  - destruct (unique_keys_object _ _ Huniq) as [Hnd Hchildren].
    cbn [own_entries]. intros Hrun.
    destruct partial as [| | | | |pkind pprops];
      try (apply defaultLoop_other in Hrun as [-> ->]; done).
    destruct (defaultLoop_object _ _ _ _ _ Hnd Hrun)
      as (rprops & -> & _ & Hvals).
    apply defaultLoop_settled. intros key dv Hin.
    destruct (Hvals key dv Hin) as (val & Hval & Hget).
    exists val. split; [done|].
    apply (step_value_settled (entry pprops key)); [by apply (Hchildren key)| |done].
    intros _. rewrite Forall_forall in IH.
    apply (IH (key, dv)); [done | by apply (Hchildren key)].
Qed.

Lemma props_set_absent {V : Type} (props : list (string * V)) key (v : V) :
  props_get key props = None -> props_set key v props = props ++ [(key, v)].
Proof.
  induction props as [|[k0 x] rest IH]; simpl; [done|].
  destruct (String.eqb k0 key); [done|]. intros Hget. by rewrite IH.
Qed.

(** On an object that has none of the keys, the loop appends the entries of
    the defaults as they are. *)
Lemma defaultLoop_fresh entries kind props :
  NoDup (map fst entries) ->
  (forall key, key ∈ map fst entries -> props_get key props = None) ->
  defaultLoop defaultRecursive (JObj kind props) entries
  = Ok (JObj kind (props ++ entries)).
Proof.
  revert props. induction entries as [|[key dv] rest IH]; intros props Hnd Hfresh.
  - by rewrite app_nil_r.
  - cbn [map fst] in Hnd. apply NoDup_cons in Hnd as [Hkey Hnd].
    rewrite defaultLoop_cons, defaultStep_object.
    assert (props_get key props = None) as Hnone
      by (apply Hfresh, list_elem_of_here).
    assert (entry props key = JUndefined) as ->
      by (unfold entry; by rewrite Hnone).
    cbn [typeof_object andb nullish res_bind].
    rewrite (props_set_absent _ _ _ Hnone), IH; [|done|].
    + by rewrite <- app_assoc.
    + intros k Hk. rewrite props_get_app.
      rewrite Hfresh by (by apply list_elem_of_further).
      simpl. destruct (String.eqb key k) eqn:Heq; [|done].
      apply String.eqb_eq in Heq. by subst k.
Qed.

(** C7, as the code has it.  For defaults whose objects have pairwise
    different keys, none of them a name that objects or arrays inherit:
    applying the defaults a second time returns what the first application
    returned (and fails if the first application fails); and an empty object
    defaulted against an object or an array is a plain object with the
    entries of the defaults in their order, which is the defaults themselves
    when they are a plain object. *)
Theorem defaultRecursive_idempotent :
  (forall partial full,
      unique_keys full = true ->
      plain_keys full = true ->
      res_bind (defaultRecursive partial full)
        (fun once => defaultRecursive once full)
      = defaultRecursive partial full)
  /\ (forall kind props,
        unique_keys (JObj kind props) = true ->
        plain_keys (JObj kind props) = true ->
        defaultRecursive (JObj PlainObject []) (JObj kind props)
        = Ok (JObj PlainObject props)).
Proof.
  split.
  - intros partial full Huniq _.
    destruct (defaultRecursive partial full) as [once|e] eqn:Hrun; [|done].
    by apply (defaultRecursive_again full Huniq partial).
  - intros kind props Huniq _. apply unique_keys_object in Huniq as [Hnd _].
    rewrite defaultRecursive_loop. cbn [own_entries].
    by rewrite defaultLoop_fresh.
Qed.

Lemma defaultRecursive_idempotent_witness :
  res_bind (defaultRecursive Defaults.doc_obj Defaults.doc_defaultObj)
    (fun once => defaultRecursive once Defaults.doc_defaultObj)
  = defaultRecursive Defaults.doc_obj Defaults.doc_defaultObj
  /\ defaultRecursive (JObj PlainObject []) Defaults.defaultConfig
     = Ok Defaults.defaultConfig
  /\ defaultRecursive (JObj PlainObject []) (JArr [JNum 5; JNum 6])
     = Ok (JObj PlainObject [("0", JNum 5); ("1", JNum 6)]).
Proof.
  split; [|split].
  - apply (proj1 defaultRecursive_idempotent); vm_compute; reflexivity.
  - apply (proj2 defaultRecursive_idempotent PlainObject
             Defaults.defaultConfig_props); vm_compute; reflexivity.
  - apply (proj2 defaultRecursive_idempotent ArrayObject
             (indexed [JNum 5; JNum 6])); vm_compute; reflexivity.
Defined.

(** C7, the run that refutes the claim: the empty object defaulted against
    the array [[1]] is not that array, it is the object [{"0": 1}]. *)
Lemma defaultRecursive_array_defaults :
  unique_keys (JArr [JNum 1]) = true
  /\ plain_keys (JArr [JNum 1]) = true
  /\ defaultRecursive (JObj PlainObject []) (JArr [JNum 1])
     = Ok (JObj PlainObject [("0", JNum 1)])
  /\ defaultRecursive (JObj PlainObject []) (JArr [JNum 1])
     <> Ok (JArr [JNum 1]).
Proof. repeat split; vm_compute; [reflexivity..|discriminate]. Qed.

(** The example of the documentation of [defaultRecursive]. *)
Example defaultRecursive_doc :
  defaultRecursive Defaults.doc_obj Defaults.doc_defaultObj
  = Ok Defaults.doc_merged.
Proof. reflexivity. Qed.




(** The loop completes on an object when every recursive call it makes
    does. *)
Lemma defaultLoop_completes recurse entries kind props :
  NoDup (map fst entries) ->
  (forall key dv, (key, dv) ∈ entries ->
     typeof_object (entry props key) && typeof_object dv = true ->
     exists val, recurse (entry props key) dv = Ok val) ->
  exists r, defaultLoop recurse (JObj kind props) entries = Ok r.
Proof.
  revert props. induction entries as [|[key dv] rest IH]; intros props Hnd Hok.
  - by eexists.
  - cbn [map fst] in Hnd. apply NoDup_cons in Hnd as [Hkey Hnd].
    rewrite defaultLoop_cons, defaultStep_object.
    assert (forall val, exists r,
              defaultLoop recurse (JObj kind (props_set key val props)) rest
              = Ok r) as Hrest.
    { intros val. apply IH; [done|]. intros key' dv' Hin.
      assert (key <> key') as Hne.
      { intros ->. apply Hkey, list_elem_of_fmap. by exists (key', dv'). }
      rewrite entry_set_ne by done. apply Hok. by apply list_elem_of_further. }
    destruct (typeof_object (entry props key) && typeof_object dv) eqn:Hboth.
    + destruct (Hok key dv) as [val ->]; [apply list_elem_of_here | done|].
      apply Hrest.
    + apply Hrest.
Qed.

(** The call throws exactly in the cases that [clash_free] excludes. *)
Lemma defaultRecursive_clash_free (full : JValue) :
  unique_keys full = true ->
  forall obj,
    clash_free obj full = true <-> exists r, defaultRecursive obj full = Ok r.
Proof.
  induction full as [| | | |s|kind props IH] using JValue_nested_ind;
    intros Huniq obj; rewrite defaultRecursive_loop.
  1-4: (split; [intros _; by eexists | done]).
  - destruct (unique_keys_entries _ Huniq) as [Hnd _]. split.
    + destruct obj as [| | | | |okind oprops];
        try (destruct s; [intros _; by eexists | done]).
      intros _. apply defaultLoop_completes; [done|].
      intros key dv Hin.
      apply indexed_values, list_elem_of_fmap in Hin as (c & -> & _).
      by rewrite andb_false_r.
    + intros [r Hrun].
      destruct obj as [| | | | |okind oprops]; try done;
        apply defaultLoop_other in Hrun as [Hnil _]; try done;
        by destruct s.
  - destruct (unique_keys_object _ _ Huniq) as [Hnd Hchildren].
    cbn [own_entries]. rewrite Forall_forall in IH. split.
    + destruct obj as [| | | | |okind oprops];
        try (destruct props; [intros _; by eexists | done]).
      cbn [clash_free]. rewrite forallb_forall. intros Hfree.
      apply defaultLoop_completes; [done|].
      intros key dv Hin Hboth.
      specialize (Hfree (key, dv)). cbn beta iota in Hfree.
      rewrite Hboth in Hfree.
      apply (IH (key, dv)); [done | by apply (Hchildren key) |].
      by apply Hfree, list_elem_of_In.
    + intros [r Hrun].
      destruct obj as [| | | | |okind oprops];
        try (apply defaultLoop_other in Hrun as [-> _]; done).
      cbn [clash_free]. apply forallb_forall. intros [key dv] Hin.
      apply list_elem_of_In in Hin.
      destruct (defaultLoop_object _ _ _ _ _ Hnd Hrun)
        as (rprops & _ & _ & Hvals).
      destruct (Hvals key dv Hin) as (val & Hval & _).
      unfold step_value in Hval.
      destruct (typeof_object (entry oprops key) && typeof_object dv);
        [|done].
      apply (IH (key, dv)); [done | by apply (Hchildren key) |].
      by exists val.
Qed.

(** ** applyDefaults on the store *)

#[local] Set Warnings "-clear-no-such-hyp".

Section StoreFacts.

Local Abbreviation loc := Store.loc.
Local Abbreviation Cell := Store.Cell.
Local Abbreviation mkCell := Store.mkCell.
Local Abbreviation Val := Store.Val.
Local Abbreviation VUndefined := Store.VUndefined.
Local Abbreviation VNull := Store.VNull.
Local Abbreviation VBool := Store.VBool.
Local Abbreviation VNum := Store.VNum.
Local Abbreviation VStr := Store.VStr.
Local Abbreviation VRef := Store.VRef.
Local Abbreviation repr := Store.repr.
Local Abbreviation owns := Store.owns.
Local Abbreviation props_rel := Store.props_rel.

Implicit Types (σ : gmap loc Cell) (G F : gset loc) (v : Val) (t : JValue).

Lemma repr_object σ G v kind tprops :
  repr σ G v (JObj kind tprops)
  <-> exists l props,
        v = VRef l /\ l ∈ G /\ σ !! l = Some (mkCell kind props)
        /\ props_rel (fun _ => repr σ G) props tprops.
Proof.
  cbn [Store.repr].
  assert (forall props,
            (fix all (props : list (string * Val))
               (tprops : list (string * JValue)) {struct tprops} : Prop :=
               match props, tprops with
               | [], [] => True
               | (k, x) :: props', (k', t') :: tprops' =>
                   k = k' /\ repr σ G x t' /\ all props' tprops'
               | _, _ => False
               end) props tprops
            <-> props_rel (fun _ => repr σ G) props tprops) as Hall.
  { induction tprops as [|[k' t'] tprops IH]; intros [|[k x] props].
    - split; [intros _; constructor | done].
    - split; [done | intros H; inversion H].
    - split; [done | intros H; inversion H].
    - rewrite IH. split.
      + intros (-> & Hx & Hrest). by constructor.
      + intros H. inversion H as [|? ? ? ? [Hk Hx] Hrest]; subst.
        simpl in *. by subst. }
  split; intros (l & props & H1 & H2 & H3 & H4); exists l, props;
    repeat split; try done; by apply Hall.
Qed.

Lemma owns_object σ F v kind tprops :
  owns σ F v (JObj kind tprops)
  <-> exists l props (region : string -> gset loc),
        v = VRef l /\ l ∈ F /\ σ !! l = Some (mkCell kind props)
        /\ NoDup (map fst props)
        /\ (forall k, region k ⊆ F /\ l ∉ region k)
        /\ (forall k k', k <> k' -> region k ## region k')
        /\ props_rel (fun k => owns σ (region k)) props tprops.
Proof.
  cbn [Store.owns].
  assert (forall (region : string -> gset loc) props,
            (fix all (props : list (string * Val))
               (tprops : list (string * JValue)) {struct tprops} : Prop :=
               match props, tprops with
               | [], [] => True
               | (k, x) :: props', (k', t') :: tprops' =>
                   k = k' /\ owns σ (region k) x t' /\ all props' tprops'
               | _, _ => False
               end) props tprops
            <-> props_rel (fun k => owns σ (region k)) props tprops) as Hall.
  { intros region.
    induction tprops as [|[k' t'] tprops IH]; intros [|[k x] props].
    - split; [intros _; constructor | done].
    - split; [done | intros H; inversion H].
    - split; [done | intros H; inversion H].
    - rewrite IH. split.
      + intros (-> & Hx & Hrest). by constructor.
      + intros H. inversion H as [|? ? ? ? [Hk Hx] Hrest]; subst.
        simpl in *. by subst. }
  split; intros (l & props & region & H1 & H2 & H3 & H4 & H5 & H6 & H7);
    exists l, props, region; repeat split; try done; try apply H5;
    by apply Hall.
Qed.

Lemma props_rel_impl (R R' : string -> Val -> JValue -> Prop) props tprops :
  props_rel R props tprops ->
  Forall (fun kt => forall x, R (fst kt) x (snd kt) -> R' (fst kt) x (snd kt))
    tprops ->
  props_rel R' props tprops.
Proof.
  unfold props_rel. induction 1 as [|[k x] [k' t'] props tprops [Hk HR] _ IH];
    intros Himpl; [constructor|].
  simpl in *. subst k'. inversion Himpl as [|? ? Hhere Hrest]; subst.
  constructor; [|by apply IH]. split; [done|]. by apply Hhere.
Qed.

Lemma props_rel_keys (R : string -> Val -> JValue -> Prop) props tprops :
  props_rel R props tprops -> map fst props = map fst tprops.
Proof.
  induction 1 as [|[k x] [k' t'] props tprops [Hk _] _ IH]; [done|].
  simpl in *. by rewrite Hk, IH.
Qed.

Lemma props_rel_get (R : string -> Val -> JValue -> Prop) props tprops key :
  props_rel R props tprops ->
  match props_get key props, props_get key tprops with
  | Some x, Some t' => R key x t'
  | None, None => True
  | _, _ => False
  end.
Proof.
  induction 1 as [|[k x] [k' t'] props tprops [Hk HR] _ IH]; [done|].
  simpl in *. subst k'. destruct (String.eqb k key) eqn:Heq; [|done].
  apply String.eqb_eq in Heq. by subst k.
Qed.

Lemma props_rel_others (R R' : string -> Val -> JValue -> Prop)
    props tprops key :
  props_rel R props tprops ->
  key ∉ map fst props ->
  (forall k x' t', k <> key -> R k x' t' -> R' k x' t') ->
  props_rel R' props tprops.
Proof.
  intros Hrel Hfresh Hother.
  induction Hrel as [|[k x0] [k' t0] props tprops [Hk HR] _ IH];
    [constructor|].
  simpl in *. subst k'. apply not_elem_of_cons in Hfresh as [Hne Hfresh].
  constructor; [|by apply IH]. split; [done|]. simpl. by apply Hother.
Qed.

Lemma props_rel_set (R R' : string -> Val -> JValue -> Prop)
    props tprops key x t :
  props_rel R props tprops ->
  NoDup (map fst props) ->
  (forall k x' t', k <> key -> R k x' t' -> R' k x' t') ->
  R' key x t ->
  props_rel R' (props_set key x props) (props_set key t tprops).
Proof.
  intros Hrel Hnd Hother Hnew.
  induction Hrel as [|[k x0] [k' t0] props tprops [Hk HR] Hrest IH]; simpl.
  - by repeat constructor.
  - simpl in Hk. subst k'. cbn [map fst] in Hnd.
    apply NoDup_cons in Hnd as [Hfresh Hnd].
    destruct (String.eqb k key) eqn:Heq.
    + apply String.eqb_eq in Heq. subst k. constructor; [done|].
      by apply (props_rel_others R R' props tprops key).
    + apply String.eqb_neq in Heq. constructor; [|by apply IH].
      split; [done|]. by apply Hother.
Qed.

Lemma repr_mono σ G G' t :
  G ⊆ G' -> forall v, repr σ G v t -> repr σ G' v t.
Proof.
  intros Hsub.
  induction t as [| | | | |kind tprops IH] using JValue_nested_ind;
    intros v; try done.
  rewrite !repr_object. intros (l & props & -> & Hl & Hcell & Hrel).
  exists l, props. repeat split; [set_solver | done |].
  apply (props_rel_impl _ _ _ _ Hrel).
  eapply Forall_impl; [exact IH|]. intros [k t'] Ht' x. apply Ht'.
Qed.

(** A store that agrees on the region represents the same values. *)
Lemma repr_frame σ σ' G t :
  (forall l, l ∈ G -> σ' !! l = σ !! l) ->
  forall v, repr σ G v t -> repr σ' G v t.
Proof.
  intros Hsame.
  induction t as [| | | | |kind tprops IH] using JValue_nested_ind;
    intros v; try done.
  rewrite !repr_object. intros (l & props & -> & Hl & Hcell & Hrel).
  exists l, props. repeat split; [done | by rewrite Hsame |].
  apply (props_rel_impl _ _ _ _ Hrel).
  eapply Forall_impl; [exact IH|]. intros [k t'] Ht' x. apply Ht'.
Qed.

Lemma owns_frame t :
  forall σ σ' F v,
    (forall l, l ∈ F -> σ' !! l = σ !! l) ->
    owns σ F v t -> owns σ' F v t.
Proof.
  induction t as [| | | | |kind tprops IH] using JValue_nested_ind;
    intros σ σ' F v Hsame; try done.
  rewrite !owns_object.
  intros (l & props & region & -> & Hl & Hcell & Hnd & Hreg & Hdisj & Hrel).
  exists l, props, region. repeat split; try done; try apply Hreg.
  { by rewrite Hsame. }
  apply (props_rel_impl _ _ _ _ Hrel).
  eapply Forall_impl; [exact IH|]. intros [k t'] Ht' x. simpl.
  apply Ht'. intros l' Hl'. apply Hsame. by apply (proj1 (Hreg k)).
Qed.

(** What is owned is represented. *)
Lemma owns_repr t :
  forall σ F v, owns σ F v t -> repr σ F v t.
Proof.
  induction t as [| | | | |kind tprops IH] using JValue_nested_ind;
    intros σ F v; try done.
  rewrite owns_object, repr_object.
  intros (l & props & region & -> & Hl & Hcell & Hnd & Hreg & Hdisj & Hrel).
  exists l, props. repeat split; try done.
  apply (props_rel_impl _ _ _ _ Hrel).
  eapply Forall_impl; [exact IH|]. intros [k t'] Ht' x Hx. simpl in *.
  apply (repr_mono σ (region k)); [apply Hreg | by apply Ht'].
Qed.

Lemma repr_typeof σ G v t :
  repr σ G v t -> Store.typeof_object v = typeof_object t.
Proof.
  destruct t; try (by intros ->).
  rewrite repr_object. by intros (l & ? & -> & _).
Qed.

Lemma repr_nullish σ G v t dv tdv :
  repr σ G v t -> repr σ G dv tdv ->
  repr σ G (Store.nullish v dv) (nullish t tdv).
Proof.
  intros Hv Hdv. destruct t; try (by rewrite Hv).
  apply repr_object in Hv as Hv'. destruct Hv' as (l & ? & -> & _). done.
Qed.

Lemma store_write σ l kind props key x :
  σ !! l = Some (mkCell kind props) ->
  Store.write (VRef l) key x σ
  = Some (Ok tt, <[l := mkCell kind (props_set key x props)]> σ).
Proof. intros Hcell. unfold Store.write, Store.set_prop. by rewrite Hcell. Qed.

Lemma store_step recurse σ l kind props defaultObj key dv :
  σ !! l = Some (mkCell kind props) ->
  Store.get_prop σ defaultObj key = Ok dv ->
  Store.defaultStep recurse (VRef l) defaultObj key σ
  = let o := default VUndefined (props_get key props) in
    if Store.typeof_object o && Store.typeof_object dv then
      match recurse o dv σ with
      | Some (Ok merged, σ1) => Store.write (VRef l) key merged σ1
      | Some (Throw e, σ1) => Some (Throw e, σ1)
      | None => None
      end
    else Store.write (VRef l) key (Store.nullish o dv) σ.
Proof.
  intros Hcell Hdv.
  unfold Store.defaultStep, Store.run_bind, Store.read.
  rewrite Hdv. unfold Store.get_prop at 1. unfold Store.own_entries.
  rewrite Hcell. cbn [Store.cell_props].
  by destruct (Store.typeof_object _ && Store.typeof_object dv).
Qed.

Section Loop.

Variable fuel' : nat.
Variable σ0 : gmap loc Cell.
Variable l : loc.
Variable kind : ObjKind.
Variables F G : gset loc.
Variable region : string -> gset loc.
Variable defaultObj : Val.

Hypothesis Hl : l ∈ F.
Hypothesis Hregion : forall k, region k ⊆ F /\ l ∉ region k.
Hypothesis Hdisjoint : forall k k', k <> k' -> region k ## region k'.
Hypothesis Hapart : F ## G.

Lemma store_loop (rest : list (string * JValue)) :
  NoDup (map fst rest) ->
  (forall σ, (forall l', l' ∉ F -> σ !! l' = σ0 !! l') ->
     forall key tdv, (key, tdv) ∈ rest ->
       exists dv, Store.get_prop σ defaultObj key = Ok dv
                  /\ repr σ0 G dv tdv) ->
  (forall key tdv, (key, tdv) ∈ rest ->
     typeof_object tdv = true -> refines fuel' tdv) ->
  forall σ props tprops,
    σ !! l = Some (mkCell kind props) ->
    (forall l', l' ∉ F -> σ !! l' = σ0 !! l') ->
    NoDup (map fst props) ->
    props_rel (entry_state G region σ rest) props tprops ->
    exists out σ',
      Store.for_each
        (Store.defaultStep (Store.defaultRecursive fuel') (VRef l) defaultObj)
        (map fst rest) σ
      = Some (out, σ')
      /\ (forall l', l' ∉ F -> σ' !! l' = σ0 !! l')
      /\ match defaultLoop defaultRecursive (JObj kind tprops) rest with
         | Ok r =>
             out = Ok tt
             /\ exists props' tprops',
                  r = JObj kind tprops'
                  /\ σ' !! l = Some (mkCell kind props')
                  /\ props_rel (fun k => repr σ' (region k ∪ G))
                       props' tprops'
         | Throw _ => out = Throw TypeError
         end.
Proof.
  induction rest as [|[key tdv] rest IH];
    intros Hnd Hdefaults Hchildren σ props tprops Hcell Hframe Hkeys Hrel.
  - exists (Ok tt), σ. split; [done|]. split; [done|].
    cbn [defaultLoop res_fold]. split; [done|].
    exists props, tprops. repeat split; [done|].
    apply (props_rel_impl _ _ _ _ Hrel). apply Forall_forall.
    intros [k t'] _ x. unfold entry_state. cbn [fst snd map].
    rewrite bool_decide_eq_false_2; [done | by intros ?%elem_of_nil].
  - cbn [map fst] in Hnd. apply NoDup_cons in Hnd as [Hkey Hnd].
    destruct (Hdefaults σ Hframe key tdv) as (dv & Hdv & Hdvrepr);
      [apply list_elem_of_here|].
    pose proof (props_rel_get _ _ _ key Hrel) as Hget.
    set (o := default VUndefined (props_get key props)).
    set (to := entry tprops key).
    assert (repr σ G dv tdv) as Hdvσ.
    { apply (repr_frame σ0); [|done]. intros l' Hl'. apply Hframe.
      set_solver. }
    assert (forall k, region k ## G) as HregionG.
    { intros k. pose proof (Hregion k). set_solver. }
    assert (l ∉ G) as HlG by set_solver.
    assert (typeof_object to = true -> owns σ (region key) o to) as Ho_owns.
    { unfold o, to, entry.
      destruct (props_get key props), (props_get key tprops); try done.
      unfold entry_state in Hget. cbn [map fst] in Hget.
      by rewrite bool_decide_eq_true_2 in Hget by apply list_elem_of_here. }
    assert (repr σ (region key ∪ G) o to) as Ho_repr.
    { unfold o, to, entry.
      destruct (props_get key props), (props_get key tprops); try done.
      unfold entry_state in Hget. cbn [map fst] in Hget.
      rewrite bool_decide_eq_true_2 in Hget by apply list_elem_of_here.
      apply (repr_mono σ (region key)); [set_solver|]. by apply owns_repr. }
    assert (Store.typeof_object o = typeof_object to) as Htypeof_o
      by (by eapply repr_typeof).
    assert (Store.typeof_object dv = typeof_object tdv) as Htypeof_dv
      by (by eapply repr_typeof).
    (* the rest of the loop, once the cell holds the new entry *)
    assert (forall σ1 xnew tnew,
              (forall l', l' ∉ region key -> σ1 !! l' = σ !! l') ->
              repr σ1 (region key ∪ G) xnew tnew ->
              exists out σ',
                Store.for_each
                  (Store.defaultStep (Store.defaultRecursive fuel') (VRef l)
                     defaultObj)
                  (map fst rest)
                  (<[l := mkCell kind (props_set key xnew props)]> σ1)
                = Some (out, σ')
                /\ (forall l', l' ∉ F -> σ' !! l' = σ0 !! l')
                /\ match defaultLoop defaultRecursive
                           (JObj kind (props_set key tnew tprops)) rest with
                   | Ok r =>
                       out = Ok tt
                       /\ exists props' tprops',
                            r = JObj kind tprops'
                            /\ σ' !! l = Some (mkCell kind props')
                            /\ props_rel (fun k => repr σ' (region k ∪ G))
                                 props' tprops'
                   | Throw _ => out = Throw TypeError
                   end) as Hnext.
    { intros σ1 xnew tnew Hframe1 Hnew.
      assert (forall R l', l' ∈ R -> l ∉ R -> R ## region key ->
                (<[l := mkCell kind (props_set key xnew props)]> σ1) !! l'
                = σ !! l') as Hsame.
      { intros R l' Hl' HlR HR. rewrite lookup_insert_ne by set_solver.
        apply Hframe1. set_solver. }
      apply (IH Hnd) with (props := props_set key xnew props).
      - intros σ' Hσ' k t' Hin. apply (Hdefaults σ' Hσ' k t').
        by apply list_elem_of_further.
      - intros k t' Hin. apply (Hchildren k t').
        by apply list_elem_of_further.
      - by rewrite lookup_insert_eq.
      - intros l' Hl'. rewrite lookup_insert_ne by set_solver.
        rewrite Hframe1; [by apply Hframe|].
        pose proof (Hregion key). set_solver.
      - by apply props_set_keys.
      - apply (props_rel_set _ _ _ _ _ _ _ Hrel Hkeys).
        + intros k x' t' Hne. unfold entry_state. cbn [map fst].
          destruct (decide (k ∈ map fst rest)) as [Hin|Hout].
          * rewrite !bool_decide_eq_true_2
              by (done || by apply list_elem_of_further).
            apply owns_frame. intros l' Hl'.
            apply (Hsame (region k)); [done | apply Hregion |].
            by apply Hdisjoint.
          * rewrite !bool_decide_eq_false_2
              by (done || by intros [?|?]%elem_of_cons).
            apply repr_frame. intros l' Hl'.
            apply (Hsame (region k ∪ G)); [done | |].
            -- pose proof (Hregion k). set_solver.
            -- pose proof (Hdisjoint k key Hne). pose proof (HregionG key).
               set_solver.
        + unfold entry_state. rewrite bool_decide_eq_false_2 by done.
          apply (repr_frame σ1); [|done]. intros l' Hl'.
          apply lookup_insert_ne. pose proof (Hregion key). set_solver. }
    cbn [map fst Store.for_each]. unfold Store.run_bind at 1.
    rewrite (store_step _ _ _ _ _ _ _ _ Hcell Hdv). cbv zeta. fold o.
    rewrite defaultLoop_cons, defaultStep_object. fold to.
    rewrite Htypeof_o, Htypeof_dv.
    destruct (typeof_object to && typeof_object tdv) eqn:Hboth.
    + apply andb_true_iff in Hboth as [Hto Htdv].
      destruct (Hchildren key tdv (list_elem_of_here _ _) Htdv
                  σ (region key) G o dv to (Ho_owns Hto) Hdvσ (HregionG key))
        as (out1 & σ1 & Hrun1 & Hframe1 & Hres1).
      rewrite Hrun1.
      destruct (defaultRecursive to tdv) as [merged|e].
      * destruct Hres1 as [-> Hmerged]. cbn [res_bind].
        assert (σ1 !! l = Some (mkCell kind props)) as Hcell1.
        { rewrite Hframe1; [done | apply Hregion]. }
        rewrite (store_write _ _ _ _ _ _ Hcell1).
        by apply Hnext.
      * subst out1. cbn [res_bind]. exists (Throw TypeError), σ1.
        split; [done|]. split; [|done].
        intros l' Hl'. rewrite Hframe1; [by apply Hframe|].
        pose proof (Hregion key). set_solver.
    + rewrite (store_write _ _ _ _ _ _ Hcell). cbn [res_bind].
      apply Hnext; [done|].
      apply repr_nullish; [done|].
      apply (repr_mono σ G); [set_solver | done].
Qed.

End Loop.

Lemma height_entry kind props key (t : JValue) :
  (key, t) ∈ props -> (height t < height (JObj kind props))%nat.
Proof.
  cbn [height]. induction props as [|[k t0] props IH]; intros Hin.
  - by apply elem_of_nil in Hin.
  - cbn [foldr snd]. apply elem_of_cons in Hin as [[= <- <-]|Hin].
    + lia.
    + specialize (IH Hin). lia.
Qed.

Lemma indexed_rel (R : Val -> JValue -> Prop) (cs : list string) :
  (forall c, R (VStr c) (JStr c)) ->
  props_rel (fun _ => R) (indexed (VStr <$> cs)) (indexed (JStr <$> cs)).
Proof.
  intros HR. unfold indexed, Store.props_rel.
  assert (forall g : nat -> string,
            Forall2
              (fun (kx : string * Val) (kt : string * JValue) =>
                 fst kx = fst kt /\ R (snd kx) (snd kt))
              (imap (fun (i : nat) (x : Val) => (g i, x)) (VStr <$> cs))
              (imap (fun (i : nat) (x : JValue) => (g i, x)) (JStr <$> cs)))
    as Hgen.
  { induction cs as [|c cs IH]; intros g; [constructor|].
    simpl. constructor; [split; [done | apply HR]|].
    apply (IH (g ∘ S)). }
  apply Hgen.
Qed.

(** The properties of the defaults in the store are those of the tree. *)
Lemma repr_entries σ G v t :
  repr σ G v t ->
  props_rel (fun _ => repr σ G) (Store.own_entries σ v) (own_entries t).
Proof.
  destruct t as [| | | |s|kind tprops]; try (intros ->; constructor).
  - intros ->. cbn [Store.own_entries own_entries]. by apply indexed_rel.
  - rewrite repr_object. intros (l & props & -> & _ & Hcell & Hrel).
    cbn [Store.own_entries own_entries]. by rewrite Hcell.
Qed.

(** A turn of the loop on a value that is not an object throws. *)
Lemma store_step_other recurse σ obj defaultObj key dv :
  (forall l, obj <> VRef l) ->
  Store.get_prop σ defaultObj key = Ok dv ->
  Store.defaultStep recurse obj defaultObj key σ = Some (Throw TypeError, σ).
Proof.
  intros Hno Hdv. unfold Store.defaultStep, Store.run_bind, Store.read.
  rewrite Hdv.
  destruct obj as [| | | |s|l]; try done.
  - cbn [Store.get_prop Store.own_entries].
    destruct (props_get key (indexed (VStr <$> Str.chars s))) as [o|] eqn:Ho;
      [|done].
    apply props_get_Some_elem, indexed_values, list_elem_of_fmap in Ho
      as (c & -> & _).
    done.
  - by destruct (Hno l).
Qed.

Lemma owns_not_object σ F v t :
  owns σ F v t -> (forall kind props, t <> JObj kind props) ->
  (forall l, v <> VRef l) /\ forall σ' G, repr σ' G v t.
Proof.
  intros Hv Hno. destruct t as [| | | | |kind props];
    try (rewrite Hv; split; [done | by intros σ' G']).
  by destruct (Hno kind props).
Qed.

Lemma store_refines_step (td : JValue) (fuel' : nat) :
  unique_keys td = true ->
  (forall key tdv, (key, tdv) ∈ own_entries td ->
     typeof_object tdv = true -> refines fuel' tdv) ->
  refines (S fuel') td.
Proof.
  intros Huniq Hchildren σ F G obj def t Howns Hrepr HFG.
  pose proof (repr_entries _ _ _ _ Hrepr) as Hentries.
  destruct (unique_keys_entries _ Huniq) as [Hnd _].
  assert (forall σ', (forall l', l' ∉ F -> σ' !! l' = σ !! l') ->
            forall key tdv, (key, tdv) ∈ own_entries td ->
              exists dv, Store.get_prop σ' def key = Ok dv
                         /\ repr σ G dv tdv) as Hdefaults.
  { intros σ' Hσ' key tdv Hin.
    assert (Store.own_entries σ' def = Store.own_entries σ def) as Hsame.
    { destruct def as [| | | | |ld]; try done.
      destruct td as [| | | | |dkind dprops]; try done.
      apply repr_object in Hrepr as (? & ? & [= <-] & Hld & _).
      cbn [Store.own_entries]. rewrite Hσ'; [done | set_solver]. }
    pose proof (props_rel_get _ _ _ key Hentries) as Hget.
    rewrite (props_get_elem _ _ _ Hnd Hin) in Hget.
    destruct (props_get key (Store.own_entries σ def)) as [dv|] eqn:Hdv;
      [|done].
    exists dv. split; [|done].
    destruct def; try done; unfold Store.get_prop; by rewrite Hsame, Hdv. }
  cbn [Store.defaultRecursive]. unfold Store.run_bind at 1.
  unfold Store.for_in_keys. rewrite (props_rel_keys _ _ _ Hentries).
  unfold Store.run_bind. rewrite defaultRecursive_loop.
  assert ((forall kind tprops, t <> JObj kind tprops)
          \/ exists kind tprops, t = JObj kind tprops) as [Hprim|Hobj].
  { destruct t; try (left; done). right. by eexists _, _. }
  - destruct (owns_not_object _ _ _ _ Howns Hprim) as [Hnoref Hreads].
    destruct (own_entries td) as [|[key tdv] rest] eqn:Hent.
    + exists (Ok obj), σ. split; [done|]. split; [done|]. split; [done|].
      apply Hreads.
    + destruct (Hdefaults σ (fun _ _ => eq_refl) key tdv) as (dv & Hdv & _);
        [apply list_elem_of_here|].
      cbn [map fst Store.for_each]. unfold Store.run_bind.
      rewrite (store_step_other _ _ _ _ _ _ Hnoref Hdv).
      exists (Throw TypeError), σ. split; [done|]. split; [done|].
      rewrite defaultLoop_cons.
      by destruct (defaultStep_other defaultRecursive t key tdv Hprim)
        as [e ->].
  - destruct Hobj as (kind & tprops & ->).
    apply owns_object in Howns
      as (l & props & region & -> & Hl & Hcell & Hkeys & Hreg & Hdisj & Hrel).
    destruct (store_loop fuel' σ l kind F G region def Hl Hreg Hdisj HFG
                (own_entries td) Hnd Hdefaults Hchildren σ props tprops Hcell
                (fun _ _ => eq_refl) Hkeys)
      as (out & σ' & Hrun & Hframe & Hres).
    { apply (props_rel_impl _ _ _ _ Hrel). apply Forall_forall.
      intros [k t'] _ x Hx. unfold entry_state. cbn [fst snd] in *.
      destruct (bool_decide _); [done|].
      apply (repr_mono σ (region k)); [set_solver|]. by apply owns_repr. }
    rewrite Hrun.
    destruct (defaultLoop defaultRecursive (JObj kind tprops) (own_entries td))
      as [r|e].
    + destruct Hres as (-> & props' & tprops' & -> & Hcell' & Hrel').
      exists (Ok (VRef l)), σ'. split; [done|]. split; [done|]. split; [done|].
      apply repr_object. exists l, props'.
      repeat split; [set_solver | done |].
      apply (props_rel_impl _ _ _ _ Hrel'). apply Forall_forall.
      intros [k t'] _ x. cbn [fst snd]. apply repr_mono.
      pose proof (Hreg k). set_solver.
    + subst out. by exists (Throw TypeError), σ'.
Qed.

(** The run on the store refines the function on values, with any fuel
    above the depth of the defaults. *)
Lemma store_refines (td : JValue) :
  unique_keys td = true ->
  forall fuel, (height td < fuel)%nat -> refines fuel td.
Proof.
  induction td as [| | | |s|kind props IH] using JValue_nested_ind;
    intros Huniq [|fuel'] Hfuel; try lia;
    apply store_refines_step; try done.
  1-4: (intros key tdv Hin; by apply elem_of_nil in Hin).
  - intros key tdv Hin.
    by apply indexed_values, list_elem_of_fmap in Hin as (c & -> & _).
  - destruct (unique_keys_object _ _ Huniq) as [_ Hchildren].
    cbn [own_entries]. intros key tdv Hin _. rewrite Forall_forall in IH.
    apply (IH (key, tdv) Hin); [by apply (Hchildren key)|].
    pose proof (height_entry kind props key tdv Hin). cbn [snd]. lia.
Qed.

Lemma store_write_dom σ v key x out σ' :
  Store.write v key x σ = Some (out, σ') -> dom σ' = dom σ.
Proof.
  unfold Store.write, Store.set_prop.
  destruct v as [| | | | |l]; try (by intros [= _ <-]).
  destruct (σ !! l) as [cell|] eqn:Hcell; [|by intros [= _ <-]].
  intros [= _ <-]. apply dom_insert_lookup_L. by rewrite Hcell.
Qed.

(** The run creates no cell and frees none. *)
Lemma store_dom (fuel : nat) :
  forall obj defaultObj σ out σ',
    Store.defaultRecursive fuel obj defaultObj σ = Some (out, σ') ->
    dom σ' = dom σ.
Proof.
  induction fuel as [|fuel' IH]; intros obj def σ out σ'; [done|].
  cbn [Store.defaultRecursive]. unfold Store.run_bind at 1.
  unfold Store.for_in_keys. generalize (map fst (Store.own_entries σ def)).
  intros keys. unfold Store.run_bind.
  assert (forall σ1 out1 σ1',
            Store.for_each
              (Store.defaultStep (Store.defaultRecursive fuel') obj def)
              keys σ1 = Some (out1, σ1') ->
            dom σ1' = dom σ1) as Hloop.
  { induction keys as [|key keys IHkeys]; intros σ1 out1 σ1'.
    - by intros [= _ <-].
    - cbn [Store.for_each]. unfold Store.run_bind at 1.
      destruct (Store.defaultStep _ obj def key σ1) as [[[[]|e] σ2]|] eqn:Hstep;
        [| |done].
      + intros Hrest. rewrite (IHkeys _ _ _ Hrest).
        revert Hstep. unfold Store.defaultStep, Store.run_bind, Store.read.
        destruct (Store.get_prop σ1 obj key) as [o|e]; [|done].
        destruct (Store.get_prop σ1 def key) as [dv|e]; [|done].
        destruct (Store.typeof_object o && Store.typeof_object dv).
        * destruct (Store.defaultRecursive fuel' o dv σ1)
            as [[[merged|e] σ3]|] eqn:Hrec; [|done..].
          intros Hw. rewrite (store_write_dom _ _ _ _ _ _ Hw).
          by apply (IH _ _ _ _ _ Hrec).
        * apply store_write_dom.
      + intros [= _ <-].
        revert Hstep. unfold Store.defaultStep, Store.run_bind, Store.read.
        destruct (Store.get_prop σ1 obj key) as [o|e']; [|by intros [= _ <-]].
        destruct (Store.get_prop σ1 def key) as [dv|e']; [|by intros [= _ <-]].
        destruct (Store.typeof_object o && Store.typeof_object dv).
        * destruct (Store.defaultRecursive fuel' o dv σ1)
            as [[[merged|e'] σ3]|] eqn:Hrec; [| |done].
          -- intros Hw. rewrite (store_write_dom _ _ _ _ _ _ Hw).
             by apply (IH _ _ _ _ _ Hrec).
          -- intros [= _ <-]. by apply (IH _ _ _ _ _ Hrec).
        * apply store_write_dom. }
  destruct (Store.for_each _ keys σ) as [[[[]|e] σ1]|] eqn:Hrun; [| |done].
  - intros [= _ <-]. by apply (Hloop _ _ _ Hrun).
  - intros [= _ <-]. by apply (Hloop _ _ _ Hrun).
Qed.

(** *** A second application *)






(** *** Fresh layouts *)

Lemma elem_of_cells (a b l : nat) : l ∈ Store.cells a b <-> (a <= l < b)%nat.
Proof. unfold Store.cells. rewrite elem_of_set_seq. lia. Qed.

Lemma alloc_object kind tprops next σ :
  Store.alloc (JObj kind tprops) next σ
  = let '(props, (next', σ')) := Store.alloc_props tprops (S next) σ in
    (VRef next, (next', <[next := mkCell kind props]> σ')).
Proof. reflexivity. Qed.

(** What [alloc] lays out is owned by the cells it used, and it leaves the
    other cells as they were. *)
Lemma alloc_owns t :
  unique_keys t = true ->
  forall next σ v next' σ',
    Store.alloc t next σ = (v, (next', σ')) ->
    (next <= next')%nat
    /\ (forall l, l ∉ Store.cells next next' -> σ' !! l = σ !! l)
    /\ owns σ' (Store.cells next next') v t.
Proof.
  induction t as [| | | | |kind tprops IH] using JValue_nested_ind;
    intros Huniq next σ v next' σ';
    try (intros [= <- <- <-]; by repeat split).
  destruct (unique_keys_object _ _ Huniq) as [Hnd Hchildren].
  assert (forall n σn ps n' σn',
            Store.alloc_props tprops n σn = (ps, (n', σn')) ->
            (n <= n')%nat
            /\ (forall l, l ∉ Store.cells n n' -> σn' !! l = σn !! l)
            /\ map fst ps = map fst tprops
            /\ exists region : string -> gset loc,
                 (forall k, region k ⊆ Store.cells n n')
                 /\ (forall k k', k <> k' -> region k ## region k')
                 /\ props_rel (fun k => owns σn' (region k)) ps tprops)
    as Hprops.
  { clear Huniq. induction tprops as [|[k t'] rest IHrest];
      intros n σn ps n' σn'.
    - intros [= <- <- <-]. repeat split; [lia|].
      exists (fun _ => ∅). repeat split; [set_solver.. | constructor].
    - cbn [Store.alloc_props].
      destruct (Store.alloc t' n σn) as [x [n1 σ1]] eqn:Hhead.
      destruct (Store.alloc_props rest n1 σ1) as [ps' [n2 σ2]] eqn:Htail.
      intros [= <- <- <-].
      apply Forall_cons in IH as [IHhead IHtail].
      cbn [map fst] in Hnd. apply NoDup_cons in Hnd as [Hfresh Hnd].
      destruct (IHhead (Hchildren k t' (list_elem_of_here _ _))
                  _ _ _ _ _ Hhead) as (Hle1 & Hframe1 & Howns1).
      destruct (IHrest IHtail Hnd
                  (fun k0 t0 Hin =>
                     Hchildren k0 t0 (list_elem_of_further _ _ _ Hin))
                  _ _ _ _ _ Htail)
        as (Hle2 & Hframe2 & Hkeys & region & Hsub & Hdisj & Hrel).
      split; [lia|]. split.
      { intros l Hl.
        rewrite Hframe2, Hframe1; [done|..]; intros Hl'; apply Hl;
          apply elem_of_cells in Hl'; apply elem_of_cells; lia. }
      split; [cbn [map fst]; by rewrite Hkeys|].
      exists (fun k0 => if String.eqb k0 k then Store.cells n n1
                        else region k0).
      split; [|split].
      + intros k0. destruct (String.eqb k0 k).
        * intros l. rewrite !elem_of_cells. lia.
        * intros l Hl. apply Hsub in Hl. apply elem_of_cells in Hl.
          apply elem_of_cells. lia.
      + intros k0 k1 Hne.
        destruct (String.eqb k0 k) eqn:H0, (String.eqb k1 k) eqn:H1.
        * apply String.eqb_eq in H0, H1. congruence.
        * intros l Hl0 Hl1. apply Hsub in Hl1.
          apply elem_of_cells in Hl0, Hl1. lia.
        * intros l Hl0 Hl1. apply Hsub in Hl0.
          apply elem_of_cells in Hl0, Hl1. lia.
        * by apply Hdisj.
      + constructor.
        * split; [done|]. cbn [fst snd]. rewrite String.eqb_refl.
          apply (owns_frame _ σ1); [|done].
          intros l Hl. apply Hframe2. intros Hl'.
          apply elem_of_cells in Hl, Hl'. lia.
        * apply (props_rel_impl
                   (fun k0 => owns σ2 (region k0))
                   (fun k0 => owns σ2 (if String.eqb k0 k
                                       then Store.cells n n1 else region k0))
                   _ _ Hrel).
          apply Forall_forall.
          intros [k0 t0] Hin x0 Hx0. cbn [fst snd] in *.
          destruct (String.eqb k0 k) eqn:H0; [|done].
          apply String.eqb_eq in H0. subst k0. exfalso.
          apply Hfresh, list_elem_of_fmap. by exists (k, t0). }
  rewrite alloc_object.
  destruct (Store.alloc_props tprops (S next) σ) as [ps [n' σn']] eqn:Halloc.
  intros [= <- <- <-].
  destruct (Hprops _ _ _ _ _ Halloc)
    as (Hle & Hframe & Hkeys & region & Hsub & Hdisj & Hrel).
  split; [lia|]. split.
  { intros l Hl. rewrite elem_of_cells in Hl.
    rewrite lookup_insert_ne by lia. apply Hframe.
    rewrite elem_of_cells. lia. }
  apply owns_object. exists next, ps, region.
  split; [done|]. split; [rewrite elem_of_cells; lia|].
  split; [by rewrite lookup_insert_eq|]. split; [by rewrite Hkeys|].
  split.
  { intros k. split.
    - intros l Hl. apply Hsub in Hl. apply elem_of_cells in Hl.
      apply elem_of_cells. lia.
    - intros Hl. apply Hsub in Hl. apply elem_of_cells in Hl. lia. }
  split; [done|].
  apply (props_rel_impl _ _ _ _ Hrel). apply Forall_forall.
  intros [k0 t0] _ x. cbn [fst snd]. apply owns_frame.
  intros l Hl. apply lookup_insert_ne. apply Hsub in Hl.
  rewrite elem_of_cells in Hl. lia.
Qed.

(** Every pair of values can be laid out: the value first, the defaults
    after it.  The run on that store ends with the outcome of the function
    on values, without touching the cells of the defaults. *)
Theorem defaultRecursive_fresh_layout (t td : JValue) :
  unique_keys t = true -> unique_keys td = true ->
  forall obj n1 σ1 defaultObj n2 σ2,
    Store.alloc t 0 ∅ = (obj, (n1, σ1)) ->
    Store.alloc td n1 σ1 = (defaultObj, (n2, σ2)) ->
    exists out σ',
      Store.defaultRecursive (S (height td)) obj defaultObj σ2
      = Some (out, σ')
      /\ dom σ' = dom σ2
      /\ (forall l, l ∉ Store.cells 0 n1 -> σ' !! l = σ2 !! l)
      /\ repr σ' (Store.cells n1 n2) defaultObj td
      /\ match defaultRecursive t td with
         | Ok merged =>
             out = Ok obj
             /\ repr σ' (Store.cells 0 n1 ∪ Store.cells n1 n2) obj merged
         | Throw _ => out = Throw TypeError
         end.
Proof.
  intros Ht Htd obj n1 σ1 def n2 σ2 Hobj Hdef.
  destruct (alloc_owns t Ht _ _ _ _ _ Hobj) as (_ & _ & Howns1).
  destruct (alloc_owns td Htd _ _ _ _ _ Hdef) as (_ & Hframe2 & Howns2).
  assert (Store.cells 0 n1 ## Store.cells n1 n2) as Hapart.
  { intros l Hl1 Hl2. apply elem_of_cells in Hl1, Hl2. lia. }
  assert (owns σ2 (Store.cells 0 n1) obj t) as Howns.
  { apply (owns_frame _ σ1); [|done]. intros l Hl. apply Hframe2.
    intros Hl'. by apply (Hapart l). }
  pose proof (owns_repr _ _ _ _ Howns2) as Hrepr.
  destruct (store_refines td Htd (S (height td)) (Nat.lt_succ_diag_r _)
              σ2 _ _ obj def t Howns Hrepr Hapart)
    as (out & σ' & Hrun & Hframe & Hres).
  exists out, σ'. split; [done|].
  split; [by apply (store_dom _ _ _ _ _ _ Hrun)|]. split; [done|].
  split; [|done].
  apply (repr_frame σ2); [|done]. intros l Hl. apply Hframe.
  intros Hl'. by apply (Hapart l).
Qed.

End StoreFacts.

(** C9, as the code has it.  On a value that is a tree of cells [F] and
    defaults that live in cells [G] apart from them, no key of the defaults
    being a name that objects or arrays inherit, with any fuel above the
    depth of the defaults, the run ends; it creates no cell and writes to no
    cell outside [F], so the defaults read as before; and when no [null] of
    the value meets a default that has properties, it does not throw: it
    returns the very reference it was given, whose cells now hold the merged
    value. *)
Theorem defaultRecursive_in_place
    (σ : gmap Store.loc Store.Cell) (F G : gset Store.loc)
    (obj defaultObj : Store.Val) (t td : JValue) (fuel : nat) :
  Store.owns σ F obj t ->
  Store.repr σ G defaultObj td ->
  F ## G ->
  unique_keys td = true ->
  plain_keys td = true ->
  (height td < fuel)%nat ->
  exists out σ',
    Store.defaultRecursive fuel obj defaultObj σ = Some (out, σ')
    /\ dom σ' = dom σ
    /\ (forall l, l ∉ F -> σ' !! l = σ !! l)
    /\ Store.repr σ' G defaultObj td
    /\ (clash_free t td = true ->
        exists merged,
          defaultRecursive t td = Ok merged
          /\ out = Ok obj
          /\ Store.repr σ' (F ∪ G) obj merged).
Proof.
  intros Howns Hrepr Hapart Huniq _ Hfuel.
  destruct (store_refines td Huniq fuel Hfuel σ F G obj defaultObj t
              Howns Hrepr Hapart) as (out & σ' & Hrun & Hframe & Hres).
  exists out, σ'. split; [done|]. split; [by apply (store_dom _ _ _ _ _ _ Hrun)|].
  split; [done|]. split.
  - apply (repr_frame σ); [|done]. intros l Hl. apply Hframe. set_solver.
  - intros Hfree.
    apply (defaultRecursive_clash_free td Huniq) in Hfree as [merged Hmerged].
    rewrite Hmerged in Hres. by exists merged.
Qed.

(** The example of the documentation, laid out and run: the cells of the
    value hold the merged entries afterwards, the entry [b] still being the
    cell it was. *)
Example defaultRecursive_doc_store :
  Store.alloc Defaults.doc_obj 0 ∅ = (Store.VRef 0%nat, (2%nat, Cells.doc_value))
  /\ Store.alloc Defaults.doc_defaultObj 2 Cells.doc_value
     = (Store.VRef 2%nat, (4%nat, Cells.doc_store))
  /\ exists σ',
       Store.defaultRecursive 3 (Store.VRef 0%nat) (Store.VRef 2%nat)
         Cells.doc_store = Some (Ok (Store.VRef 0%nat), σ')
       /\ σ' !! 0%nat
          = Some (Cells.object [("a", Store.VNum 1); ("b", Store.VRef 1%nat)])
       /\ σ' !! 1%nat
          = Some (Cells.object [("c", Store.VNum 2); ("d", Store.VNum 4)]).
Proof.
  split; [by vm_compute|]. split; [by vm_compute|].
  eexists. split; [by vm_compute|]. split; by vm_compute.
Qed.

Lemma defaultRecursive_in_place_witness :
  exists out σ',
    Store.defaultRecursive 3 (Store.VRef 0%nat) (Store.VRef 2%nat)
      Cells.doc_store = Some (out, σ')
    /\ dom σ' = dom Cells.doc_store
    /\ (forall l, l ∉ Cells.doc_value_cells -> σ' !! l = Cells.doc_store !! l)
    /\ Store.repr σ' Cells.doc_default_cells (Store.VRef 2%nat)
         Defaults.doc_defaultObj
    /\ (clash_free Defaults.doc_obj Defaults.doc_defaultObj = true ->
        exists merged,
          defaultRecursive Defaults.doc_obj Defaults.doc_defaultObj = Ok merged
          /\ out = Ok (Store.VRef 0%nat)
          /\ Store.repr σ' (Cells.doc_value_cells ∪ Cells.doc_default_cells)
               (Store.VRef 0%nat) merged).
Proof.
  apply (defaultRecursive_in_place Cells.doc_store Cells.doc_value_cells
           Cells.doc_default_cells (Store.VRef 0%nat) (Store.VRef 2%nat)
           Defaults.doc_obj Defaults.doc_defaultObj 3).
  - apply owns_object.
    exists 0%nat, [("a", Store.VNum 1); ("b", Store.VRef 1%nat)],
      Cells.doc_region.
    split; [reflexivity|]. split; [by vm_compute|].
    split; [by vm_compute|]. split; [by apply (bool_decide_unpack _)|].
    split.
    { intros k. unfold Cells.doc_region, Cells.doc_value_cells.
      destruct (String.eqb k "b"); set_solver. }
    split.
    { intros k k' Hne. unfold Cells.doc_region.
      destruct (String.eqb k "b") eqn:Hk, (String.eqb k' "b") eqn:Hk';
        try set_solver.
      apply String.eqb_eq in Hk, Hk'. congruence. }
    repeat constructor. cbn [fst snd]. apply owns_object.
    exists 1%nat, [("c", Store.VNum 2)], (fun _ => ∅).
    split; [reflexivity|]. split; [by vm_compute|].
    split; [by vm_compute|]. split; [by apply (bool_decide_unpack _)|].
    split; [set_solver|]. split; [set_solver|]. by repeat constructor.
  - apply repr_object.
    exists 2%nat, [("a", Store.VNum 2); ("b", Store.VRef 3%nat)].
    split; [reflexivity|]. split; [by vm_compute|].
    split; [by vm_compute|].
    repeat constructor. cbn [fst snd]. apply repr_object.
    exists 3%nat, [("c", Store.VNum 3); ("d", Store.VNum 4)].
    split; [reflexivity|]. split; [by vm_compute|].
    split; [by vm_compute|]. by repeat constructor.
  - unfold Cells.doc_value_cells, Cells.doc_default_cells. set_solver.
  - by vm_compute.
  - by vm_compute.
  - simpl. lia.
Defined.

(** C9, the runs that refute the claim.  The empty object at cell 0,
    defaulted against [{a: 1}], is returned with the entry written into that
    same cell: the argument is modified.  And the value [{a: null}] against
    the defaults [{a: {b: 1}}] throws a [TypeError], on values and on the
    store alike. *)
Lemma defaultRecursive_mutates_and_throws :
  (Cells.empty_value !! 0%nat = Some (Cells.object [])
   /\ exists σ',
        Store.defaultRecursive 2 (Store.VRef 0%nat) (Store.VRef 1%nat)
          Cells.empty_value = Some (Ok (Store.VRef 0%nat), σ')
        /\ σ' !! 0%nat = Some (Cells.object [("a", Store.VNum 1)]))
  /\ defaultRecursive Defaults.null_entry Defaults.object_entry
     = Throw TypeError
  /\ fst <$> Store.defaultRecursive 3 (Store.VRef 0%nat) (Store.VRef 1%nat)
               Cells.null_value
     = Some (Throw TypeError).
Proof.
  split; [split; [by vm_compute|]|split; by vm_compute].
  eexists. split; [by vm_compute|]. by vm_compute.
Qed.

(** * Further properties of the code *)

(** ** downloadFile *)

Lemma downloadFile_none E file baseUrl :
  algorithm (h file) = "none" ->
  downloadFile E file baseUrl
  = (let! fileResponse := axios_get_io E (baseUrl +:+ f file) in
     if negb (status fileResponse =? 200) then
       io_throw (DownloadStatus (baseUrl +:+ f file) (baseUrl +:+ f file)
                   (status fileResponse))
     else
       let! fileHash := createHash_io E "SHA512" (data fileResponse) in
       let! _ := writeFileSync ("_cache/" +:+ fileHash) (data fileResponse) in
       io_ret ("_cache/" +:+ fileHash))%io.
Proof. intros Hnone. unfold downloadFile. simpl. by rewrite Hnone. Qed.

(** A cache hit: with a named algorithm and an entry at the cache path, the
    path is returned and the world is left as it was, without request, check
    of the content or write. *)
Lemma downloadFile_cache_hit E file baseUrl (w : World) :
  named_algorithm (algorithm (h file)) ->
  is_Some (fs w !! cache_route file) ->
  downloadFile E file baseUrl w = (Ok (cache_route file), w).
Proof.
  intros Hnamed Hhit. rewrite (downloadFile_named _ _ _ Hnamed).
  unfold io_bind, existsSync. by rewrite bool_decide_eq_true_2.
Qed.

(** X1.  A verified download: with a named algorithm, a cache directory
    that exists and no cache entry, when the request is answered with status
    200 by bytes whose digest is the declared one, the bytes are written at
    the cache path, which is returned; one request and one write is all that
    happens. *)
Theorem downloadFile_stores_verified_bytes
    E file baseUrl (w : World) response hex :
  named_algorithm (algorithm (h file)) ->
  cache_ready w hex ->
  fs w !! cache_route file = None ->
  axios_get E (cache_route file) = Some response ->
  status response = 200 ->
  hash_hex E (algorithm (h file)) (data response) = Some hex ->
  digest (h file) = DigestString hex ->
  downloadFile E file baseUrl w
  = (Ok (cache_route file),
     mkWorld (<[cache_route file := FsFile (data response)]> (fs w))
       (trace w ++ [HttpGet (cache_route file);
                    FileWrite (cache_route file) (data response)])).
Proof.
  intros Hnamed _ Hmiss Hget Hstatus Hhash Hhex.
  rewrite (downloadFile_named _ _ _ Hnamed).
  unfold io_bind, axios_get_io, createHash_io. exists_absent Hmiss.
  rewrite Hget, Hstatus. simpl. rewrite Hhash. simpl.
  rewrite Hhex. simpl. rewrite String.eqb_refl. simpl.
  unfold writeFileSync. simpl. by rewrite <- app_assoc.
Qed.

Lemma downloadFile_stores_verified_bytes_witness :
  downloadFile Scenario.tampered_env Cache.served_file Scenario.flags_base
    Cache.fresh
  = (Ok "_cache/8",
     mkWorld (<["_cache/8" := FsFile "tampered"]> (fs Cache.fresh))
       [HttpGet "_cache/8"; FileWrite "_cache/8" "tampered"]).
Proof.
  apply (downloadFile_stores_verified_bytes Scenario.tampered_env
           Cache.served_file Scenario.flags_base Cache.fresh
           (mkResponse 200 "OK" "tampered") "8").
  - repeat split; vm_compute; discriminate.
  - split; [by eexists | reflexivity].
  - reflexivity.
  - reflexivity.
  - reflexivity.
  - by vm_compute.
  - reflexivity.
Defined.

(** What a call that returns has done. *)
Lemma downloadFile_returns E file baseUrl (w w' : World) path :
  downloadFile E file baseUrl w = (Ok path, w') ->
  (exists name, path = "_cache/" +:+ name)
  /\ is_Some (fs w' !! path)
  /\ (forall p, p <> path -> fs w' !! p = fs w !! p)
  /\ (named_algorithm (algorithm (h file)) -> path = cache_route file).
Proof.
  unfold downloadFile. cbn [f h].
  destruct (String.eqb (Str.toUpperCase (algorithm (h file))) "MD5") eqn:Hmd5;
    [done|].
  destruct (String.eqb (Str.toUpperCase (algorithm (h file))) "SHA1")
    eqn:Hsha1; [done|].
  destruct (String.eqb (algorithm (h file)) "none") eqn:Hnone; cbn [negb].
  - unfold io_bind, axios_get_io, createHash_io, writeFileSync.
    destruct (axios_get E (baseUrl +:+ f file)) as [response|]; [|done].
    destruct (negb (status response =? 200)); [done|].
    destruct (hash_hex E "SHA512" (data response)) as [hex|]; [|done].
    cbn. intros [= <- <-]. cbn [fs].
    split; [by eexists|]. split; [by rewrite lookup_insert_eq|].
    split; [intros p Hp; by rewrite lookup_insert_ne|].
    intros (_ & _ & Hne). apply String.eqb_eq in Hnone. done.
  - unfold io_bind, existsSync, axios_get_io, createHash_io, writeFileSync.
    cbn [fst snd].
    destruct (bool_decide (is_Some (fs w !! _))) eqn:Hhit.
    + intros [= <- <-]. apply bool_decide_eq_true in Hhit.
      split; [by eexists|]. by repeat split.
    + destruct (axios_get E _) as [response|]; [|done].
      destruct (negb (status response =? 200)); [done|].
      destruct (hash_hex E _ (data response)) as [hex|]; [|done].
      cbn. destruct (digest_differs hex (digest (h file))); [done|].
      cbn. intros [= <- <-]. cbn [fs].
      split; [by eexists|]. split; [by rewrite lookup_insert_eq|].
      split; [intros p Hp; by rewrite lookup_insert_ne|]. done.
Qed.

(** X2.  The cache is addressed by the digest alone and its content is
    trusted: once a call with a named algorithm has returned, a further call
    for any file declared with the same digest, whatever its path, base URL
    or named algorithm, returns the same path and leaves the world as it is,
    without request or check of the stored bytes. *)
Theorem downloadFile_then_cache_hit
    E file baseUrl (w w1 : World) path file' baseUrl' :
  named_algorithm (algorithm (h file)) ->
  downloadFile E file baseUrl w = (Ok path, w1) ->
  named_algorithm (algorithm (h file')) ->
  digest (h file') = digest (h file) ->
  downloadFile E file' baseUrl' w1 = (Ok path, w1).
Proof.
  intros Hnamed Hrun Hnamed' Hdigest.
  destruct (downloadFile_returns _ _ _ _ _ _ Hrun) as (_ & Hsome & _ & Hpath).
  rewrite (Hpath Hnamed) in *.
  assert (cache_route file' = cache_route file) as Hroute
    by (unfold cache_route; by rewrite Hdigest).
  rewrite <- Hroute in *. by apply downloadFile_cache_hit.
Qed.

Lemma downloadFile_then_cache_hit_witness :
  downloadFile Scenario.tampered_env Cache.mirrored_file "https://mirror/"
    (mkWorld (<["_cache/8" := FsFile "tampered"]> (fs Cache.fresh))
       [HttpGet "_cache/8"; FileWrite "_cache/8" "tampered"])
  = (Ok "_cache/8",
     mkWorld (<["_cache/8" := FsFile "tampered"]> (fs Cache.fresh))
       [HttpGet "_cache/8"; FileWrite "_cache/8" "tampered"]).
Proof.
  apply (downloadFile_then_cache_hit Scenario.tampered_env Cache.served_file
           Scenario.flags_base Cache.fresh).
  - repeat split; vm_compute; discriminate.
  - vm_compute. reflexivity.
  - repeat split; vm_compute; discriminate.
  - reflexivity.
Defined.

(** X3.  A file declared with the algorithm ["none"] is fetched from
    [baseUrl + f] on every call, whatever the cache holds and whatever digest
    is declared; where the cache directory exists, the bytes of a 200 answer
    are stored under their own SHA-512 digest, and that path is returned. *)
Theorem downloadFile_unhashed E file baseUrl (w : World) response hex :
  algorithm (h file) = "none" ->
  cache_ready w hex ->
  axios_get E (baseUrl +:+ f file) = Some response ->
  status response = 200 ->
  hash_hex E "SHA512" (data response) = Some hex ->
  downloadFile E file baseUrl w
  = (Ok ("_cache/" +:+ hex),
     mkWorld (<["_cache/" +:+ hex := FsFile (data response)]> (fs w))
       (trace w ++ [HttpGet (baseUrl +:+ f file);
                    FileWrite ("_cache/" +:+ hex) (data response)])).
Proof.
  intros Hnone _ Hget Hstatus Hhash. rewrite (downloadFile_none _ _ _ Hnone).
  unfold io_bind, axios_get_io, createHash_io, writeFileSync.
  rewrite Hget, Hstatus. cbn. rewrite Hhash. cbn.
  by rewrite <- app_assoc.
Qed.

Lemma downloadFile_unhashed_witness :
  downloadFile Scenario.origin_env Cache.unhashed_file Scenario.flags_base
    (mkWorld (<["_cache/2" := FsFile "stale"]> (fs Cache.fresh)) [])
  = (Ok "_cache/2",
     mkWorld (<["_cache/2" := FsFile "{}"]>
                (<["_cache/2" := FsFile "stale"]> (fs Cache.fresh)))
       [HttpGet "https://rfo.sh/flags/flags.json";
        FileWrite "_cache/2" "{}"]).
Proof.
  assert (cache_ready
            (mkWorld (<["_cache/2" := FsFile "stale"]> (fs Cache.fresh)) [])
            "2") as Hready.
  { split; [|reflexivity]. exists []. by vm_compute. }
  exact (downloadFile_unhashed Scenario.origin_env Cache.unhashed_file
           Scenario.flags_base
           (mkWorld (<["_cache/2" := FsFile "stale"]> (fs Cache.fresh)) [])
           (mkResponse 200 "OK" "{}") "2" eq_refl Hready eq_refl eq_refl
           eq_refl).
Defined.

(** X4.  A request that is rejected, or answered with a status other than
    200, makes the call fail with a download error after that one request,
    and nothing is written; this holds on the checksummed branch (after a
    cache miss) and on the ["none"] branch alike. *)
Theorem downloadFile_failed_request E file baseUrl (w : World) :
  ~ legacy_algorithm (algorithm (h file)) ->
  (algorithm (h file) <> "none" -> fs w !! cache_route file = None) ->
  match axios_get E (request_target file baseUrl) with
  | Some response => status response <> 200
  | None => True
  end ->
  exists e,
    downloadFile E file baseUrl w
    = (Throw e,
       mkWorld (fs w) (trace w ++ [HttpGet (request_target file baseUrl)]))
    /\ kind_of e = DownloadFailed.
Proof.
  intros Hlegacy Hmiss Hanswer. unfold request_target in *.
  destruct (String.eqb (algorithm (h file)) "none") eqn:Hnone.
  - apply String.eqb_eq in Hnone. rewrite (downloadFile_none _ _ _ Hnone).
    unfold io_bind, axios_get_io.
    destruct (axios_get E (baseUrl +:+ f file)) as [response|];
      [|by eexists].
    apply Z.eqb_neq in Hanswer. rewrite Hanswer. cbn. by eexists.
  - apply String.eqb_neq in Hnone.
    assert (named_algorithm (algorithm (h file))) as Hnamed.
    { unfold named_algorithm, legacy_algorithm in *. tauto. }
    rewrite (downloadFile_named _ _ _ Hnamed).
    unfold io_bind, axios_get_io. exists_absent (Hmiss Hnone).
    destruct (axios_get E (cache_route file)) as [response|];
      [|by eexists].
    apply Z.eqb_neq in Hanswer. rewrite Hanswer. cbn. by eexists.
Qed.

Lemma downloadFile_failed_request_witness :
  exists e,
    downloadFile Cache.empty_env Cache.unhashed_file Scenario.flags_base
      Scenario.empty_world
    = (Throw e,
       mkWorld ∅ [HttpGet "https://rfo.sh/flags/flags.json"])
    /\ kind_of e = DownloadFailed.
Proof.
  apply (downloadFile_failed_request Cache.empty_env Cache.unhashed_file
           Scenario.flags_base Scenario.empty_world).
  - intros [H|H]; vm_compute in H; discriminate.
  - intros H. by vm_compute in H.
  - vm_compute. discriminate.
Defined.

(** X5.  The footprint of any call, whatever its outcome: at most one
    request and at most one write and no other event; a call that throws
    leaves every file as it was; a call that returns gives a path under
    [_cache/] that exists afterwards, and no other path has changed. *)
Theorem downloadFile_footprint E file baseUrl (w : World) :
  let '(r, w') := downloadFile E file baseUrl w in
  (exists evs,
      trace w' = (trace w ++ evs)%list
      /\ (length (List.filter is_HttpGet evs) <= 1)%nat
      /\ (length (List.filter is_FileWrite evs) <= 1)%nat
      /\ Forall (fun ev => is_HttpGet ev || is_FileWrite ev) evs)
  /\ match r with
     | Throw _ => fs w' = fs w
     | Ok path =>
         (exists entry, path = "_cache/" +:+ entry)
         /\ is_Some (fs w' !! path)
         /\ forall p, p <> path -> fs w' !! p = fs w !! p
     end.
Proof.
  assert (forall evs : list Event,
             (length (List.filter is_HttpGet evs) <= 1)%nat
             /\ (length (List.filter is_FileWrite evs) <= 1)%nat
             /\ Forall (fun ev => is_HttpGet ev || is_FileWrite ev) evs ->
             exists evs', (trace w ++ evs)%list = (trace w ++ evs')%list
               /\ (length (List.filter is_HttpGet evs') <= 1)%nat
               /\ (length (List.filter is_FileWrite evs') <= 1)%nat
               /\ Forall (fun ev => is_HttpGet ev || is_FileWrite ev) evs')
    as Hevs by (intros evs ?; by exists evs).
  assert (exists evs', trace w = (trace w ++ evs')%list
               /\ (length (List.filter is_HttpGet evs') <= 1)%nat
               /\ (length (List.filter is_FileWrite evs') <= 1)%nat
               /\ Forall (fun ev => is_HttpGet ev || is_FileWrite ev) evs')
    as Hnil.
  { exists []. rewrite app_nil_r. repeat split; cbn; try lia. constructor. }
  unfold downloadFile. cbn [f h].
  destruct (String.eqb (Str.toUpperCase (algorithm (h file))) "MD5");
    [by split|].
  destruct (String.eqb (Str.toUpperCase (algorithm (h file))) "SHA1");
    [by split|].
  destruct (String.eqb (algorithm (h file)) "none"); cbn [negb].
  - unfold io_bind, axios_get_io, createHash_io, writeFileSync.
    destruct (axios_get E (baseUrl +:+ f file)) as [response|].
    2:{ cbn. split; [|done]. apply Hevs. repeat split; cbn; try lia.
        by repeat constructor. }
    destruct (negb (status response =? 200)).
    { cbn. split; [|done]. apply Hevs. repeat split; cbn; try lia.
      by repeat constructor. }
    destruct (hash_hex E "SHA512" (data response)) as [hex|].
    2:{ cbn. split; [|done]. apply Hevs. repeat split; cbn; try lia.
        by repeat constructor. }
    cbn. split.
    + rewrite <- app_assoc. apply Hevs. repeat split; cbn; try lia.
      by repeat constructor.
    + split; [by eexists|]. split; [by rewrite lookup_insert_eq|].
      intros p Hp. by rewrite lookup_insert_ne.
  - unfold io_bind, existsSync, axios_get_io, createHash_io, writeFileSync.
    cbn [fst snd].
    destruct (bool_decide (is_Some (fs w !! _))) eqn:Hhit.
    { apply bool_decide_eq_true in Hhit. split; [done|].
      split; [by eexists|]. by split. }
    destruct (axios_get E _) as [response|].
    2:{ cbn. split; [|done]. apply Hevs. repeat split; cbn; try lia.
        by repeat constructor. }
    destruct (negb (status response =? 200)).
    { cbn. split; [|done]. apply Hevs. repeat split; cbn; try lia.
      by repeat constructor. }
    destruct (hash_hex E _ (data response)) as [hex|].
    2:{ cbn. split; [|done]. apply Hevs. repeat split; cbn; try lia.
        by repeat constructor. }
    cbn. destruct (digest_differs hex (digest (h file))).
    { cbn. split; [|done]. apply Hevs. repeat split; cbn; try lia.
      by repeat constructor. }
    cbn. split.
    + rewrite <- app_assoc. apply Hevs. repeat split; cbn; try lia.
      by repeat constructor.
    + split; [by eexists|]. split; [by rewrite lookup_insert_eq|].
      intros p Hp. by rewrite lookup_insert_ne.
Qed.

(** ** getFlagFiles *)

Lemma res_collect_filter {A : Type} (files_of : A -> Res (list string))
    (keep : A -> bool) (xs : list A) :
  (forall x, keep x = false -> files_of x = Ok []) ->
  res_collect files_of (List.filter keep xs) = res_collect files_of xs.
Proof.
  intros Hskip. induction xs as [|x xs IH]; [done|]. cbn [List.filter].
  destruct (keep x) eqn:Hx.
  - by rewrite !res_collect_cons, IH.
  - rewrite res_collect_cons, (Hskip x Hx), IH. cbn.
    by destruct (res_collect files_of xs).
Qed.

Lemma Object_values_filter (flagLists : ProcessedFlagList) :
  Object_values (enabled_items flagLists)
  = List.filter enabled (Object_values flagLists).
Proof.
  unfold Object_values, enabled_items.
  induction flagLists as [|[k item] rest IH]; [done|]. cbn.
  destruct (enabled item); cbn; by rewrite IH.
Qed.

Lemma filter_concat {A : Type} (keep : A -> bool) (xss : list (list A)) :
  List.filter keep (concat xss) = concat (map (List.filter keep) xss).
Proof.
  induction xss as [|xs xss IH]; [done|]. cbn.
  by rewrite List.filter_app, IH.
Qed.

(** X6.  Items that are switched off do not count: the result of
    [getFlagFiles], a list of files or an error, is the one obtained after
    removing every disabled item from every manifest.  In particular a
    selection that names no option is no error in a disabled item. *)
Theorem getFlagFiles_skips_disabled (this : RFO) :
  getFlagFiles this
  = getFlagFiles
      (mkRFO (map enabled_items (processedFlagList this)) (robloxPaths this)).
Proof.
  destruct (processedFlagList this) as [|m ms] eqn:Hms.
  - unfold getFlagFiles, hasProcessedFlags. by rewrite Hms.
  - rewrite !getFlagFiles_pushed by (cbn; by rewrite ?Hms).
    cbn [processedFlagList]. rewrite Hms. unfold pushed_all.
    rewrite map_map.
    rewrite (map_ext (fun m => Object_values (enabled_items m))
               (fun m => List.filter enabled (Object_values m)))
      by apply Object_values_filter.
    rewrite <- (map_map Object_values (List.filter enabled)).
    rewrite <- filter_concat. symmetry. apply res_collect_filter.
    intros item Hoff. unfold pushed_item_files. by rewrite Hoff.
Qed.

(** X7.  Manifests are resolved one after the other: the files of a list of
    manifests followed by another are the files of the first followed by the
    files of the second, and an error of the first list prevails. *)
Theorem getFlagFiles_app (ms1 ms2 : list ProcessedFlagList)
    (paths : list string) :
  ms1 <> [] -> ms2 <> [] ->
  getFlagFiles (mkRFO (ms1 ++ ms2) paths)
  = (let? files1 := getFlagFiles (mkRFO ms1 paths) in
     let? files2 := getFlagFiles (mkRFO ms2 paths) in
     Ok (files1 ++ files2)%list)%res.
Proof.
  intros H1 H2.
  rewrite (getFlagFiles_pushed (mkRFO (ms1 ++ ms2) paths))
    by (cbn; by destruct ms1).
  rewrite (getFlagFiles_pushed (mkRFO ms1 paths)) by done.
  rewrite (getFlagFiles_pushed (mkRFO ms2 paths)) by done.
  simpl processedFlagList. unfold pushed_all, ProcessedFlagList in *.
  rewrite map_app, concat_app, res_collect_app.
  destruct (res_collect pushed_item_files (concat (map Object_values ms1)));
    cbn; [|done].
  by destruct (res_collect pushed_item_files _).
Qed.

Lemma getFlagFiles_app_witness :
  getFlagFiles
    (mkRFO ([[("FastFlags", Flags.fastFlags "Vulkan")]]
            ++ [[("Tweaks", Flags.tweaks)]]) [])
  = (let? files1 :=
       getFlagFiles (mkRFO [[("FastFlags", Flags.fastFlags "Vulkan")]] []) in
     let? files2 := getFlagFiles (mkRFO [[("Tweaks", Flags.tweaks)]] []) in
     Ok (files1 ++ files2)%list)%res.
Proof.
  apply (getFlagFiles_app [[("FastFlags", Flags.fastFlags "Vulkan")]]
           [[("Tweaks", Flags.tweaks)]] []); discriminate.
Defined.

Lemma res_collect_Throw {A : Type} (files_of : A -> Res (list string))
    (xs : list A) e :
  res_collect files_of xs = Throw e ->
  exists x, x ∈ xs /\ files_of x = Throw e.
Proof.
  induction xs as [|x xs IH]; [done|]. rewrite res_collect_cons.
  destruct (files_of x) as [fx|e'] eqn:Hx; cbn.
  - destruct (res_collect files_of xs) as [l|e'']; [done|]. cbn.
    intros [= ->]. destruct IH as (y & Hy & Hthrow); [done|].
    exists y. split; [by apply list_elem_of_further|done].
  - intros [= ->]. exists x. split; [apply list_elem_of_here|done].
Qed.

Lemma res_collect_Ok {A : Type} (files_of : A -> Res (list string))
    (xs : list A) files :
  res_collect files_of xs = Ok files ->
  forall x, x ∈ xs -> exists fx, files_of x = Ok fx.
Proof.
  revert files. induction xs as [|x xs IH]; intros files.
  - intros _ y Hy. by apply elem_of_nil in Hy.
  - rewrite res_collect_cons.
    destruct (files_of x) as [fx|e'] eqn:Hx; cbn; [|done].
    destruct (res_collect files_of xs) as [l|e''] eqn:Hxs; [|done].
    intros _ y Hy. apply elem_of_cons in Hy as [->|Hy]; [by eexists|].
    by apply (IH l).
Qed.

Lemma pushed_files_multiple n options d value lo hi :
  pushed_files (MultipleChoice n options d value lo hi)
  = res_collect (option_pushed options) value.
Proof.
  unfold pushed_files. by rewrite pushFeature_multiple, res_map_app_nil.
Qed.

(** What a feature pushes, by the selected values that are no option. *)
Lemma pushed_files_outcome (feature : ProcessedFeature) :
  match pushed_files feature with
  | Throw e =>
      exists flag,
        (unknown_selection feature flag /\ inherited flag = false
         /\ e = InvalidFlagValue flag)
        \/ (inherited_selection feature flag /\ e = TypeError)
  | Ok _ =>
      forall flag,
        ~ unknown_selection feature flag /\ ~ inherited_selection feature flag
  end.
Proof.
  destruct feature as [n options d value lo hi | n options d value].
  - rewrite pushed_files_multiple.
    destruct (res_collect (option_pushed options) value) as [files|e] eqn:Hrun.
    + intros flag.
      assert (flag ∈ value -> options !! flag = None -> False) as Hno.
      { intros Hflag Hnone.
        destruct (res_collect_Ok _ _ _ Hrun flag Hflag) as (l & Hl).
        unfold option_pushed in Hl. rewrite Hnone in Hl.
        by destruct (inherited flag). }
      split.
      * intros [Hflag Hnone]. by apply Hno.
      * intros (Hflag & Hnone & _). by apply Hno.
    + destruct (res_collect_Throw _ _ _ Hrun) as (flag & Hflag & Hthrow).
      exists flag. unfold option_pushed in Hthrow.
      destruct (options !! flag) eqn:Hopt; [done|].
      destruct (inherited flag) eqn:Hinh; injection Hthrow as <-.
      * right. by repeat split.
      * left. by repeat split.
  - unfold pushed_files. cbn [pushFeature].
    destruct (Str.truthy value) eqn:Htruthy.
    + unfold pushOption.
      destruct (options !! value) as [files|] eqn:Hopt; cbn.
      * intros flag. split; [by intros []|].
        intros (Hflag & Hnone & _). cbn [selected options_of] in *.
        rewrite Htruthy in Hflag. apply list_elem_of_singleton in Hflag.
        subst flag. congruence.
      * destruct (inherited value) eqn:Hinh; cbn.
        -- exists value. right. split; [|done]. repeat split; [|done..].
           cbn [selected]. rewrite Htruthy. apply list_elem_of_here.
        -- intros flag. split; [by intros []|].
           intros (Hflag & _ & Hflag_inh). cbn [selected] in Hflag.
           rewrite Htruthy in Hflag. apply list_elem_of_singleton in Hflag.
           subst flag. congruence.
    + intros flag. split; [by intros []|].
      intros (Hflag & _). cbn [selected] in Hflag. rewrite Htruthy in Hflag.
      by apply elem_of_nil in Hflag.
Qed.

(** X8.  With at least one manifest, [getFlagFiles] fails in two ways only,
    both through a value selected in a feature of an enabled item that is
    no option of the feature.  A multi-choice feature fails with 'Invalid
    flag value' on such a value that finds nothing.  And any feature,
    multi-choice or single-choice, fails with a [TypeError] on such a value
    that is a name every object inherits, such as ["constructor"]: the
    look-up finds the inherited property, which cannot be spread.  When
    [getFlagFiles] returns, no enabled item holds a selection of either
    sort. *)
Theorem getFlagFiles_fails_on_selection_only (this : RFO) :
  processedFlagList this <> [] ->
  match getFlagFiles this with
  | Throw e =>
      exists item feature flag,
        item ∈ all_items (processedFlagList this)
        /\ enabled item = true
        /\ feature ∈ features item
        /\ ((unknown_selection feature flag /\ inherited flag = false
             /\ e = InvalidFlagValue flag)
            \/ (inherited_selection feature flag /\ e = TypeError))
  | Ok _ =>
      forall item feature flag,
        item ∈ all_items (processedFlagList this) ->
        enabled item = true ->
        feature ∈ features item ->
        ~ unknown_selection feature flag /\ ~ inherited_selection feature flag
  end.
Proof.
  intros Hne. rewrite (getFlagFiles_pushed _ Hne). unfold pushed_all.
  fold (all_items (processedFlagList this)).
  destruct (res_collect pushed_item_files _) as [files|e] eqn:Hrun.
  - intros item feature flag Hitem Hon Hfeature.
    destruct (res_collect_Ok _ _ _ Hrun item Hitem) as (fx & Hfx).
    unfold pushed_item_files in Hfx. rewrite Hon in Hfx.
    destruct (res_collect pushed_files (features item))
      as [ffiles|] eqn:Hfeatures; [|done].
    destruct (res_collect_Ok _ _ _ Hfeatures feature Hfeature) as (l & Hl).
    pose proof (pushed_files_outcome feature) as Hout.
    rewrite Hl in Hout. apply Hout.
  - destruct (res_collect_Throw _ _ _ Hrun) as (item & Hitem & Hthrow).
    unfold pushed_item_files in Hthrow.
    destruct (enabled item) eqn:Hon; [|done].
    destruct (res_collect pushed_files (features item))
      as [|e'] eqn:Hfeatures; [done|].
    cbn in Hthrow. injection Hthrow as ->.
    destruct (res_collect_Throw _ _ _ Hfeatures)
      as (feature & Hfeature & Hfthrow).
    pose proof (pushed_files_outcome feature) as Hout.
    rewrite Hfthrow in Hout. destruct Hout as (flag & Hflag).
    exists item, feature, flag. by repeat split.
Qed.

Lemma getFlagFiles_fails_on_selection_only_witness :
  (exists item feature flag,
      item ∈ all_items [[("Tweaks", Selection.tweaks)]]
      /\ enabled item = true
      /\ feature ∈ features item
      /\ ((unknown_selection feature flag /\ inherited flag = false
           /\ InvalidFlagValue "turbo" = InvalidFlagValue flag)
          \/ (inherited_selection feature flag
              /\ InvalidFlagValue "turbo" = TypeError)))
  /\ (exists item feature flag,
        item ∈ all_items [[("FastFlags", Flags.fastFlags "constructor")]]
        /\ enabled item = true
        /\ feature ∈ features item
        /\ ((unknown_selection feature flag /\ inherited flag = false
             /\ TypeError = InvalidFlagValue flag)
            \/ (inherited_selection feature flag /\ TypeError = TypeError))).
Proof.
  split.
  - apply (getFlagFiles_fails_on_selection_only
             (Flags.rfo_with Selection.tweaks)).
    discriminate.
  - apply (getFlagFiles_fails_on_selection_only
             (Flags.rfo_with (Flags.fastFlags "constructor"))).
    discriminate.
Defined.

(** X21.  Where every value selected in an enabled item is an option of its
    feature or a name that finds nothing, [getFlagFiles] on at least one
    manifest returns what the specification describes: manifests in load
    order, items in the order of the mapping, and for each enabled item the
    base files followed by the files of each feature in listed order, a
    multi-choice feature failing on a selected value without option and a
    single-choice feature contributing only for a truthy value with an
    option.  For one enabled item with one multi-choice feature whose
    selection is its default, every default value having an option, the
    result is the base files followed by the files of the default
    options. *)
Theorem getFlagFiles_resolves :
  (forall this : RFO,
      processedFlagList this <> [] ->
      own_selections (processedFlagList this) = true ->
      getFlagFiles this = spec_resolveFiles (processedFlagList this))
  /\ (forall key item fname options dflt lo hi fileLists paths,
        enabled item = true ->
        features item = [MultipleChoice fname options dflt dflt lo hi] ->
        mapM (fun flag => options !! flag) dflt = Some fileLists ->
        getFlagFiles (mkRFO [[(key, item)]] paths)
        = Ok (base item ++ concat fileLists)).
Proof.
  split.
  - intros this Hne Hown.
    by rewrite (getFlagFiles_pushed _ Hne), pushed_all_spec.
  - intros key item fname options dflt lo hi fileLists paths Hen Hfeat Hopts.
    rewrite getFlagFiles_pushed by done. cbn [processedFlagList].
    unfold pushed_all, Object_values. cbn [map concat snd app].
    rewrite res_collect_cons, res_collect_nil. unfold pushed_item_files.
    rewrite Hen, Hfeat, res_collect_cons, res_collect_nil.
    rewrite pushed_files_multiple, (res_collect_lookups _ _ _ Hopts).
    simpl. by rewrite !app_nil_r.
Qed.

Lemma getFlagFiles_resolves_witness :
  getFlagFiles (Flags.rfo_with (Flags.fastFlags "Vulkan"))
  = spec_resolveFiles [[("FastFlags", Flags.fastFlags "Vulkan")]]
  /\ getFlagFiles (Flags.rfo_with Flags.tweaks)
     = Ok ["_cache/base1"; "_cache/base2";
           "_cache/sound"; "_cache/fps1"; "_cache/fps2"].
Proof.
  split.
  - apply (proj1 getFlagFiles_resolves); [discriminate | by vm_compute].
  - apply (proj2 getFlagFiles_resolves "Tweaks" Flags.tweaks "Extras"
             Flags.extras_options ["sound"; "fps"] 0 2
             [["_cache/sound"]; ["_cache/fps1"; "_cache/fps2"]]).
    + reflexivity.
    + reflexivity.
    + vm_compute. reflexivity.
Defined.

(** ** dumpFlags and mergeFlagFiles *)

Lemma dump_loop_readable E (w : World) (files : list string)
    (docs : list JValue) :
  Forall2 (readable E w) files docs ->
  forall props,
    io_fold (dump_step E) (JObj PlainObject props) files w
    = (Ok (JObj PlainObject
             (fold_left (fun props '(key, v) => props_set key v props)
                (zip files docs) props)), w).
Proof.
  induction 1 as [|path doc files docs (text & Hfile & Hparse) _ IH];
    intros props; [done|].
  cbn [io_fold zip zip_with fold_left]. rewrite <- IH.
  unfold io_bind at 1, dump_step at 1.
  unfold io_bind, existsSync, readFileSync, json5_parse_io.
  rewrite bool_decide_eq_true_2 by (by rewrite Hfile).
  cbn. rewrite Hfile. cbn. by rewrite Hparse.
Qed.

Lemma fold_set_fresh {V : Type} (entries init : list (string * V)) :
  NoDup (map fst (init ++ entries)) ->
  fold_left (fun props '(key, v) => props_set key v props) entries init
  = (init ++ entries)%list.
Proof.
  revert init. induction entries as [|[key v] entries IH]; intros init Hnd.
  - by rewrite app_nil_r.
  - cbn [fold_left].
    assert (props_get key init = None) as Hfresh.
    { apply props_get_None. rewrite map_app in Hnd.
      apply NoDup_app in Hnd as (_ & Hdisj & _). intros Hin.
      apply (Hdisj key Hin). cbn. apply list_elem_of_here. }
    rewrite (props_set_absent _ _ _ Hfresh), IH; rewrite <- app_assoc; done.
Qed.

Lemma elem_of_rev_iff {A : Type} (x : A) (l : list A) : x ∈ rev l <-> x ∈ l.
Proof. rewrite !list_elem_of_In. symmetry. apply in_rev. Qed.

Lemma fold_set_get {V : Type} (entries init : list (string * V)) key :
  key ∈ map fst
          (fold_left (fun props '(key, v) => props_set key v props)
             entries init)
  <-> key ∈ map fst init \/ key ∈ map fst entries.
Proof.
  rewrite <- !props_get_is_Some, props_get_fold_set.
  destruct (props_get key (rev entries)) as [v|] eqn:Hrev.
  - split; [|by eexists]. intros _. right.
    apply props_get_Some_elem in Hrev.
    apply (proj1 (elem_of_rev_iff _ _)) in Hrev.
    apply props_get_is_Some, list_elem_of_fmap. by exists (key, v).
  - split; [by left|]. intros [H|[v Hv]]; [done|].
    apply props_get_Some_elem in Hv.
    apply (proj2 (elem_of_rev_iff _ _)) in Hv.
    assert (is_Some (props_get key (rev entries))) as [? Hsome].
    { apply props_get_is_Some, list_elem_of_fmap. by exists (key, v). }
    congruence.
Qed.

Lemma readable_agree E (w : World) path doc1 doc2 :
  readable E w path doc1 -> readable E w path doc2 -> doc1 = doc2.
Proof.
  intros (t1 & Hf1 & Hp1) (t2 & Hf2 & Hp2). congruence.
Qed.

(** X9.  On files that exist and parse, none of whose paths is written as
    an array index is or is [__proto__], [dumpFlags] returns an object with
    one property per distinct path, holding the document of that file, and
    reads nothing else and changes nothing; when no path is listed twice the
    properties are the paths in the order given, and [mergeFlagFiles] on the
    same list is the successive spread of the values of the dump. *)
Theorem dumpFlags_entries E (this : RFO) (w : World) files docs :
  Forall2 (readable E w) files docs ->
  Forall (fun path => ordinary_key path = true) files ->
  exists props,
    dumpFlags E this (Some files) w = (Ok (JObj PlainObject props), w)
    /\ NoDup (map fst props)
    /\ (forall path, path ∈ map fst props <-> path ∈ files)
    /\ (forall path doc,
          path ∈ files -> readable E w path doc ->
          props_get path props = Some doc)
    /\ (NoDup files ->
        props = zip files docs
        /\ mergeFlagFiles E this (Some files) w
           = (Ok (merge_docs (Object_values props)), w)).
Proof.
  intros Hread _. eexists.
  split; [apply (dump_loop_readable _ _ _ _ Hread)|].
  assert (map fst (zip files docs) = files) as Hfst.
  { apply fst_zip. by rewrite (Forall2_length _ _ _ Hread). }
  split; [apply fold_set_keys; constructor|].
  split; [|split].
  - intros path. rewrite fold_set_get, Hfst. cbn. split; [|by right].
    intros [H|H]; [by apply elem_of_nil in H|done].
  - intros path doc Hin Hdoc. rewrite props_get_fold_set. cbn.
    assert (exists doc', props_get path (rev (zip files docs)) = Some doc'
                         /\ (path, doc') ∈ zip files docs)
      as (doc' & -> & Hpair).
    { assert (is_Some (props_get path (rev (zip files docs)))) as [d Hd].
      { apply props_get_is_Some. rewrite map_rev, Hfst.
        by apply elem_of_rev_iff. }
      exists d. split; [done|].
      apply props_get_Some_elem in Hd.
      by apply (proj1 (elem_of_rev_iff _ _)) in Hd. }
    f_equal. apply list_elem_of_lookup in Hpair as [i Hi].
    apply lookup_zip_with_Some in Hi as (x & y & [= <- <-] & Hx & Hy).
    destruct (Forall2_lookup_l _ _ _ _ _ Hread Hx) as (y' & Hy' & Hr).
    rewrite Hy in Hy'. injection Hy' as <-.
    apply (readable_agree _ _ _ _ _ Hr Hdoc).
  - intros Hnd.
    assert (fold_left (fun props '(key, v) => props_set key v props)
              (zip files docs) [] = zip files docs) as ->.
    { rewrite fold_set_fresh; [done|]. cbn. by rewrite Hfst. }
    split; [done|].
    assert (Object_values (zip files docs) = docs) as ->.
    { apply snd_zip. by rewrite (Forall2_length _ _ _ Hread). }
    rewrite mergeFlagFiles_given.
    pose proof (merge_loop_readable E w files docs (JObj PlainObject [])
                  Hread []) as Hloop.
    rewrite app_nil_r in Hloop. by rewrite Hloop.
Qed.

Lemma dumpFlags_entries_witness :
  exists props,
    dumpFlags Merge.env Merge.nothing_processed
      (Some ["_cache/f1"; "_cache/f2"]) Merge.world
    = (Ok (JObj PlainObject props), Merge.world)
    /\ NoDup (map fst props)
    /\ (forall path,
          path ∈ map fst props <-> path ∈ ["_cache/f1"; "_cache/f2"])
    /\ (forall path doc,
          path ∈ ["_cache/f1"; "_cache/f2"] ->
          readable Merge.env Merge.world path doc ->
          props_get path props = Some doc)
    /\ (NoDup ["_cache/f1"; "_cache/f2"] ->
        props = zip ["_cache/f1"; "_cache/f2"] [Merge.doc1; Merge.doc2]
        /\ mergeFlagFiles Merge.env Merge.nothing_processed
             (Some ["_cache/f1"; "_cache/f2"]) Merge.world
           = (Ok (merge_docs (Object_values props)), Merge.world)).
Proof.
  apply (dumpFlags_entries Merge.env Merge.nothing_processed Merge.world
           ["_cache/f1"; "_cache/f2"] [Merge.doc1; Merge.doc2]).
  - repeat constructor; eexists; split; reflexivity.
  - repeat constructor.
Defined.

Lemma steps_fail_alike E props merged path (w : World) :
  (exists e,
      dump_step E (JObj PlainObject props) path w = (Throw e, w)
      /\ merge_step E merged path w = (Throw e, w))
  \/ (exists props' merged',
         dump_step E (JObj PlainObject props) path w
         = (Ok (JObj PlainObject props'), w)
         /\ merge_step E merged path w = (Ok merged', w)).
Proof.
  unfold dump_step, merge_step, io_bind, existsSync, readFileSync,
    json5_parse_io.
  destruct (bool_decide (is_Some (fs w !! path))); cbn [negb];
    [|left; by eexists].
  destruct (fs w !! path) as [[text|]|]; [|left; by eexists..].
  destruct (json5_parse E text) as [doc|]; [|left; by eexists].
  right. by eexists _, _.
Qed.

Lemma io_fold_cons {A B : Type} (body : A -> B -> IO A) acc x rest
    (w : World) :
  io_fold body acc (x :: rest) w
  = match body acc x w with
    | (Ok acc', w') => io_fold body acc' rest w'
    | (Throw e, w') => (Throw e, w')
    end.
Proof. reflexivity. Qed.

Lemma loops_fail_alike E (files : list string) :
  forall props merged (w : World),
    snd (io_fold (dump_step E) (JObj PlainObject props) files w) = w
    /\ snd (io_fold (merge_step E) merged files w) = w
    /\ forall e,
         fst (io_fold (dump_step E) (JObj PlainObject props) files w)
         = Throw e
         <-> fst (io_fold (merge_step E) merged files w) = Throw e.
Proof.
  induction files as [|path files IH]; intros props merged w; [done|].
  rewrite !io_fold_cons.
  destruct (steps_fail_alike E props merged path w)
    as [(e & -> & ->)|(props' & merged' & -> & ->)]; [done|apply IH].
Qed.

Lemma dumpFlags_mergeFlagFiles_alike_loops E (this : RFO) files (w : World) :
  snd (dumpFlags E this (Some files) w) = w
  /\ snd (mergeFlagFiles E this (Some files) w) = w
  /\ forall e,
       fst (dumpFlags E this (Some files) w) = Throw e
       <-> fst (mergeFlagFiles E this (Some files) w) = Throw e.
Proof. apply (loops_fail_alike E files [] (JObj PlainObject []) w). Qed.

(** X10.  [dumpFlags] and [mergeFlagFiles] change nothing in the world,
    and on the same argument they fail alike: either both return, or both
    throw the same error. *)
Theorem dumpFlags_mergeFlagFiles_alike E (this : RFO)
    (flagFiles : option (list string)) (w : World) :
  snd (dumpFlags E this flagFiles w) = w
  /\ snd (mergeFlagFiles E this flagFiles w) = w
  /\ forall e,
       fst (dumpFlags E this flagFiles w) = Throw e
       <-> fst (mergeFlagFiles E this flagFiles w) = Throw e.
Proof.
  unfold dumpFlags, mergeFlagFiles, flagFiles_or_default.
  destruct flagFiles as [files|].
  - apply (loops_fail_alike E files [] (JObj PlainObject []) w).
  - unfold io_bind at 1 3 5 7, io_lift.
    destruct (getFlagFiles this) as [files|e']; [|done].
    apply (loops_fail_alike E files [] (JObj PlainObject []) w).
Qed.

(** ** applyFlags *)

Lemma applyFlags_checked E (this : RFO) :
  robloxPaths this <> [] -> processedFlagList this <> [] ->
  applyFlags E this
  = (let! flagFiles := io_lift (getFlagFiles this) in
     let! merged := mergeFlagFiles E this (Some flagFiles) in
     io_fold (apply_step E merged) tt (robloxPaths this))%io.
Proof.
  intros Hpaths Hlists. unfold applyFlags.
  destruct (robloxPaths this); [done|].
  by destruct (processedFlagList this).
Qed.

Lemma install_one_written content (w : World) p :
  fs (install_one content w p) !! settings_file p = Some (FsFile content).
Proof. unfold install_one. cbn. by rewrite lookup_insert_eq. Qed.

Lemma install_one_present content (w : World) p q :
  is_Some (fs w !! q) -> q <> settings_file p ->
  fs (install_one content w p) !! q = fs w !! q.
Proof.
  intros Hq Hne. unfold install_one. cbn.
  rewrite lookup_insert_ne by done.
  destruct (fs w !! settings_dir p) eqn:Hdir; [done|]. cbn.
  rewrite lookup_insert_ne; [done|]. intros Heq.
  rewrite <- Heq, Hdir in Hq. by destruct Hq.
Qed.

Lemma install_one_mono content (w : World) p q :
  is_Some (fs w !! q) -> is_Some (fs (install_one content w p) !! q).
Proof.
  intros Hq. destruct (decide (q = settings_file p)) as [->|Hne].
  - by rewrite install_one_written.
  - by rewrite install_one_present.
Qed.

Lemma install_one_content content (w : World) p q :
  fs w !! q = Some (FsFile content) ->
  fs (install_one content w p) !! q = Some (FsFile content).
Proof.
  intros Hq. destruct (decide (q = settings_file p)) as [->|Hne].
  - by rewrite install_one_written.
  - rewrite install_one_present; [done| |done]. by rewrite Hq.
Qed.

Lemma install_content content paths (w : World) q :
  fs w !! q = Some (FsFile content) ->
  fs (install content paths w) !! q = Some (FsFile content).
Proof.
  revert w. induction paths as [|p paths IH]; intros w Hq; [done|].
  apply IH. by apply install_one_content.
Qed.

Lemma install_written content paths (w : World) p :
  p ∈ paths ->
  fs (install content paths w) !! settings_file p = Some (FsFile content).
Proof.
  revert w. induction paths as [|p' paths IH]; intros w Hin.
  - by apply elem_of_nil in Hin.
  - change (install content (p' :: paths) w)
      with (install content paths (install_one content w p')).
    apply elem_of_cons in Hin as [->|Hin].
    + apply install_content, install_one_written.
    + by apply IH.
Qed.

Lemma install_present content paths (w : World) q :
  is_Some (fs w !! q) -> (forall p, p ∈ paths -> q <> settings_file p) ->
  fs (install content paths w) !! q = fs w !! q.
Proof.
  revert w. induction paths as [|p paths IH]; intros w Hq Hne; [done|].
  change (install content (p :: paths) w)
    with (install content paths (install_one content w p)).
  assert (q <> settings_file p) as Hp by (apply Hne, list_elem_of_here).
  rewrite IH.
  - by apply install_one_present.
  - by apply install_one_mono.
  - intros p' Hp'. by apply Hne, list_elem_of_further.
Qed.

Lemma apply_step_present E merged (w : World) p :
  is_Some (fs w !! p) ->
  apply_step E merged tt p w
  = (Ok tt, install_one (JSON_stringify E merged) w p).
Proof.
  intros Hp. unfold apply_step, io_bind, existsSync, mkdirSync, writeFileSync,
    install_one.
  rewrite bool_decide_eq_true_2 by done. cbn [negb].
  fold (settings_dir p). fold (settings_file p).
  destruct (fs w !! settings_dir p) as [node|] eqn:Hdir.
  - by rewrite bool_decide_eq_true_2.
  - rewrite bool_decide_eq_false_2 by (by intros [? ?]). cbn [negb].
    by rewrite Hdir.
Qed.

Lemma apply_loop_present E merged paths (w : World) :
  Forall (fun p => is_Some (fs w !! p)) paths ->
  forall rest,
    io_fold (apply_step E merged) tt (paths ++ rest) w
    = io_fold (apply_step E merged) tt rest
        (install (JSON_stringify E merged) paths w).
Proof.
  revert w. induction paths as [|p paths IH]; intros w Hall rest; [done|].
  apply Forall_cons in Hall as [Hp Hall]. cbn [app].
  rewrite io_fold_cons, (apply_step_present _ _ _ _ Hp).
  change (install (JSON_stringify E merged) (p :: paths) w)
    with (install (JSON_stringify E merged) paths
            (install_one (JSON_stringify E merged) w p)).
  apply IH. eapply Forall_impl; [exact Hall|].
  intros q Hq. by apply install_one_mono.
Qed.

Lemma mergeFlagFiles_readable E (this : RFO) (w : World) files docs :
  Forall2 (readable E w) files docs ->
  mergeFlagFiles E this (Some files) w = (Ok (merge_docs docs), w).
Proof.
  intros Hread. rewrite mergeFlagFiles_given.
  pose proof (merge_loop_readable E w files docs (JObj PlainObject [])
                Hread []) as Hloop.
  rewrite app_nil_r in Hloop. by rewrite Hloop.
Qed.

(** X11.  When the selected files exist and parse and every Roblox directory
    exists, [applyFlags] returns after writing the same text, the merged
    document as [JSON.stringify] renders it, to
    [<dir>/ClientSettings/ClientAppSettings.json] of every directory, making
    [ClientSettings] where nothing is there; an entry of the file system that
    is none of these settings files is left as it was. *)
Theorem applyFlags_installs E (this : RFO) (w : World) files docs :
  robloxPaths this <> [] ->
  getFlagFiles this = Ok files ->
  Forall2 (readable E w) files docs ->
  Forall (fun p => is_Some (fs w !! p)) (robloxPaths this) ->
  let content := JSON_stringify E (merge_docs docs) in
  let w' := install content (robloxPaths this) w in
  applyFlags E this w = (Ok tt, w')
  /\ (forall p, p ∈ robloxPaths this ->
        fs w' !! settings_file p = Some (FsFile content))
  /\ (forall q, is_Some (fs w !! q) ->
        (forall p, p ∈ robloxPaths this -> q <> settings_file p) ->
        fs w' !! q = fs w !! q).
Proof.
  intros Hpaths Hfiles Hread Hall content w'. split; [|split].
  - rewrite applyFlags_checked; [|done|].
    2:{ intros Hnil. unfold getFlagFiles, hasProcessedFlags in Hfiles.
        by rewrite Hnil in Hfiles. }
    unfold io_bind at 1, io_lift. rewrite Hfiles.
    unfold io_bind. rewrite (mergeFlagFiles_readable _ _ _ _ _ Hread).
    pose proof (apply_loop_present E (merge_docs docs) _ w Hall []) as Hloop.
    rewrite app_nil_r in Hloop. by rewrite Hloop.
  - intros p Hp. by apply install_written.
  - intros q Hq Hne. by apply install_present.
Qed.

Lemma applyFlags_installs_witness :
  applyFlags Install.env (Install.rfo [Install.roblox]) Install.world
  = (Ok tt,
     mkWorld
       (<["C:/Roblox/versions/version-1/ClientSettings/ClientAppSettings.json"
          := FsFile "A,B,C"]>
          (<["C:/Roblox/versions/version-1/ClientSettings" := FsDir []]>
             (fs Install.world)))
       [MakeDir "C:/Roblox/versions/version-1/ClientSettings";
        FileWrite
          "C:/Roblox/versions/version-1/ClientSettings/ClientAppSettings.json"
          "A,B,C"]).
Proof.
  refine (proj1 (applyFlags_installs Install.env (Install.rfo [Install.roblox])
                   Install.world ["_cache/f1"; "_cache/f2"]
                   [Merge.doc1; Merge.doc2] _ _ _ _)).
  - discriminate.
  - reflexivity.
  - repeat constructor; eexists; split; reflexivity.
  - repeat constructor. eexists. vm_compute. reflexivity.
Defined.

(** X12.  [applyFlags] does not roll back: when a Roblox directory is
    missing, the call throws at that directory, after the settings of the
    directories before it have been written; the directories after it are
    not looked at. *)
Theorem applyFlags_stops_at_missing
    E (this : RFO) (w : World) files docs good missing rest :
  robloxPaths this = (good ++ missing :: rest)%list ->
  getFlagFiles this = Ok files ->
  Forall2 (readable E w) files docs ->
  Forall (fun p => is_Some (fs w !! p)) good ->
  let content := JSON_stringify E (merge_docs docs) in
  let w' := install content good w in
  fs w' !! missing = None ->
  applyFlags E this w = (Throw (RobloxVersionMissing missing), w')
  /\ forall p, p ∈ good -> fs w' !! settings_file p = Some (FsFile content).
Proof.
  intros Hpaths Hfiles Hread Hall content w' Hmissing. split.
  - rewrite applyFlags_checked.
    2:{ rewrite Hpaths. by destruct good. }
    2:{ intros Hnil. unfold getFlagFiles, hasProcessedFlags in Hfiles.
        by rewrite Hnil in Hfiles. }
    unfold io_bind at 1, io_lift. rewrite Hfiles.
    unfold io_bind. rewrite (mergeFlagFiles_readable _ _ _ _ _ Hread).
    rewrite Hpaths, (apply_loop_present E (merge_docs docs) _ w Hall).
    rewrite io_fold_cons. unfold apply_step, io_bind, existsSync.
    fold content. fold w'.
    rewrite bool_decide_eq_false_2; [done|]. rewrite Hmissing.
    by intros [? ?].
  - intros p Hp. by apply install_written.
Qed.

Lemma applyFlags_stops_at_missing_witness :
  applyFlags Install.env (Install.rfo [Install.roblox; "D:/Roblox"])
    Install.world
  = (Throw (RobloxVersionMissing "D:/Roblox"),
     install "A,B,C" [Install.roblox] Install.world)
  /\ forall p, p ∈ [Install.roblox] ->
       fs (install "A,B,C" [Install.roblox] Install.world) !! settings_file p
       = Some (FsFile "A,B,C").
Proof.
  apply (applyFlags_stops_at_missing Install.env
           (Install.rfo [Install.roblox; "D:/Roblox"]) Install.world
           ["_cache/f1"; "_cache/f2"] [Merge.doc1; Merge.doc2]
           [Install.roblox] "D:/Roblox" []).
  - reflexivity.
  - reflexivity.
  - repeat constructor; eexists; split; reflexivity.
  - repeat constructor. eexists. vm_compute. reflexivity.
  - vm_compute. reflexivity.
Defined.

Lemma mergeFlagFiles_default E (this : RFO) (w : World) :
  mergeFlagFiles E this None w
  = match getFlagFiles this with
    | Ok files => mergeFlagFiles E this (Some files) w
    | Throw e => (Throw e, w)
    end.
Proof.
  unfold mergeFlagFiles, flagFiles_or_default, io_bind at 1 3, io_lift, io_ret.
  by destruct (getFlagFiles this).
Qed.

(** X13.  [applyFlags] resolves and merges before it writes: with at least
    one Roblox directory and one manifest, whenever [mergeFlagFiles()]
    would throw, [applyFlags] throws the same error and the world is left
    as it was. *)
Theorem applyFlags_merges_first E (this : RFO) (w : World) e :
  robloxPaths this <> [] ->
  processedFlagList this <> [] ->
  fst (mergeFlagFiles E this None w) = Throw e ->
  applyFlags E this w = (Throw e, w).
Proof.
  intros Hpaths Hlists. rewrite (applyFlags_checked _ _ Hpaths Hlists).
  rewrite mergeFlagFiles_default. unfold io_bind at 1, io_lift.
  destruct (getFlagFiles this) as [files|e']; [|by intros [= ->]].
  intros Hthrow. unfold io_bind.
  pose proof (proj1 (proj2 (dumpFlags_mergeFlagFiles_alike_loops
                              E this files w))) as Hsame.
  destruct (mergeFlagFiles E this (Some files) w) as [[merged|e''] w''].
  - done.
  - cbn in Hthrow, Hsame. congruence.
Qed.

Lemma applyFlags_merges_first_witness :
  applyFlags Install.env
    (mkRFO [[("Flags", Flags.fastFlags "DX11")]] [Install.roblox])
    Install.world
  = (Throw (FlagFileMissing "_cache/base"), Install.world).
Proof.
  apply (applyFlags_merges_first Install.env
           (mkRFO [[("Flags", Flags.fastFlags "DX11")]] [Install.roblox])
           Install.world); [discriminate..|reflexivity].
Defined.

(** ** readLocalFlagLists and fetchFlagLists *)

Lemma io_map_cons {A B : Type} (callback : A -> IO B) x rest (w : World) :
  io_map callback (x :: rest) w
  = match callback x w with
    | (Ok y, w1) =>
        match io_map callback rest w1 with
        | (Ok ys, w2) => (Ok (y :: ys), w2)
        | (Throw e, w2) => (Throw e, w2)
        end
    | (Throw e, w1) => (Throw e, w1)
    end.
Proof.
  cbn [io_map]. unfold io_bind at 1. destruct (callback x w) as [[y|e] w1];
    [|done].
  unfold io_bind. by destruct (io_map callback rest w1) as [[ys|e] w2].
Qed.

Lemma readLocalFlagLists_listing E dir (w : World) names :
  fs w !! dir = Some (FsDir names) ->
  readLocalFlagLists E dir w
  = io_map
      (fun flagList =>
         let! flagListText := readFileSync (dir +:+ "/" +:+ flagList) in
         io_catch
           (match parser_for E flagList flagListText with
            | Some flagListJson => io_ret flagListJson
            | None => io_throw SyntaxError
            end)
           (fun error =>
              let! _ := emit (ConsoleError flagList) in
              io_throw (LocalFlagListFailed flagList)))%io
      names w.
Proof.
  intros Hdir. unfold readLocalFlagLists, io_bind at 1 2, existsSync,
    readdirSync.
  rewrite bool_decide_eq_true_2 by (by rewrite Hdir). by rewrite Hdir.
Qed.

Lemma local_loop_reads E dir (w : World) names docs :
  Forall2 (local_manifest E w dir) names docs ->
  forall rest,
    io_map
      (fun flagList =>
         let! flagListText := readFileSync (dir +:+ "/" +:+ flagList) in
         io_catch
           (match parser_for E flagList flagListText with
            | Some flagListJson => io_ret flagListJson
            | None => io_throw SyntaxError
            end)
           (fun error =>
              let! _ := emit (ConsoleError flagList) in
              io_throw (LocalFlagListFailed flagList)))%io
      (names ++ rest) w
    = match io_map
              (fun flagList =>
                 let! flagListText :=
                   readFileSync (dir +:+ "/" +:+ flagList) in
                 io_catch
                   (match parser_for E flagList flagListText with
                    | Some flagListJson => io_ret flagListJson
                    | None => io_throw SyntaxError
                    end)
                   (fun error =>
                      let! _ := emit (ConsoleError flagList) in
                      io_throw (LocalFlagListFailed flagList)))%io
              rest w with
      | (Ok more, w') => (Ok (docs ++ more)%list, w')
      | (Throw e, w') => (Throw e, w')
      end.
Proof.
  induction 1 as [|name doc names docs (text & Hfile & Hparse) _ IH];
    intros rest.
  - cbn [app]. by destruct (io_map _ rest w) as [[more|e] w'].
  - cbn [app]. rewrite io_map_cons.
    unfold io_bind at 1, readFileSync at 1, io_catch at 1.
    rewrite Hfile, Hparse. cbn. rewrite IH.
    by destruct (io_map _ rest w) as [[more|e] w'].
Qed.

(** X14.  Local flag lists: without the directory there are none and
    nothing is read; with it, the files are read in the order of the
    listing, each by the parser that its name selects ([JSON.parse] when the
    lower-cased name ends in [json], [toml.parse] when the name ends in
    [toml], [json5.parse] otherwise), and the world is left as it was. *)
Theorem readLocalFlagLists_reads E dir (w : World) :
  (fs w !! dir = None -> readLocalFlagLists E dir w = (Ok [], w))
  /\ (forall names docs,
        fs w !! dir = Some (FsDir names) ->
        Forall2 (local_manifest E w dir) names docs ->
        readLocalFlagLists E dir w = (Ok docs, w)).
Proof.
  split.
  - intros Hnone. unfold readLocalFlagLists, io_bind at 1 2, existsSync.
    rewrite bool_decide_eq_false_2; [done|]. rewrite Hnone. by intros [? ?].
  - intros names docs Hdir Hall.
    rewrite (readLocalFlagLists_listing _ _ _ _ Hdir).
    pose proof (local_loop_reads E dir w names docs Hall []) as Hloop.
    rewrite app_nil_r in Hloop. rewrite Hloop. cbn. by rewrite app_nil_r.
Qed.

Lemma readLocalFlagLists_reads_witness :
  readLocalFlagLists Local.env "./flagLists/" (Local.world ["A.JSON"; "b.toml"])
  = (Ok [JObj PlainObject []; JObj PlainObject [("a", JNum 1)]],
     Local.world ["A.JSON"; "b.toml"]).
Proof.
  apply (proj2 (readLocalFlagLists_reads Local.env "./flagLists/"
                  (Local.world ["A.JSON"; "b.toml"]))
           ["A.JSON"; "b.toml"]).
  - reflexivity.
  - repeat constructor; eexists; split; reflexivity.
Defined.

(** X15.  A local file that its parser does not accept is fatal: the files
    before it have been read, the failure is logged, the call throws a
    manifest parse error naming the file, and the files after it are not
    read.  Loading as a whole then fails the same way, even when every
    remote source answered well. *)
Theorem readLocalFlagLists_unparsable
    E config dir (w : World) good docs bad text rest :
  fs w !! dir = Some (FsDir (good ++ bad :: rest)) ->
  Forall2 (local_manifest E w dir) good docs ->
  fs w !! (dir +:+ "/" +:+ bad) = Some (FsFile text) ->
  parser_for E bad text = None ->
  readLocalFlagLists E dir w
  = (Throw (LocalFlagListFailed bad),
     mkWorld (fs w) (trace w ++ [ConsoleError bad]))
  /\ kind_of (LocalFlagListFailed bad) = ManifestParseError
  /\ (Forall (fun src => ~ source_failed E src) (remote_sources config) ->
      fst (fetchFlagLists E config dir w) = Throw (LocalFlagListFailed bad)).
Proof.
  intros Hdir Hgood Hfile Hparse.
  assert (forall w0 : World, fs w0 = fs w ->
            readLocalFlagLists E dir w0
            = (Throw (LocalFlagListFailed bad),
               mkWorld (fs w0) (trace w0 ++ [ConsoleError bad]))) as Hrun.
  { intros w0 Hfs.
    rewrite (readLocalFlagLists_listing _ _ _ (good ++ bad :: rest))
      by (by rewrite Hfs).
    rewrite (local_loop_reads E dir w0 good docs).
    - rewrite io_map_cons. unfold io_bind, readFileSync, io_catch, emit.
      rewrite Hfs, Hfile, Hparse. cbn. by rewrite Hfs.
    - eapply Forall2_impl; [exact Hgood|]. intros name doc (t & Ht & Hp).
      exists t. by rewrite Hfs. }
  split; [by apply Hrun|]. split; [done|].
  intros Hremote. rewrite fetchFlagLists_run. cbn zeta.
  rewrite (res_all_loaded _ _ Hremote). by rewrite Hrun.
Qed.

Lemma readLocalFlagLists_unparsable_witness :
  readLocalFlagLists Local.env "./flagLists/"
    (Local.world ["A.JSON"; "c.json5"; "b.toml"])
  = (Throw (LocalFlagListFailed "c.json5"),
     mkWorld (fs (Local.world ["A.JSON"; "c.json5"; "b.toml"]))
       [ConsoleError "c.json5"])
  /\ kind_of (LocalFlagListFailed "c.json5") = ManifestParseError
  /\ (Forall (fun src => ~ source_failed Local.env src)
        (remote_sources Loader.config_soft) ->
      fst (fetchFlagLists Local.env Loader.config_soft "./flagLists/"
             (Local.world ["A.JSON"; "c.json5"; "b.toml"]))
      = Throw (LocalFlagListFailed "c.json5")).
Proof.
  apply (readLocalFlagLists_unparsable Local.env Loader.config_soft
           "./flagLists/" (Local.world ["A.JSON"; "c.json5"; "b.toml"])
           ["A.JSON"] [JObj PlainObject []] "c.json5" "{}" ["b.toml"]).
  - reflexivity.
  - repeat constructor; eexists; split; reflexivity.
  - reflexivity.
  - reflexivity.
Defined.

Lemma no_request_silent {A : Type} (m : IO A) :
  (forall w, snd (m w) = w) -> no_request m.
Proof.
  intros Hm w. exists []. by rewrite Hm, app_nil_r.
Qed.

Lemma no_request_bind {A B : Type} (m : IO A) (k : A -> IO B) :
  no_request m -> (forall a, no_request (k a)) -> no_request (io_bind m k).
Proof.
  intros Hm Hk w. unfold io_bind. destruct (Hm w) as (evs & Htrace & Hnone).
  destruct (m w) as [[a|e] w1]; cbn in *.
  - destruct (Hk a w1) as (evs' & Htrace' & Hnone').
    exists (evs ++ evs')%list.
    by rewrite Htrace', Htrace, app_assoc, List.filter_app, Hnone, Hnone'.
  - by exists evs.
Qed.

Lemma no_request_catch {A : Type} (body : IO A) (handler : Error -> IO A) :
  no_request body -> (forall e, no_request (handler e)) ->
  no_request (io_catch body handler).
Proof.
  intros Hm Hk w. unfold io_catch. destruct (Hm w) as (evs & Htrace & Hnone).
  destruct (body w) as [[a|e] w1]; cbn in *.
  - by exists evs.
  - destruct (Hk e w1) as (evs' & Htrace' & Hnone').
    exists (evs ++ evs')%list.
    by rewrite Htrace', Htrace, app_assoc, List.filter_app, Hnone, Hnone'.
Qed.

Lemma no_request_map {A B : Type} (callback : A -> IO B) (xs : list A) :
  (forall x, no_request (callback x)) -> no_request (io_map callback xs).
Proof.
  intros Hcb. induction xs as [|x xs IH]; [by apply no_request_silent|].
  cbn [io_map]. apply no_request_bind; [done|]. intros y.
  apply no_request_bind; [done|]. intros ys. by apply no_request_silent.
Qed.

Lemma no_request_readLocalFlagLists E dir :
  no_request (readLocalFlagLists E dir).
Proof.
  unfold readLocalFlagLists.
  apply no_request_bind; [by apply no_request_silent|]. intros present.
  apply no_request_bind.
  { destruct present; apply no_request_silent; [|done].
    intros w. unfold readdirSync. by destruct (fs w !! dir) as [[|]|]. }
  intros names. apply no_request_map. intros name.
  apply no_request_bind.
  { apply no_request_silent. intros w. unfold readFileSync.
    by destruct (fs w !! _) as [[|]|]. }
  intros text. apply no_request_catch.
  - by destruct (parser_for E name text); apply no_request_silent.
  - intros e. apply no_request_bind; [|intros; by apply no_request_silent].
    intros w. by exists [ConsoleError name].
Qed.

Lemma fetch_events_requests E (srcs : list FlagListUrl) :
  List.filter is_HttpGet (concat (map (fetch_events E) srcs))
  = map (fun src => HttpGet (url src)) srcs.
Proof.
  induction srcs as [|src srcs IH]; [done|].
  cbn [map concat]. rewrite List.filter_app, IH. f_equal.
  unfold fetch_events. cbn.
  destruct (axios_get E (url src)) as [response|]; [|done].
  destruct (negb (status response =? 200)); [done|].
  by destruct (json5_parse E (data response)).
Qed.

(** X16.  Whatever the remote sources answer and whatever the outcome,
    [fetchFlagLists] sends one request to every remote source, the default
    one first and the others in the order of the configuration, sends no
    other request, and changes no file. *)
Theorem fetchFlagLists_requests E config dir (w : World) :
  let w' := snd (fetchFlagLists E config dir w) in
  fs w' = fs w
  /\ exists evs,
       trace w' = (trace w ++ evs)%list
       /\ List.filter is_HttpGet evs
          = map (fun src => HttpGet (url src)) (remote_sources config).
Proof.
  cbn zeta. rewrite fetchFlagLists_run. cbn zeta.
  set (w1 := mkWorld (fs w) _).
  destruct (res_all (map (fetch_outcome E) (remote_sources config)))
    as [flagListsData|e].
  - destruct (fs_reader_readLocalFlagLists E dir w1) as (Hfs & _ & _).
    destruct (no_request_readLocalFlagLists E dir w1)
      as (evs & Htrace & Hnone).
    destruct (readLocalFlagLists E dir w1) as [[local|e] w2]; cbn in *.
    + split; [done|]. eexists. rewrite Htrace, <- app_assoc. split; [done|].
      rewrite List.filter_app, Hnone, app_nil_r.
      apply (fetch_events_requests E (remote_sources config)).
    + split; [done|]. eexists. rewrite Htrace, <- app_assoc. split; [done|].
      rewrite List.filter_app, Hnone, app_nil_r.
      apply (fetch_events_requests E (remote_sources config)).
  - cbn. split; [done|]. eexists. split; [done|].
    apply (fetch_events_requests E (remote_sources config)).
Qed.

(** ** defaultRecursive *)

Lemma defaultLoop_key_order recurse entries :
  NoDup (map fst entries) ->
  forall kind props r,
    defaultLoop recurse (JObj kind props) entries = Ok r ->
    map fst (own_entries r)
    = (map fst props ++ missing_keys props entries)%list.
Proof.
  unfold missing_keys.
  induction entries as [|[key dv] entries IH]; intros Hnd kind props r.
  - intros [= <-]. cbn. by rewrite app_nil_r.
  - apply NoDup_cons in Hnd as [Hfresh Hnd]. rewrite defaultLoop_cons.
    intros Hrun. apply res_bind_Ok in Hrun as (o1 & Hstep & Hrest).
    apply step_value_intro in Hstep as (val & _ & ->).
    rewrite (IH Hnd _ _ _ Hrest), props_set_fst. cbn [map fst List.filter].
    destruct (props_get key props) as [old|] eqn:Hget.
    + assert (key ∈ map fst props) as Hin
        by (apply props_get_is_Some; by eexists).
      rewrite (bool_decide_eq_true_2 _ Hin). cbn [negb].
      done.
    + assert (key ∉ map fst props) as Hout.
      { intros Hin. apply props_get_is_Some in Hin as [? ?]. congruence. }
      rewrite (bool_decide_eq_false_2 _ Hout). cbn [negb].
      rewrite <- app_assoc. cbn [app]. do 2 f_equal.
      apply List.filter_ext_in. intros k Hk. f_equal.
      apply bool_decide_ext. rewrite elem_of_app, list_elem_of_singleton.
      split; [|by left]. intros [H | ->]; [done|].
      exfalso. apply Hfresh. by apply list_elem_of_In.
Qed.

(** X17.  What [defaultRecursive] leaves in an object, when it returns, for
    defaults none of whose keys is a name that objects or arrays inherit: a
    property that the defaults do not have is untouched; a property that is
    absent or [undefined] takes the default; a boolean, number or string is
    never overwritten; [null] is replaced by a default that is not an object
    and otherwise stays; an object meets an object default recursively and is
    otherwise kept.  The keys of the value keep their order, and the missing
    keys, when none of them is written as an array index is, follow in the
    order of the defaults. *)
Theorem defaultRecursive_fills kind props (full r : JValue) :
  unique_keys full = true ->
  plain_keys full = true ->
  defaultRecursive (JObj kind props) full = Ok r ->
  exists rprops,
    r = JObj kind rprops
    /\ (Forall (fun key => index_key key = false)
          (missing_keys props (own_entries full)) ->
        map fst rprops
        = (map fst props ++ missing_keys props (own_entries full))%list)
    /\ forall key,
         match props_get key (own_entries full) with
         | None => props_get key rprops = props_get key props
         | Some dv =>
             match entry props key with
             | JUndefined => props_get key rprops = Some dv
             | JNull =>
                 props_get key rprops
                 = Some (if typeof_object dv then JNull else dv)
             | JObj k p =>
                 if typeof_object dv then
                   exists merged,
                     defaultRecursive (JObj k p) dv = Ok merged
                     /\ props_get key rprops = Some merged
                 else props_get key rprops = Some (JObj k p)
             | kept => props_get key rprops = Some kept
             end
         end.
Proof.
  intros Huniq _ Hrun. rewrite defaultRecursive_loop in Hrun.
  destruct (unique_keys_entries _ Huniq) as [Hnd _].
  pose proof (defaultLoop_key_order _ _ Hnd _ _ _ Hrun) as Horder.
  destruct (defaultLoop_object _ _ _ _ _ Hnd Hrun)
    as (rprops & -> & Hothers & Hdefaults).
  exists rprops. split; [done|]. split; [done|]. intros key.
  destruct (props_get key (own_entries full)) as [dv|] eqn:Hdv.
  - apply props_get_Some_elem in Hdv.
    destruct (Hdefaults key dv Hdv) as (val & Hval & ->).
    unfold step_value in Hval.
    destruct (entry props key) as [| |b|n|s|k p] eqn:Hentry; cbn in Hval;
      try (by rewrite Hval).
    + destruct (typeof_object dv) eqn:Hobj; cbn in Hval; [|by rewrite Hval].
      rewrite defaultRecursive_loop in Hval.
      by apply defaultLoop_other in Hval as [_ ->].
    + destruct (typeof_object dv) eqn:Hobj; cbn in Hval; [|by rewrite Hval].
      by exists val.
  - apply Hothers. intros Hin. apply props_get_is_Some in Hin as [? ?].
    congruence.
Qed.

Lemma defaultRecursive_fills_witness :
  exists rprops,
    Defaults.doc_merged = JObj PlainObject rprops
    /\ (Forall (fun key => index_key key = false)
          (missing_keys
             [("a", JNum 1); ("b", JObj PlainObject [("c", JNum 2)])]
             (own_entries Defaults.doc_defaultObj)) ->
        map fst rprops
        = (["a"; "b"]
           ++ missing_keys
                [("a", JNum 1); ("b", JObj PlainObject [("c", JNum 2)])]
                (own_entries Defaults.doc_defaultObj))%list)
    /\ forall key,
         match props_get key (own_entries Defaults.doc_defaultObj) with
         | None =>
             props_get key rprops
             = props_get key
                 [("a", JNum 1); ("b", JObj PlainObject [("c", JNum 2)])]
         | Some dv =>
             match entry [("a", JNum 1); ("b", JObj PlainObject [("c", JNum 2)])]
                     key with
             | JUndefined => props_get key rprops = Some dv
             | JNull =>
                 props_get key rprops
                 = Some (if typeof_object dv then JNull else dv)
             | JObj k p =>
                 if typeof_object dv then
                   exists merged,
                     defaultRecursive (JObj k p) dv = Ok merged
                     /\ props_get key rprops = Some merged
                 else props_get key rprops = Some (JObj k p)
             | kept => props_get key rprops = Some kept
             end
         end.
Proof.
  apply (defaultRecursive_fills PlainObject
           [("a", JNum 1); ("b", JObj PlainObject [("c", JNum 2)])]
           Defaults.doc_defaultObj Defaults.doc_merged); reflexivity.
Defined.

Lemma defaultStep_error recurse objJoint key dv e :
  (forall o e', recurse o = Throw e' -> e' = TypeError) ->
  defaultStep recurse objJoint key dv = Throw e -> e = TypeError.
Proof.
  intros Hrec. unfold defaultStep, get_prop, set_prop.
  destruct objJoint as [| |b|n|s|kind props]; cbn;
    try (by intros [= <-]);
    try (destruct (typeof_object _ && typeof_object dv);
         [destruct (recurse _) as [m|e'] eqn:Hr; cbn;
          [by intros [= <-]|intros [= <-]; by apply (Hrec _ _ Hr)]
         |by intros [= <-]]).
Qed.

Lemma defaultRecursive_error (full : JValue) :
  forall obj e, defaultRecursive obj full = Throw e -> e = TypeError.
Proof.
  induction full as [| |b|n|s|kind props IH] using JValue_nested_ind;
    intros obj e; try done.
  - (* a string of defaults *)
    cbn [defaultRecursive]. generalize (own_entries (JStr s)). intros entries.
    revert obj. induction entries as [|[key dv] entries IHe]; intros obj;
      [done|].
    cbn [res_fold]. unfold get_prop, set_prop.
    destruct obj as [| |b|n|s'|kind props]; cbn; try (by intros [= <-]).
    apply IHe.
  - cbn [defaultRecursive]. revert obj.
    induction props as [|[key dv] props IHp]; intros obj; [done|].
    apply Forall_cons in IH as [IHdv IHrest]. cbn [res_fold].
    destruct (defaultStep (fun o => defaultRecursive o dv) obj key dv)
      as [o1|e1] eqn:Hstep; cbn.
    + by apply IHp.
    + intros [= <-]. apply (defaultStep_error _ _ _ _ _ IHdv Hstep).
Qed.

(** X18.  For defaults whose objects have pairwise different keys, none of
    them a name that objects or arrays inherit, [defaultRecursive] either
    returns or throws a [TypeError], and it throws exactly when an entry of
    the value that is [null] meets a default that has properties, at any
    depth, or when a value that is no object is to receive a property. *)
Theorem defaultRecursive_throws_TypeError (obj full : JValue) :
  unique_keys full = true ->
  plain_keys full = true ->
  if clash_free obj full
  then exists r, defaultRecursive obj full = Ok r
  else defaultRecursive obj full = Throw TypeError.
Proof.
  intros Huniq _. destruct (clash_free obj full) eqn:Hfree.
  - by apply (defaultRecursive_clash_free full Huniq obj).
  - destruct (defaultRecursive obj full) as [r|e] eqn:Hrun.
    + assert (clash_free obj full = true) as Hyes
        by (apply (defaultRecursive_clash_free full Huniq obj); by exists r).
      congruence.
    + f_equal. by apply (defaultRecursive_error full obj).
Qed.

Lemma defaultRecursive_throws_TypeError_witness :
  defaultRecursive Configs.no_urls Defaults.defaultConfig = Throw TypeError.
Proof.
  apply (defaultRecursive_throws_TypeError Configs.no_urls
           Defaults.defaultConfig); reflexivity.
Defined.

(** ** loadConfig *)

Lemma loadConfig_run E configFile (w : World) :
  loadConfig E configFile w
  = (match fs w !! configFile with
     | None => defaultRecursive (JObj PlainObject []) Defaults.defaultConfig
     | Some (FsDir _) => Throw (FsError configFile)
     | Some (FsFile text) =>
         match json5_parse E text with
         | None => Throw SyntaxError
         | Some doc => defaultRecursive doc Defaults.defaultConfig
         end
     end, w).
Proof.
  unfold loadConfig, io_bind, existsSync, readFileSync, json5_parse_io,
    io_lift.
  fold Defaults.defaultConfig_props. fold Defaults.defaultConfig.
  destruct (fs w !! configFile) as [[text|entries]|] eqn:Hfile.
  - rewrite bool_decide_eq_true_2 by done. rewrite Hfile.
    by destruct (json5_parse E text).
  - rewrite bool_decide_eq_true_2 by done. by rewrite Hfile.
  - by rewrite bool_decide_eq_false_2 by (by intros [? ?]).
Qed.

(** X19.  [loadConfig] changes nothing in the world, and its outcome is
    decided by the configuration file: without the file, the default
    configuration; a directory in its place, or a text that [json5.parse]
    refuses, makes it throw; a document is completed with the defaults, or
    the call throws a [TypeError] when the document clashes with them: it
    is no object, or a [null] in it meets a default object that has
    properties. *)
Theorem loadConfig_outcome E configFile (w : World) :
  snd (loadConfig E configFile w) = w
  /\ match fs w !! configFile with
     | None => fst (loadConfig E configFile w) = Ok Defaults.defaultConfig
     | Some (FsDir _) =>
         fst (loadConfig E configFile w) = Throw (FsError configFile)
     | Some (FsFile text) =>
         match json5_parse E text with
         | None => fst (loadConfig E configFile w) = Throw SyntaxError
         | Some doc =>
             if clash_free doc Defaults.defaultConfig
             then exists config,
                 fst (loadConfig E configFile w) = Ok config
                 /\ defaultRecursive doc Defaults.defaultConfig = Ok config
             else fst (loadConfig E configFile w) = Throw TypeError
         end
     end.
Proof.
  rewrite loadConfig_run. cbn [fst snd]. split; [done|].
  destruct (fs w !! configFile) as [[text|entries]|]; [|done..].
  destruct (json5_parse E text) as [doc|]; [|done].
  pose proof (defaultRecursive_clash_free Defaults.defaultConfig eq_refl doc)
    as Hfree.
  destruct (clash_free doc Defaults.defaultConfig).
  - destruct (proj1 Hfree eq_refl) as [config Hconfig]. by exists config.
  - destruct (defaultRecursive doc Defaults.defaultConfig) as [r|e] eqn:Hrun.
    + assert (false = true) by (apply Hfree; by exists r). done.
    + f_equal. by apply (defaultRecursive_error _ _ _ Hrun).
Qed.

Example loadConfig_mirror :
  loadConfig Configs.env "./config.json5"
    (Configs.world
       "{urls:{defaultFlagList:{url:'https://mirror.example/list'}}}")
  = (Ok (JObj PlainObject
           [("urls",
             JObj PlainObject
               [("defaultFlagList",
                 JObj PlainObject
                   [("url", JStr "https://mirror.example/list");
                    ("name", JStr "Default Flags")]);
                ("flagLists", JArr []);
                ("updater", JStr "https://rfo.sh/updater/updater.json5")]);
            ("dev", JBool false);
            ("hashChecks",
             JObj PlainObject
               [("update", JBool false); ("flags", JBool false)])]),
     Configs.world
       "{urls:{defaultFlagList:{url:'https://mirror.example/list'}}}").
Proof. by vm_compute. Qed.

Example loadConfig_no_urls :
  loadConfig Configs.env "./config.json5" (Configs.world "{urls:null}")
  = (Throw TypeError, Configs.world "{urls:null}").
Proof. by vm_compute. Qed.

(** ** defaultRecursive on the store: the example of the documentation *)




Lemma defaultRecursive_fresh_layout_witness :
  let a1 := Store.alloc Defaults.doc_obj 0 ∅ in
  let a2 := Store.alloc Defaults.doc_defaultObj (fst (snd a1)) (snd (snd a1)) in
  exists out σ',
    Store.defaultRecursive (S (height Defaults.doc_defaultObj))
      (fst a1) (fst a2) (snd (snd a2)) = Some (out, σ')
    /\ dom σ' = dom (snd (snd a2))
    /\ (forall l, l ∉ Store.cells 0 (fst (snd a1)) ->
          σ' !! l = snd (snd a2) !! l)
    /\ Store.repr σ' (Store.cells (fst (snd a1)) (fst (snd a2))) (fst a2)
         Defaults.doc_defaultObj
    /\ out = Ok (fst a1)
    /\ Store.repr σ'
         (Store.cells 0 (fst (snd a1))
          ∪ Store.cells (fst (snd a1)) (fst (snd a2)))
         (fst a1) Defaults.doc_merged.
Proof.
  cbv zeta.
  apply (defaultRecursive_fresh_layout Defaults.doc_obj
           Defaults.doc_defaultObj eq_refl eq_refl
           (fst (Store.alloc Defaults.doc_obj 0 ∅))
           (fst (snd (Store.alloc Defaults.doc_obj 0 ∅)))
           (snd (snd (Store.alloc Defaults.doc_obj 0 ∅)))).
  - by destruct (Store.alloc Defaults.doc_obj 0 ∅) as [? [? ?]].
  - by destruct (Store.alloc Defaults.doc_defaultObj _ _) as [? [? ?]].
Defined.

(** ** RobloxVersionSearcher and RFO.findRoblox *)

Section SearcherFacts.

Variable process_env : string -> option string.
Variable path_join : string -> string -> string.
Variable path_dirname : string -> string.
Variable path_basename : string -> string.

Local Abbreviation searchVersions' :=
  (searchVersions process_env path_join path_dirname path_basename).
Local Abbreviation searchStep' :=
  (searchStep path_join path_dirname path_basename).
Local Abbreviation platformDirs' := (platformDirs process_env).

Lemma platformDirs_keys key :
  is_Some (props_get key platformDirs')
  <-> key = "windows" \/ key = "macos" \/ key = "linux".
Proof.
  unfold platformDirs. cbn [props_get].
  destruct (String.eqb "windows" key) eqn:H1.
  { apply String.eqb_eq in H1. split; [by left|by eexists]. }
  destruct (String.eqb "macos" key) eqn:H2.
  { apply String.eqb_eq in H2. split; [by right; left|by eexists]. }
  destruct (String.eqb "linux" key) eqn:H3.
  { apply String.eqb_eq in H3. split; [by right; right|by eexists]. }
  apply String.eqb_neq in H1, H2, H3.
  split; [by intros [? ?]|]. intros [?|[?|?]]; congruence.
Qed.

(** X22.  [searchVersions] returns exactly for the platforms whose
    lower-cased name is [windows], [macos], [linux] or [darwin], whatever the
    file system and the environment hold: a failing [readdir] never makes it
    throw.  Any other name is refused as unsupported (with a [TypeError]
    for the two names that every object inherits). *)
Theorem searchVersions_supported (platform : string) (w : World) :
  match searchVersions' platform w with
  | Done _ => Str.toLowerCase platform ∈ known_platforms
  | Failed x =>
      (Str.toLowerCase platform ∉ known_platforms)
      /\ x = (if bool_decide
                   (Str.toLowerCase platform ∈ ["constructor"; "__proto__"])
              then Thrown TypeError
              else UnsupportedPlatform platform)
  end.
Proof.
  unfold searchVersions, known_platforms.
  set (lower := Str.toLowerCase platform).
  destruct (String.eqb lower "darwin") eqn:Hdarwin.
  { apply String.eqb_eq in Hdarwin. rewrite Hdarwin. cbn.
    rewrite !elem_of_cons. tauto. }
  apply String.eqb_neq in Hdarwin.
  pose proof (platformDirs_keys lower) as Hkeys.
  destruct (props_get lower platformDirs') as [searchPaths|].
  - destruct (proj1 Hkeys) as [-> | [-> | ->]]; [by eexists|..];
      rewrite !elem_of_cons; tauto.
  - assert (lower ∉ ["windows"; "macos"; "linux"; "darwin"]) as Hout.
    { rewrite !elem_of_cons, elem_of_nil. intros [?|[?|[?|[?|[]]]]];
        try done; (assert (is_Some (@None (list string))) as [? ?];
                   [apply Hkeys; tauto|done]). }
    destruct (String.eqb lower "constructor") eqn:Hc.
    { apply String.eqb_eq in Hc. split; [done|].
      rewrite bool_decide_eq_true_2; [done|]. rewrite !elem_of_cons. tauto. }
    destruct (String.eqb lower "__proto__") eqn:Hp.
    { apply String.eqb_eq in Hp. split; [done|].
      rewrite bool_decide_eq_true_2; [done|]. rewrite !elem_of_cons. tauto. }
    apply String.eqb_neq in Hc, Hp. split; [done|].
    rewrite bool_decide_eq_false_2; [done|].
    rewrite !elem_of_cons, elem_of_nil. tauto.
Qed.

Local Abbreviation found' := (found path_join path_dirname path_basename).

Lemma searchStep_found (w : World) versionDirectories searchPath :
  searchStep' w versionDirectories searchPath
  = (versionDirectories ++ found' w searchPath)%list.
Proof.
  unfold found, searchStep.
  destruct (resolvePath _ _ _ w searchPath) as [resolved|];
    [|by rewrite app_nil_r].
  destruct (Str.truthy resolved); [|by rewrite app_nil_r].
  by destruct (searchVersionDirectory _ w resolved) as [vd|];
    [destruct (Str.truthy vd)|].
Qed.

Lemma searchLoop_found (w : World) searchPaths :
  forall versionDirectories,
    fold_left (searchStep' w) searchPaths versionDirectories
    = (versionDirectories ++ concat (map (found' w) searchPaths))%list.
Proof.
  induction searchPaths as [|p searchPaths IH]; intros acc; cbn.
  - by rewrite app_nil_r.
  - by rewrite IH, searchStep_found, <- app_assoc.
Qed.

Lemma found_length (w : World) searchPath :
  (length (found' w searchPath) <= 1)%nat.
Proof.
  unfold found, searchStep.
  destruct (resolvePath _ _ _ w searchPath) as [resolved|]; cbn; [|lia].
  destruct (Str.truthy resolved); cbn; [|lia].
  by destruct (searchVersionDirectory _ w resolved) as [vd|];
    [destruct (Str.truthy vd)|].
Qed.

Lemma find_first_version (files : list string) (file : string) :
  first_version files file -> List.find version_entry files = Some file.
Proof.
  intros (before & after & -> & Hfile & Hbefore).
  induction Hbefore as [|other before Hother _ IH]; cbn.
  - by rewrite Hfile.
  - by rewrite Hother.
Qed.

Lemma find_no_version (files : list string) :
  Forall (fun other => version_entry other = false) files ->
  List.find version_entry files = None.
Proof.
  induction 1 as [|other files Hother _ IH]; cbn; [done|]. by rewrite Hother.
Qed.

(** What a search path without placeholder yields. *)
Lemma found_plain (w : World) searchPath :
  plain_path searchPath = true -> Str.truthy searchPath = true ->
  found' w searchPath
  = [match readdir w searchPath with
     | Some files =>
         match List.find version_entry files with
         | Some file =>
             if Str.truthy (path_join searchPath file)
             then path_join searchPath file else searchPath
         | None => searchPath
         end
     | None => searchPath
     end].
Proof.
  unfold found, searchStep, resolvePath, plain_path, searchVersionDirectory.
  intros -> ->. cbn [app].
  destruct (readdir w searchPath) as [files|]; [|done].
  fold version_entry.
  destruct (List.find version_entry files) as [file|]; [|done].
  by destruct (Str.truthy (path_join searchPath file)).
Qed.

Lemma truthy_strings_app vs1 vs2 :
  truthy_strings (vs1 ++ vs2) = (truthy_strings vs1 ++ truthy_strings vs2)%list.
Proof.
  unfold truthy_strings. induction vs1 as [|v vs1 IH]; [done|]. cbn.
  rewrite IH. by destruct v as [s|]; [destruct (Str.truthy s)|].
Qed.

Lemma truthy_strings_truthy vs :
  Forall (fun p => Str.truthy p = true) (truthy_strings vs).
Proof.
  unfold truthy_strings. induction vs as [|[s|] vs IH]; cbn;
    [constructor| |done].
  destruct (Str.truthy s) eqn:Hs; [by constructor|done].
Qed.

Lemma platformDirs_truthy key searchPaths :
  props_get key platformDirs' = Some searchPaths ->
  Forall (fun p => Str.truthy p = true) searchPaths.
Proof.
  intros Hin. apply props_get_Some_elem in Hin. unfold platformDirs in Hin.
  repeat (apply elem_of_cons in Hin as [Hin|Hin];
          [apply (f_equal snd) in Hin; cbn [snd] in Hin; rewrite Hin;
           apply truthy_strings_truthy|]).
  by apply elem_of_nil in Hin.
Qed.

(** X23.  The directories found come search path by search path, in the
    order of the list of the platform, and every search path yields at most
    one.  A search path without the placeholder [%s] yields exactly one,
    whether it exists or not: the path itself when it cannot be listed or
    lists no entry whose name starts with [version-], and otherwise the
    first such entry of the listing, joined to the path. *)
Theorem searchVersions_one_per_path (platform : string) (w : World)
    searchPaths :
  props_get
    (if String.eqb (Str.toLowerCase platform) "darwin" then "macos"
     else Str.toLowerCase platform) platformDirs' = Some searchPaths ->
  searchVersions' platform w = Done (concat (map (found' w) searchPaths))
  /\ Forall
       (fun searchPath =>
          (length (found' w searchPath) <= 1)%nat
          /\ (plain_path searchPath = true ->
              match readdir w searchPath with
              | None => found' w searchPath = [searchPath]
              | Some files =>
                  (Forall (fun other => version_entry other = false) files ->
                   found' w searchPath = [searchPath])
                  /\ forall file,
                       first_version files file ->
                       found' w searchPath
                       = [if Str.truthy (path_join searchPath file)
                          then path_join searchPath file else searchPath]
              end))
       searchPaths.
Proof.
  intros Hpaths. unfold searchVersions. rewrite Hpaths.
  split; [by rewrite searchLoop_found|].
  pose proof (platformDirs_truthy _ _ Hpaths) as Htruthy.
  rewrite Forall_forall in Htruthy. apply Forall_forall.
  intros searchPath Hin. split; [apply found_length|]. intros Hplain.
  rewrite (found_plain w searchPath Hplain (Htruthy searchPath Hin)).
  destruct (readdir w searchPath) as [files|]; [|done]. split.
  - intros Hnone. by rewrite (find_no_version _ Hnone).
  - intros file Hfirst. by rewrite (find_first_version _ _ Hfirst).
Qed.

Lemma searchVersions_macos (platform : string) (w : World) :
  Str.toLowerCase platform = "macos" \/ Str.toLowerCase platform = "darwin" ->
  exists versions,
    searchVersions' platform w = Done versions /\ (2 <= length versions)%nat.
Proof.
  intros Hmac. unfold searchVersions.
  assert ((if String.eqb (Str.toLowerCase platform) "darwin" then "macos"
           else Str.toLowerCase platform) = "macos") as ->.
  { destruct Hmac as [-> | ->]; reflexivity. }
  unfold platformDirs. cbn [props_get String.eqb Ascii.eqb Bool.eqb].
  eexists. split; [done|].
  set (paths := truthy_strings _). rewrite searchLoop_found. cbn [app].
  unfold paths.
  change [process_env "ROBLOXVERSION"; process_env "ROBLOX";
          Some "/Applications/Roblox.app/Contents/MacOS";
          Some "/Applications/Roblox.app/Contents/"]
    with ([process_env "ROBLOXVERSION"; process_env "ROBLOX"]
          ++ [Some "/Applications/Roblox.app/Contents/MacOS";
              Some "/Applications/Roblox.app/Contents/"])%list.
  rewrite truthy_strings_app, map_app, concat_app, length_app.
  change (truthy_strings
            [Some "/Applications/Roblox.app/Contents/MacOS";
             Some "/Applications/Roblox.app/Contents/"])
    with ["/Applications/Roblox.app/Contents/MacOS";
          "/Applications/Roblox.app/Contents/"].
  cbn [map concat]. rewrite !length_app.
  rewrite !found_plain by reflexivity. cbn [length]. lia.
Qed.

Local Abbreviation findRoblox' :=
  (findRoblox process_env path_join path_dirname path_basename).

(** X24.  [findRoblox] on the platform names of Node: under [win32] it
    always throws, as the platform is not supported, and leaves the instance
    and the world as they were; under [darwin] (and [macos]) it always
    returns, replaces the Roblox paths of the instance by at least two
    directories, whether Roblox is installed or not, keeps the processed flag
    lists, and logs no warning. *)
Theorem findRoblox_by_platform (this : RFO) (w : World) :
  findRoblox' "win32" this w = (Failed (UnsupportedPlatform "win32"), this, w)
  /\ forall platform,
       Str.toLowerCase platform = "macos"
       \/ Str.toLowerCase platform = "darwin" ->
       exists versions,
         findRoblox' platform this w
         = (Done tt, mkRFO (processedFlagList this) versions, w)
         /\ (2 <= length versions)%nat.
Proof.
  split; [reflexivity|]. intros platform Hmac.
  destruct (searchVersions_macos platform w Hmac) as (versions & Hrun & Hlen).
  exists versions. split; [|done]. unfold findRoblox. rewrite Hrun.
  cbn [robloxPaths]. destruct versions; [cbn in Hlen; lia|done].
Qed.

End SearcherFacts.

Lemma searchVersions_one_per_path_witness :
  searchVersions Paths.no_env Paths.join Paths.dirname Paths.basename
    "darwin" Paths.mac
  = Done ["/Applications/Roblox.app/Contents/MacOS/version-1";
          "/Applications/Roblox.app/Contents/"]
  /\ first_version ["RobloxPlayer"; "version-1"; "version-2"] "version-1".
Proof.
  destruct (searchVersions_one_per_path Paths.no_env Paths.join Paths.dirname
              Paths.basename "darwin" Paths.mac
              ["/Applications/Roblox.app/Contents/MacOS";
               "/Applications/Roblox.app/Contents/"] eq_refl)
    as [Hrun Hpaths].
  assert (first_version ["RobloxPlayer"; "version-1"; "version-2"]
            "version-1") as Hfirst.
  { exists ["RobloxPlayer"], ["version-2"]. by repeat constructor. }
  split; [|exact Hfirst]. rewrite Hrun.
  apply Forall_cons in Hpaths as [[_ Hmac] Hpaths].
  apply Forall_cons in Hpaths as [[_ Hcontents] _].
  specialize (Hmac eq_refl). specialize (Hcontents eq_refl).
  change (readdir Paths.mac "/Applications/Roblox.app/Contents/MacOS")
    with (Some ["RobloxPlayer"; "version-1"; "version-2"]) in Hmac.
  change (readdir Paths.mac "/Applications/Roblox.app/Contents/")
    with (@None (list string)) in Hcontents.
  destruct Hmac as [_ Hmac]. cbn [map concat].
  by rewrite (Hmac _ Hfirst), Hcontents.
Defined.

Lemma findRoblox_by_platform_witness :
  findRoblox Paths.no_env Paths.join Paths.dirname Paths.basename "win32"
    Merge.nothing_processed Scenario.empty_world
  = (Failed (UnsupportedPlatform "win32"), Merge.nothing_processed,
     Scenario.empty_world)
  /\ exists versions,
       findRoblox Paths.no_env Paths.join Paths.dirname Paths.basename
         "darwin" Merge.nothing_processed Scenario.empty_world
       = (Done tt, mkRFO [] versions, Scenario.empty_world)
       /\ (2 <= length versions)%nat.
Proof.
  pose proof (findRoblox_by_platform Paths.no_env Paths.join Paths.dirname
                Paths.basename Merge.nothing_processed Scenario.empty_world)
    as [Hwin Hmac].
  split; [exact Hwin|]. apply (Hmac "darwin"). by right.
Defined.

(** ** processFlagList *)

Lemma downloadFile_two_parts E file baseUrl (w : World) :
  downloadFile E file baseUrl w
  = (let '(started, w1) := downloadFile_start file baseUrl w in
     downloadFile_finish E started w1).
Proof.
  unfold downloadFile, downloadFile_start. cbn [f h].
  destruct (String.eqb (Str.toUpperCase (algorithm (h file))) "MD5"); [done|].
  destruct (String.eqb (Str.toUpperCase (algorithm (h file))) "SHA1");
    [done|].
  destruct (String.eqb (algorithm (h file)) "none") eqn:Hnone; cbn [negb].
  - unfold downloadFile_finish, io_bind at 1, axios_get_io. rewrite Hnone.
    cbn [negb].
    by destruct (axios_get E (baseUrl +:+ f file)) as [response|].
  - unfold io_bind at 1, existsSync.
    destruct (bool_decide (is_Some (fs w !! _))); [done|].
    unfold downloadFile_finish, io_bind at 1, axios_get_io. rewrite Hnone.
    cbn [negb]. by destruct (axios_get E _) as [response|].
Qed.

Lemma downloadFile_start_cached file baseUrl (w : World) :
  cached w file ->
  downloadFile_start file baseUrl w = (Settled (Ok (cache_route file)), w).
Proof.
  intros [(Hmd5 & Hsha1 & Hnone) Hhit]. unfold downloadFile_start.
  apply String.eqb_neq in Hmd5, Hsha1, Hnone.
  rewrite Hmd5, Hsha1, Hnone. cbn [negb]. fold (cache_route file).
  by rewrite bool_decide_eq_true_2.
Qed.

Lemma call_downloads_cached baseUrl files (w : World) :
  Forall (cached w) files ->
  call_downloads baseUrl files w
  = (map (fun file => Settled (Ok (cache_route file))) files, w).
Proof.
  induction 1 as [|file files Hfile _ IH]; [done|]. cbn [call_downloads map].
  by rewrite (downloadFile_start_cached _ _ _ Hfile), IH.
Qed.

Lemma settle_downloads_settled E (paths : list string) (w : World) :
  settle_downloads E (map (fun path => Settled (Ok path)) paths) w
  = (map Ok paths, w).
Proof.
  induction paths as [|path paths IH]; [done|]. cbn. by rewrite IH.
Qed.

Lemma rejected_at_call_settled (paths : list string) :
  rejected_at_call (map (fun path => Settled (Ok path)) paths) = None.
Proof. by induction paths. Qed.

Lemma res_all_Ok {A : Type} (xs : list A) : res_all (map Ok xs) = Ok xs.
Proof. induction xs as [|x xs IH]; [done|]. cbn. by rewrite IH. Qed.

Lemma paths_of_Ok (paths : list string) : paths_of (map Ok paths) = paths.
Proof.
  unfold paths_of. induction paths as [|p paths IH]; [done|]. cbn.
  by rewrite IH.
Qed.

Lemma call_options_cached baseUrl options (w : World) :
  Forall (cached w) (concat (map snd options)) ->
  call_options baseUrl options w
  = (map (fun '(optionName, files) =>
            (optionName,
             map (fun path => Settled (Ok path)) (map cache_route files)))
       options, w).
Proof.
  induction options as [|[optionName files] options IH]; [done|].
  cbn [map snd concat]. intros Hall. apply Forall_app in Hall as [Hfiles Hall].
  cbn [call_options]. rewrite (call_downloads_cached _ _ _ Hfiles), IH by done.
  by rewrite map_map.
Qed.

Lemma settle_options_settled E (options : list (string * list File))
    (w : World) :
  settle_options E
    (map (fun '(optionName, files) =>
            (optionName,
             map (fun path => Settled (Ok path)) (map cache_route files)))
       options) w
  = (map (fun '(optionName, files) =>
            (optionName, map Ok (map cache_route files))) options, w).
Proof.
  induction options as [|[optionName files] options IH]; [done|].
  cbn [map settle_options]. by rewrite settle_downloads_settled, IH.
Qed.

Lemma call_features_cached baseUrl features (w : World) :
  Forall (fun feature => named_feature feature = true) features ->
  Forall (cached w) (concat (map feature_files features)) ->
  call_features baseUrl features w
  = (map (fun feature =>
            Some (map (fun '(optionName, files) =>
                         (optionName,
                          map (fun path => Settled (Ok path))
                            (map cache_route files)))
                    (Manifest.feature_options feature)))
       features, w).
Proof.
  induction features as [|feature features IH]; [done|].
  intros Hnamed Hall. apply Forall_cons in Hnamed as [Hname Hnamed].
  cbn [map concat] in Hall. apply Forall_app in Hall as [Hfiles Hall].
  cbn [call_features map]. unfold named_feature in Hname. rewrite Hname.
  cbn [negb]. by rewrite (call_options_cached _ _ _ Hfiles), IH.
Qed.

Lemma settle_features_settled E (features : list Manifest.Feature)
    (w : World) :
  settle_features E
    (map (fun feature =>
            Some (map (fun '(optionName, files) =>
                         (optionName,
                          map (fun path => Settled (Ok path))
                            (map cache_route files)))
                    (Manifest.feature_options feature)))
       features) w
  = (map (fun feature =>
            map (fun '(optionName, files) =>
                   (optionName, map Ok (map cache_route files)))
              (Manifest.feature_options feature))
       features, w).
Proof.
  induction features as [|feature features IH]; [done|].
  cbn [map settle_features]. by rewrite settle_options_settled, IH.
Qed.

Lemma processedFeature_cached feature :
  processedFeature feature
    (map (fun '(optionName, files) =>
            (optionName, map Ok (map cache_route files)))
       (Manifest.feature_options feature))
  = cached_feature feature.
Proof.
  unfold processedFeature, cached_feature. rewrite map_map.
  rewrite (map_ext
             (fun x : string * list File =>
                let '(optionName, results) :=
                  let '(optionName, files) := x in
                  (optionName, map Ok (map cache_route files)) in
                (optionName, paths_of results))
             (fun '(optionName, files) =>
                (optionName, map cache_route files))); [done|].
  intros [optionName files]. by rewrite paths_of_Ok.
Qed.

Lemma features_outcome_cached features :
  Forall (fun feature => named_feature feature = true) features ->
  features_outcome features
    (map (fun feature =>
            Some (map (fun '(optionName, files) =>
                         (optionName,
                          map (fun path => Settled (Ok path))
                            (map cache_route files)))
                    (Manifest.feature_options feature)))
       features)
    (map (fun feature =>
            map (fun '(optionName, files) =>
                   (optionName, map Ok (map cache_route files)))
              (Manifest.feature_options feature))
       features)
  = Done (map cached_feature features).
Proof.
  intros Hnamed. unfold features_outcome.
  assert (existsb
            (fun feature => negb (Str.truthy (Manifest.feature_name feature)))
            features = false) as ->.
  { induction Hnamed as [|feature features Hname _ IH]; [done|]. cbn.
    unfold named_feature in Hname. by rewrite Hname, IH. }
  assert (exists paths,
             feature_downloads
               (map (fun feature =>
                       Some (map (fun '(optionName, files) =>
                                    (optionName,
                                     map (fun path => Settled (Ok path))
                                       (map cache_route files)))
                               (Manifest.feature_options feature)))
                  features)
             = map (fun path => Settled (Ok path)) paths
             /\ feature_results
                  (map (fun feature =>
                          map (fun '(optionName, files) =>
                                 (optionName, map Ok (map cache_route files)))
                            (Manifest.feature_options feature))
                     features)
                = map Ok paths) as (paths & -> & ->).
  { unfold feature_downloads, feature_results. clear Hnamed.
    induction features as [|feature features (paths & IH1 & IH2)];
      [by exists []|].
    cbn [map concat]. rewrite IH1, IH2. clear IH1 IH2.
    induction (Manifest.feature_options feature)
      as [|[optionName files] options (paths' & IH1 & IH2)].
    - by exists paths.
    - cbn [default from_option id map snd concat] in *.
      exists (map cache_route files ++ paths')%list.
      rewrite !map_app, <- !app_assoc. by rewrite IH1, IH2. }
  rewrite rejected_at_call_settled, res_all_Ok. f_equal.
  clear. induction features as [|feature features IH]; [done|].
  cbn [map zip_with]. by rewrite processedFeature_cached, IH.
Qed.

Lemma processFlagListItem_cached E name item (w : World) :
  Forall (cached w) (item_files item) ->
  Forall (fun feature => named_feature feature = true)
    (Manifest.features item) ->
  processFlagListItem E name item w = (Done (cached_item name item), w).
Proof.
  intros Hall Hnamed. unfold item_files in Hall.
  apply Forall_app in Hall as [Hbase Hfeatures].
  unfold processFlagListItem.
  rewrite (call_downloads_cached _ _ _ Hbase).
  rewrite <- (map_map cache_route (fun path => Settled (Ok path))).
  rewrite settle_downloads_settled. unfold downloads_outcome.
  rewrite rejected_at_call_settled, res_all_Ok.
  rewrite (call_features_cached _ _ _ Hnamed Hfeatures).
  rewrite settle_features_settled, (features_outcome_cached _ Hnamed).
  done.
Qed.

Lemma processFlagList_from_cached E (flagList : TypedFlagList) (w : World) :
  Forall (fun '(_, item) =>
            Forall (cached w) (item_files item)
            /\ Forall (fun feature => named_feature feature = true)
                 (Manifest.features item)) flagList ->
  forall processed,
    processFlagList_from E processed flagList w
    = (Done (fold_left
               (fun processedFlagList '(name, item) =>
                  props_set name (cached_item name item) processedFlagList)
               flagList processed), w).
Proof.
  induction 1 as [|[name item] rest [Hfiles Hnamed] _ IH];
    intros processed; [done|].
  cbn [processFlagList_from fold_left].
  by rewrite (processFlagListItem_cached _ _ _ _ Hfiles Hnamed), IH.
Qed.

Lemma cached_items_in_order (flagList : TypedFlagList) :
  NoDup (map fst flagList) ->
  fold_left
    (fun processedFlagList '(name, item) =>
       props_set name (cached_item name item) processedFlagList)
    flagList []
  = map (fun '(name, item) => (name, cached_item name item)) flagList.
Proof.
  intros Hnd.
  transitivity
    (fold_left (fun props '(key, v) => props_set key v props)
       (map (fun '(name, item) => (name, cached_item name item)) flagList)
       []).
  - clear. generalize (@nil (string * ProcessedFlagListItem)).
    induction flagList as [|[name item] rest IH]; intros acc; [done|].
    cbn [fold_left map]. by rewrite IH.
  - rewrite fold_set_fresh; [done|]. cbn [app]. rewrite map_map.
    rewrite (map_ext _ fst); [done|]. by intros [name item].
Qed.



Lemma requests_between_refl (w : World) : requests_between w w [].
Proof. unfold requests_between. by rewrite app_nil_r. Qed.

Lemma requests_between_trans (w1 w2 w3 : World) r1 r2 :
  requests_between w1 w2 r1 -> requests_between w2 w3 r2 ->
  requests_between w1 w3 (r1 ++ r2).
Proof.
  unfold requests_between. intros H1 H2. by rewrite H2, H1, app_assoc.
Qed.

Lemma downloadFile_start_requests file baseUrl (w : World) :
  fs (snd (downloadFile_start file baseUrl w)) = fs w
  /\ requests_between w (snd (downloadFile_start file baseUrl w))
       (if requested w file then [HttpGet (request_target file baseUrl)]
        else []).
Proof.
  unfold downloadFile_start, requested, request_target, requests_between.
  fold (cache_route file).
  destruct (String.eqb (Str.toUpperCase (algorithm (h file))) "MD5");
    cbn [negb andb]; [by rewrite app_nil_r|].
  destruct (String.eqb (Str.toUpperCase (algorithm (h file))) "SHA1");
    cbn [negb andb]; [by rewrite app_nil_r|].
  destruct (String.eqb (algorithm (h file)) "none"); cbn [negb orb].
  - cbn. by rewrite List.filter_app.
  - destruct (bool_decide (is_Some (fs w !! cache_route file)));
      cbn [negb snd fs trace]; [by rewrite app_nil_r|].
    by rewrite List.filter_app.
Qed.

Lemma requested_fs (w w' : World) file :
  fs w' = fs w -> requested w' file = requested w file.
Proof. intros Hfs. unfold requested. by rewrite Hfs. Qed.

Lemma call_downloads_requests baseUrl files :
  forall w : World,
    fs (snd (call_downloads baseUrl files w)) = fs w
    /\ requests_between w (snd (call_downloads baseUrl files w))
         (map (fun file => HttpGet (request_target file baseUrl))
            (List.filter (requested w) files)).
Proof.
  induction files as [|file files IH]; intros w.
  - split; [done|apply requests_between_refl].
  - cbn [call_downloads List.filter].
    destruct (downloadFile_start_requests file baseUrl w) as [Hfs Hreq].
    destruct (downloadFile_start file baseUrl w) as [s w1]. cbn [snd] in *.
    destruct (IH w1) as [Hfs' Hreq'].
    destruct (call_downloads baseUrl files w1) as [ss w2]. cbn [snd] in *.
    split; [congruence|].
    rewrite (List.filter_ext _ _ (fun file => requested_fs w w1 file Hfs))
      in Hreq'.
    pose proof (requests_between_trans _ _ _ _ _ Hreq Hreq') as Hall.
    by destruct (requested w file).
Qed.

Lemma downloadFile_finish_requests E started (w : World) :
  requests_between w (snd (downloadFile_finish E started w)) [].
Proof.
  unfold requests_between. rewrite app_nil_r.
  destruct started as [r|file shown target]; [done|].
  unfold downloadFile_finish.
  destruct (axios_get E target) as [response|]; [|done].
  destruct (negb (status response =? 200)); [done|].
  unfold io_bind, createHash_io, writeFileSync.
  destruct (negb (String.eqb (algorithm (h file)) "none")).
  - destruct (hash_hex E _ (data response)) as [hex|]; [|done]. cbn.
    destruct (digest_differs hex (digest (h file))); [done|]. cbn.
    rewrite List.filter_app. cbn. by rewrite app_nil_r.
  - destruct (hash_hex E _ (data response)) as [hex|]; [|done]. cbn.
    rewrite List.filter_app. cbn. by rewrite app_nil_r.
Qed.

Lemma settle_downloads_requests E started :
  forall w : World,
    requests_between w (snd (settle_downloads E started w)) [].
Proof.
  induction started as [|s started IH]; intros w;
    [apply requests_between_refl|].
  cbn [settle_downloads].
  pose proof (downloadFile_finish_requests E s w) as H1.
  destruct (downloadFile_finish E s w) as [r w1]. cbn [snd] in *.
  pose proof (IH w1) as H2.
  destruct (settle_downloads E started w1) as [rs w2]. cbn [snd] in *.
  apply (requests_between_trans _ _ _ _ _ H1 H2).
Qed.

Lemma requests_between_grows (w w' : World) :
  grows w w' -> exists requests, requests_between w w' requests.
Proof.
  intros [evs Hevs]. exists (List.filter is_HttpGet evs).
  unfold requests_between. by rewrite Hevs, List.filter_app.
Qed.

Lemma grows_refl (w : World) : grows w w.
Proof. exists []. by rewrite app_nil_r. Qed.

Lemma grows_trans (w1 w2 w3 : World) :
  grows w1 w2 -> grows w2 w3 -> grows w1 w3.
Proof.
  intros [evs H1] [evs' H2]. exists (evs ++ evs')%list.
  by rewrite H2, H1, app_assoc.
Qed.

Lemma downloadFile_start_grows file baseUrl (w : World) :
  grows w (snd (downloadFile_start file baseUrl w)).
Proof.
  unfold downloadFile_start.
  repeat match goal with
         | |- context [if ?c then _ else _] => destruct c
         end; cbn [snd]; try apply grows_refl; by eexists.
Qed.

Lemma downloadFile_finish_grows E started (w : World) :
  grows w (snd (downloadFile_finish E started w)).
Proof.
  destruct started as [r|file shown target]; [apply grows_refl|].
  unfold downloadFile_finish.
  destruct (axios_get E target) as [response|]; [|apply grows_refl].
  destruct (negb (status response =? 200)); [apply grows_refl|].
  unfold io_bind, createHash_io, writeFileSync.
  destruct (negb (String.eqb (algorithm (h file)) "none"));
    (destruct (hash_hex E _ (data response)) as [hex|];
     [|apply grows_refl]); cbn;
    [destruct (digest_differs hex (digest (h file)));
     [apply grows_refl|]|]; cbn; by eexists.
Qed.

Lemma call_downloads_grows baseUrl files :
  forall w : World, grows w (snd (call_downloads baseUrl files w)).
Proof.
  induction files as [|file files IH]; intros w; [apply grows_refl|].
  cbn [call_downloads].
  pose proof (downloadFile_start_grows file baseUrl w) as H1.
  destruct (downloadFile_start file baseUrl w) as [s w1]. cbn [snd] in *.
  pose proof (IH w1) as H2.
  destruct (call_downloads baseUrl files w1) as [ss w2]. cbn [snd] in *.
  apply (grows_trans _ _ _ H1 H2).
Qed.

Lemma settle_downloads_grows E started :
  forall w : World, grows w (snd (settle_downloads E started w)).
Proof.
  induction started as [|s started IH]; intros w; [apply grows_refl|].
  cbn [settle_downloads].
  pose proof (downloadFile_finish_grows E s w) as H1.
  destruct (downloadFile_finish E s w) as [r w1]. cbn [snd] in *.
  pose proof (IH w1) as H2.
  destruct (settle_downloads E started w1) as [rs w2]. cbn [snd] in *.
  apply (grows_trans _ _ _ H1 H2).
Qed.

Lemma call_options_grows baseUrl options :
  forall w : World, grows w (snd (call_options baseUrl options w)).
Proof.
  induction options as [|[optionName files] options IH]; intros w;
    [apply grows_refl|].
  cbn [call_options].
  pose proof (call_downloads_grows baseUrl files w) as H1.
  destruct (call_downloads baseUrl files w) as [ss w1]. cbn [snd] in *.
  pose proof (IH w1) as H2.
  destruct (call_options baseUrl options w1) as [os w2]. cbn [snd] in *.
  apply (grows_trans _ _ _ H1 H2).
Qed.

Lemma settle_options_grows E started :
  forall w : World, grows w (snd (settle_options E started w)).
Proof.
  induction started as [|[optionName ss] started IH]; intros w;
    [apply grows_refl|].
  cbn [settle_options].
  pose proof (settle_downloads_grows E ss w) as H1.
  destruct (settle_downloads E ss w) as [rs w1]. cbn [snd] in *.
  pose proof (IH w1) as H2.
  destruct (settle_options E started w1) as [os w2]. cbn [snd] in *.
  apply (grows_trans _ _ _ H1 H2).
Qed.

Lemma call_features_grows baseUrl features :
  forall w : World, grows w (snd (call_features baseUrl features w)).
Proof.
  induction features as [|feature features IH]; intros w;
    [apply grows_refl|].
  cbn [call_features].
  destruct (negb (Str.truthy (Manifest.feature_name feature))).
  - pose proof (IH w) as H1.
    by destruct (call_features baseUrl features w) as [fs w1].
  - pose proof (call_options_grows baseUrl
                  (Manifest.feature_options feature) w) as H1.
    destruct (call_options baseUrl _ w) as [os w1]. cbn [snd] in *.
    pose proof (IH w1) as H2.
    destruct (call_features baseUrl features w1) as [fs w2]. cbn [snd] in *.
    apply (grows_trans _ _ _ H1 H2).
Qed.

Lemma settle_features_grows E started :
  forall w : World, grows w (snd (settle_features E started w)).
Proof.
  induction started as [|[os|] started IH]; intros w; [apply grows_refl|..];
    cbn [settle_features].
  - pose proof (settle_options_grows E os w) as H1.
    destruct (settle_options E os w) as [rs w1]. cbn [snd] in *.
    pose proof (IH w1) as H2.
    destruct (settle_features E started w1) as [fs w2]. cbn [snd] in *.
    apply (grows_trans _ _ _ H1 H2).
  - pose proof (IH w) as H1.
    by destruct (settle_features E started w) as [fs w1].
Qed.

(** X26.  The base files of an item are all looked up in the cache, and
    their requests sent, before any of them is stored: whatever the answers
    are, every base file that is not refused for its algorithm and is
    declared without digest or is absent from the cache when the item is
    reached is requested, once per listing and in the order of the list;
    every other request of the item comes after these. *)
Theorem processFlagListItem_base_requests E name item (w : World) :
  exists later,
    requests_between w (snd (processFlagListItem E name item w))
      (map (fun file => HttpGet (request_target file (Manifest.baseurl item)))
         (List.filter (requested w) (Manifest.base item)) ++ later).
Proof.
  unfold processFlagListItem.
  destruct (call_downloads_requests (Manifest.baseurl item)
              (Manifest.base item) w) as [_ Hcalls].
  destruct (call_downloads _ (Manifest.base item) w) as [started w1].
  cbn [snd] in Hcalls.
  pose proof (settle_downloads_requests E started w1) as Hsettle.
  destruct (settle_downloads E started w1) as [results w2].
  cbn [snd] in Hsettle.
  pose proof (requests_between_trans _ _ _ _ _ Hcalls Hsettle) as Hbase.
  rewrite app_nil_r in Hbase.
  destruct (downloads_outcome started results) as [baseFiles|e].
  2:{ exists []. by rewrite app_nil_r. }
  pose proof (call_features_grows (Manifest.baseurl item)
                (Manifest.features item) w2) as H3.
  destruct (call_features _ (Manifest.features item) w2) as [fstarted w3].
  cbn [snd] in H3.
  pose proof (settle_features_grows E fstarted w3) as H4.
  destruct (settle_features E fstarted w3) as [ffinished w4].
  cbn [snd] in H4.
  destruct (requests_between_grows _ _ (grows_trans _ _ _ H3 H4))
    as [later Hlater].
  exists later.
  assert (requests_between w w4
            (map (fun file =>
                    HttpGet (request_target file (Manifest.baseurl item)))
               (List.filter (requested w) (Manifest.base item)) ++ later))
    by apply (requests_between_trans _ _ _ _ _ Hbase Hlater).
  by destruct (features_outcome _ fstarted ffinished).
Qed.

Lemma existsb_unnamed features :
  Exists (fun feature => named_feature feature = false) features ->
  existsb (fun feature => negb (Str.truthy (Manifest.feature_name feature)))
    features = true.
Proof.
  induction 1 as [feature features Hname|feature features _ IH]; cbn.
  - unfold named_feature in Hname. by rewrite Hname.
  - rewrite IH. apply orb_true_r.
Qed.

(** X27.  A feature without a name makes its item fail with 'Feature name
    is required' once the base files are there, whatever the downloads of
    the other features do, and no later item of the manifest is started. *)
Theorem processFlagList_unnamed_feature
    E name item (rest : TypedFlagList) (w : World) :
  Forall (cached w) (Manifest.base item) ->
  Exists (fun feature => named_feature feature = false)
    (Manifest.features item) ->
  fst (processFlagListItem E name item w) = Failed FeatureNameRequired
  /\ processFlagList E ((name, item) :: rest) w
     = (Failed FeatureNameRequired, snd (processFlagListItem E name item w)).
Proof.
  intros Hbase Hunnamed.
  assert (fst (processFlagListItem E name item w) = Failed FeatureNameRequired)
    as Hitem.
  { unfold processFlagListItem.
    rewrite (call_downloads_cached _ _ _ Hbase).
    rewrite <- (map_map cache_route (fun path => Settled (Ok path))).
    rewrite settle_downloads_settled. unfold downloads_outcome.
    rewrite rejected_at_call_settled, res_all_Ok.
    destruct (call_features _ (Manifest.features item) w) as [fstarted w3].
    destruct (settle_features E fstarted w3) as [ffinished w4].
    unfold features_outcome. by rewrite (existsb_unnamed _ Hunnamed). }
  split; [done|]. unfold processFlagList. cbn [processFlagList_from].
  destruct (processFlagListItem E name item w) as [[processed|x] w1];
    cbn in *; congruence.
Qed.

Lemma processFlagList_unnamed_feature_witness :
  fst (processFlagListItem Scenario.origin_env "Broken" Manifests.broken
         Manifests.warm)
  = Failed FeatureNameRequired
  /\ processFlagList Scenario.origin_env
       (("Broken", Manifests.broken) :: Manifests.flagList) Manifests.warm
     = (Failed FeatureNameRequired,
        snd (processFlagListItem Scenario.origin_env "Broken"
               Manifests.broken Manifests.warm)).
Proof.
  apply (processFlagList_unnamed_feature Scenario.origin_env "Broken"
           Manifests.broken Manifests.flagList Manifests.warm).
  - repeat constructor; try (vm_compute; discriminate).
    eexists. vm_compute. reflexivity.
  - apply Exists_cons_tl, Exists_cons_hd. reflexivity.
Defined.

Lemma Object_fromEntries_lookup (entries : list (string * list string))
    (key : string) :
  Object_fromEntries entries !! key = props_get key (rev entries).
Proof.
  unfold Object_fromEntries.
  assert (forall o : gmap string (list string),
             fold_left (fun o '(key, v) => <[key := v]> o) entries o !! key
             = match props_get key (rev entries) with
               | Some v => Some v
               | None => o !! key
               end) as Hfold.
  { induction entries as [|[k v] entries IH]; intros o; [done|].
    cbn [fold_left rev]. rewrite IH, props_get_app. cbn [props_get].
    destruct (props_get key (rev entries)); [done|].
    destruct (String.eqb k key) eqn:Hk.
    - apply String.eqb_eq in Hk as ->. by rewrite lookup_insert_eq.
    - apply String.eqb_neq in Hk. by rewrite lookup_insert_ne. }
  rewrite Hfold. by destruct (props_get key (rev entries)).
Qed.

Lemma props_get_map_values {V W : Type} (g : V -> W)
    (props : list (string * V)) (key : string) :
  props_get key (map (fun '(k, v) => (k, g v)) props)
  = g <$> props_get key props.
Proof.
  induction props as [|[k v] props IH]; [done|]. cbn.
  by destruct (String.eqb k key).
Qed.

Lemma res_collect_ext {A : Type} (g1 g2 : A -> Res (list string)) xs :
  (forall x, g1 x = g2 x) -> res_collect g1 xs = res_collect g2 xs.
Proof.
  intros Hext. unfold res_collect. f_equal. f_equal. by apply map_ext.
Qed.

Lemma res_collect_map {A B : Type} (g : B -> Res (list string)) (k : A -> B)
    xs :
  res_collect g (map k xs) = res_collect (fun x => g (k x)) xs.
Proof. unfold res_collect. by rewrite map_map. Qed.

Lemma pushed_files_cached feature :
  pushed_files (cached_feature feature) = default_files feature.
Proof.
  destruct feature as [name question options flags lo hi|name options flag];
    unfold default_files, cached_feature, option_files;
    cbn [Manifest.feature_options].
  - rewrite pushed_files_multiple. apply res_collect_ext. intros flag.
    unfold option_pushed.
    rewrite Object_fromEntries_lookup, <- map_rev,
      (props_get_map_values (map cache_route)).
    by destruct (props_get flag (rev options)).
  - unfold pushed_files. cbn [pushFeature].
    destruct (Str.truthy flag); [|done]. unfold pushOption.
    rewrite Object_fromEntries_lookup, <- map_rev,
      (props_get_map_values (map cache_route)).
    destruct (props_get flag (rev options)); cbn; [done|].
    by destruct (inherited flag).
Qed.

(** X28.  From processing to resolution.  A manifest with pairwise
    different keys, none written as an array index is and none
    [__proto__], that is processed from a warm cache yields, when
    [getFlagFiles] is asked next, the selection of its defaults: for every
    item that is on by default, the cache paths of its base files followed,
    feature by feature, by those of the default option or options; a
    multi-choice default that names no option makes [getFlagFiles] fail,
    and so does a default of either kind that names no option but a
    property that every object inherits, with a [TypeError]. *)
Theorem getFlagFiles_after_processing
    E (flagList : TypedFlagList) (w : World) (paths : list string) :
  Forall (fun '(_, item) =>
            Forall (cached w) (item_files item)
            /\ Forall (fun feature => named_feature feature = true)
                 (Manifest.features item)) flagList ->
  NoDup (map fst flagList) ->
  Forall (fun name => ordinary_key name = true) (map fst flagList) ->
  exists processed,
    processFlagList E flagList w = (Done processed, w)
    /\ getFlagFiles (mkRFO [processed] paths) = default_selection flagList.
Proof.
  intros Hall Hnd _. eexists.
  split; [by apply processFlagList_from_cached|].
  rewrite getFlagFiles_pushed by done. cbn [processedFlagList].
  unfold pushed_all, default_selection. cbn [map concat].
  rewrite app_nil_r, (cached_items_in_order _ Hnd).
  unfold Object_values. rewrite map_map, res_collect_map.
  apply res_collect_ext. intros [name item]. cbn [snd].
  unfold pushed_item_files, cached_item. cbn [enabled base features].
  destruct (Manifest.default item); [|done]. f_equal.
  rewrite res_collect_map. apply res_collect_ext.
  apply pushed_files_cached.
Qed.

Lemma getFlagFiles_after_processing_witness :
  exists processed,
    processFlagList Scenario.origin_env Manifests.flagList Manifests.warm
    = (Done processed, Manifests.warm)
    /\ getFlagFiles (mkRFO [processed] [])
       = default_selection Manifests.flagList.
Proof.
  apply (getFlagFiles_after_processing Scenario.origin_env
           Manifests.flagList Manifests.warm []).
  - repeat constructor; try (vm_compute; discriminate);
      eexists; vm_compute; reflexivity.
  - apply (bool_decide_unpack _). by vm_compute.
  - repeat constructor.
Defined.

Example processFlagListItem_doubled :
  processFlagListItem Scenario.tampered_env "Doubled" Manifests.doubled
    Cache.fresh
  = (Done (mkItem "Doubled" "https://rfo.sh/flags/" true true
             ["_cache/8"; "_cache/8"] []),
     mkWorld (<["_cache/8" := FsFile "tampered"]> (fs Cache.fresh))
       [HttpGet "_cache/8"; HttpGet "_cache/8";
        FileWrite "_cache/8" "tampered"; FileWrite "_cache/8" "tampered"]).
Proof. by vm_compute. Qed.

(** ** process and preprocessFlags *)

Section InstanceFacts.

Variable E : Env.
Variable flagListDir : string.
Variable as_Config : JValue -> Config.
Variable as_FlagList : JValue -> TypedFlagList.

Local Abbreviation process' :=
  (Instance.process E flagListDir as_Config as_FlagList).
Local Abbreviation fetchFlagLists' :=
  (Instance.fetchFlagLists E flagListDir as_Config as_FlagList).
Local Abbreviation preprocessFlags' :=
  (Instance.preprocessFlags E flagListDir as_Config as_FlagList).

(** The world in which [process] loads the configuration. *)
Local Abbreviation with_cache w :=
  (match fs w !! "_cache" with
   | Some _ => w
   | None =>
       mkWorld (<["_cache" := FsDir []]> (fs w)) (trace w ++ [MakeDir "_cache"])
   end).

Lemma fetchFlagLists_forgets (this this' : Instance.FlagListPreprocessor)
    (w : World) :
  Instance.config this = Instance.config this' ->
  match fetchFlagLists' this w, fetchFlagLists' this' w with
  | (Done _, after, w1), (Done _, after', w1') => after = after' /\ w1 = w1'
  | (Failed x, _, w1), (Failed x', _, w1') => x = x' /\ w1 = w1'
  | _, _ => False
  end.
Proof.
  intros Hconfig. unfold Instance.fetchFlagLists. rewrite Hconfig.
  destruct (promise_all _ w) as [[flagListsData|e] w1]; [|done].
  cbn [Instance.config Instance.flagLists].
  by destruct (readLocalFlagLists E flagListDir w1) as [[local|e] w2].
Qed.

Lemma process_from_disk
    (given given' : option (list TypedFlagList))
    (this this' : Instance.FlagListPreprocessor) (w : World) :
  fst (fst (process' given true this w))
  = fst (fst (process' given' true this' w))
  /\ snd (process' given true this w) = snd (process' given' true this' w).
Proof.
  unfold Instance.process.
  destruct (loadConfig E "./config.json5" _) as [[loaded|e] w1]; [|done].
  cbn [Instance.config Instance.flagLists].
  set (pushed := match given with
                 | Some g => Instance.mkFlagListPreprocessor loaded _
                 | None => _
                 end).
  set (pushed' := match given' with
                  | Some g => Instance.mkFlagListPreprocessor loaded _
                  | None => _
                  end).
  assert (Instance.config pushed = Instance.config pushed') as Hconfig
    by (unfold pushed, pushed'; by destruct given, given').
  pose proof (fetchFlagLists_forgets pushed pushed' w1 Hconfig) as Hsame.
  destruct (fetchFlagLists' pushed w1) as [[[[]|x] after] w2],
    (fetchFlagLists' pushed' w1) as [[[[]|x'] after'] w2'];
    try done; destruct Hsame as [-> ->]; [|done].
  by destruct (processFlagLists E (Instance.flagLists after') w2').
Qed.

(** X29.  The flag lists of a call of [process].  When flag lists are
    pushed from disk, the lists given to the call and the lists that the
    instance holds are dropped: the outcome and the world are the same
    whatever they are.  When they are not, the given lists are added to the
    lists that the instance holds from earlier calls, and all of them are
    processed. *)
Theorem process_flagLists
    (given given' : option (list TypedFlagList))
    (this this' : Instance.FlagListPreprocessor) (w : World) :
  (fst (fst (process' given true this w))
   = fst (fst (process' given' true this' w))
   /\ snd (process' given true this w) = snd (process' given' true this' w))
  /\ forall loaded w1,
       loadConfig E "./config.json5" (with_cache w) = (Ok loaded, w1) ->
       let held := (Instance.flagLists this ++ default [] given)%list in
       process' given false this w
       = (fst (processFlagLists E held w1),
          Instance.mkFlagListPreprocessor loaded held,
          snd (processFlagLists E held w1)).
Proof.
  split; [apply process_from_disk|].
  intros loaded w1 Hload held. unfold Instance.process. rewrite Hload.
  cbn [Instance.config Instance.flagLists].
  assert (match given with
          | Some g =>
              Instance.mkFlagListPreprocessor loaded
                (Instance.flagLists this ++ g)%list
          | None =>
              Instance.mkFlagListPreprocessor loaded
                (Instance.flagLists this)
          end = Instance.mkFlagListPreprocessor loaded held) as ->.
  { unfold held. destruct given; [done|]. cbn. by rewrite app_nil_r. }
  cbn [Instance.flagLists].
  by destruct (processFlagLists E held w1).
Qed.

(** X30.  [preprocessFlags] and its arguments.  With flags included from
    disk, which is the default, the flag lists handed to the call are never
    processed: the outcome, the instance of [RFO] and the world are the same
    whatever list is passed.  With [clearFlagList], the processed flag lists
    of earlier calls are gone also when the call throws.  The Roblox paths
    are never touched. *)
Theorem preprocessFlags_arguments
    (clearFlagList : bool) (flagList flagList' : list TypedFlagList)
    (includeFlagsFromDisk : bool) (this : RFO)
    (preprocessor : Instance.FlagListPreprocessor) (w : World) :
  let run := preprocessFlags' clearFlagList flagList includeFlagsFromDisk
               this preprocessor w in
  let run' := preprocessFlags' clearFlagList flagList' true this
                preprocessor w in
  (includeFlagsFromDisk = true ->
   fst (fst (fst run)) = fst (fst (fst run'))
   /\ snd (fst (fst run)) = snd (fst (fst run'))
   /\ snd run = snd run')
  /\ (clearFlagList = true ->
      forall x, fst (fst (fst run)) = Failed x ->
        processedFlagList (snd (fst (fst run))) = [])
  /\ robloxPaths (snd (fst (fst run))) = robloxPaths this.
Proof.
  cbn zeta. split; [|split].
  - intros ->. unfold Instance.preprocessFlags.
    destruct (process_from_disk (Some flagList) (Some flagList')
                preprocessor preprocessor w) as [Hout Hworld].
    destruct (process' (Some flagList) true preprocessor w)
      as [[[processed|x] after] w1],
      (process' (Some flagList') true preprocessor w)
      as [[[processed'|x'] after'] w1']; cbn in Hout, Hworld; try done.
    + injection Hout as <-. subst w1'.
      by destruct (length _ =? 0)%nat.
    + injection Hout as <-. by subst w1'.
  - intros -> x. unfold Instance.preprocessFlags.
    destruct (process' (Some flagList) includeFlagsFromDisk preprocessor w)
      as [[[processed|x'] after] w1]; cbn; [|done].
    destruct processed; [done|]. by cbn.
  - unfold Instance.preprocessFlags.
    destruct (process' (Some flagList) includeFlagsFromDisk preprocessor w)
      as [[[processed|x'] after] w1]; cbn.
    + destruct (length _ =? 0)%nat; cbn; by destruct clearFlagList.
    + by destruct clearFlagList.
Qed.

End InstanceFacts.

Lemma process_flagLists_witness :
  Instance.process Scenario.origin_env "./flagLists/"
    (fun _ => Loader.config_soft) (fun _ => [])
    (Some [Manifests.flagList]) false
    (Instance.mkFlagListPreprocessor JNull []) Manifests.warm
  = (Done
       [[("FastFlags",
          mkItem "FastFlags" "https://rfo.sh/flags/" true true ["_cache/b1"]
            [SingleChoice "Graphics" (<["DX11" := ["_cache/d1"]]> ∅)
               "DX11" "DX11"])]],
     Instance.mkFlagListPreprocessor Defaults.defaultConfig
       [Manifests.flagList],
     mkWorld (<["_cache" := FsDir []]> (fs Manifests.warm))
       [MakeDir "_cache"]).
Proof.
  refine (proj2 (process_flagLists Scenario.origin_env "./flagLists/"
                   (fun _ => Loader.config_soft) (fun _ => [])
                   (Some [Manifests.flagList]) None
                   (Instance.mkFlagListPreprocessor JNull [])
                   (Instance.mkFlagListPreprocessor JNull [])
                   Manifests.warm)
            Defaults.defaultConfig
            (mkWorld (<["_cache" := FsDir []]> (fs Manifests.warm))
               [MakeDir "_cache"]) _).
  reflexivity.
Defined.

Lemma preprocessFlags_arguments_witness :
  let run :=
    Instance.preprocessFlags Scenario.origin_env "./flagLists/"
      (fun _ => Loader.config_soft) (fun _ => [])
      true [Manifests.flagList] true
      (mkRFO [[("FastFlags", Flags.fastFlags "DX11")]] [Install.roblox])
      (Instance.mkFlagListPreprocessor JNull []) Manifests.warm in
  let run' :=
    Instance.preprocessFlags Scenario.origin_env "./flagLists/"
      (fun _ => Loader.config_soft) (fun _ => [])
      true [] true
      (mkRFO [[("FastFlags", Flags.fastFlags "DX11")]] [Install.roblox])
      (Instance.mkFlagListPreprocessor JNull []) Manifests.warm in
  (fst (fst (fst run)) = fst (fst (fst run'))
   /\ snd (fst (fst run)) = snd (fst (fst run'))
   /\ snd run = snd run')
  /\ processedFlagList (snd (fst (fst run))) = []
  /\ robloxPaths (snd (fst (fst run))) = [Install.roblox].
Proof.
  cbv zeta.
  pose proof (preprocessFlags_arguments Scenario.origin_env "./flagLists/"
                (fun _ => Loader.config_soft) (fun _ => [])
                true [Manifests.flagList] [] true
                (mkRFO [[("FastFlags", Flags.fastFlags "DX11")]]
                   [Install.roblox])
                (Instance.mkFlagListPreprocessor JNull []) Manifests.warm)
    as (Hdisk & Hclear & Hpaths).
  split; [exact (Hdisk eq_refl)|]. split; [|exact Hpaths].
  apply (Hclear eq_refl
           (Thrown (RemoteFlagListFailed "Default Flags"
                      "https://good.example/flaglists.json5"))).
  reflexivity.
Defined.
